(** * KaHyPar: k-way gain priority queue, two-way flow refiner, FM gain
      updates and the command-line driver

    A shallow embedding of the parts of KaHyPar that the specification
    talks about, together with the properties proved about them.

    Conventions of the embedding.
    - [size_t] values are [N] with the 64-bit wrap-around written out
      ([size_t_inc], [size_t_dec]); [PartitionID] and keys (gains) are
      signed and live in [Z]; ids are [N].
    - A [std::vector] is a [list]; reading or writing outside the vector
      is undefined behaviour in C++ and is a failure ([None]) here.
    - An [ASSERT(c, ...)] of the source is the contract of the function it
      stands in: a violated assertion is a failure ([None]) as well.
    - Functions that mutate the object take the state and return the new
      state inside [option]. *)

From Stdlib Require Import ZArith NArith QArith Qround Lqa Lia Bool.
From stdpp Require Import base option list numbers strings.

Local Open Scope N_scope.

(** ** Vectors indexed by [size_t] *)

Module Vec.

Fixpoint get {A} (l : list A) (i : N) {struct l} : option A :=
  match l with
  | [] => None
  | x :: l' => if i =? 0 then Some x else get l' (N.pred i)
  end.

Fixpoint set {A} (l : list A) (i : N) (y : A) {struct l} : option (list A) :=
  match l with
  | [] => None
  | x :: l' =>
      if i =? 0 then Some (y :: l')
      else match set l' (N.pred i) y with
           | Some r => Some (x :: r)
           | None => None
           end
  end.

Definition size {A} (l : list A) : N := N.of_nat (length l).

Lemma get_lookup {A} (l : list A) i : get l i = l !! N.to_nat i.
Proof.
  revert i; induction l as [|x l IH]; intros i; simpl.
  - by rewrite lookup_nil.
  - destruct (N.eqb_spec i 0) as [->|Hi]; [done|].
    rewrite IH. replace (N.to_nat i) with (S (N.to_nat (N.pred i))) by lia.
    done.
Qed.

Lemma set_insert {A} (l : list A) i y :
  set l i y = if decide (i < size l) then Some (<[N.to_nat i := y]> l) else None.
Proof.
  unfold size. revert i; induction l as [|x l IH]; intros i; simpl.
  - case_decide; [lia|done].
  - destruct (N.eqb_spec i 0) as [->|Hi].
    + case_decide; [done|lia].
    + rewrite IH. replace (N.to_nat i) with (S (N.to_nat (N.pred i))) by lia.
      simpl. repeat case_decide; try done; lia.
Qed.

Lemma get_Some_lt {A} (l : list A) i x : get l i = Some x → i < size l.
Proof.
  rewrite get_lookup. intros H%lookup_lt_Some. unfold size. lia.
Qed.

Lemma get_lt_is_Some {A} (l : list A) i : i < size l → is_Some (get l i).
Proof.
  rewrite get_lookup. intros H. apply lookup_lt_is_Some. unfold size in H. lia.
Qed.

Lemma get_ge_None {A} (l : list A) i : size l ≤ i → get l i = None.
Proof.
  rewrite get_lookup. intros H. apply lookup_ge_None. unfold size in H. lia.
Qed.

Lemma set_Some_lt {A} (l l' : list A) i y : set l i y = Some l' → i < size l.
Proof. rewrite set_insert. by case_decide. Qed.

Lemma set_lt_is_Some {A} (l : list A) i y : i < size l → is_Some (set l i y).
Proof. rewrite set_insert. intros. case_decide; [eauto|lia]. Qed.

Lemma size_set {A} (l l' : list A) i y : set l i y = Some l' → size l' = size l.
Proof.
  rewrite set_insert. case_decide; [|done]. intros [= <-].
  unfold size. by rewrite length_insert.
Qed.

Lemma get_set {A} (l l' : list A) i j y :
  set l i y = Some l' → get l' j = if decide (i = j) then Some y else get l j.
Proof.
  rewrite set_insert. case_decide as Hlt; [|done]. intros [= <-].
  rewrite !get_lookup. case_decide as Hij.
  - subst j. apply list_lookup_insert_eq. unfold size in Hlt. lia.
  - apply list_lookup_insert_ne. lia.
Qed.

Lemma get_set_eq {A} (l l' : list A) i y :
  set l i y = Some l' → get l' i = Some y.
Proof. intros H. rewrite (get_set _ _ _ _ _ H). by case_decide. Qed.

Lemma get_set_ne {A} (l l' : list A) i j y :
  set l i y = Some l' → i ≠ j → get l' j = get l j.
Proof. intros H ?. rewrite (get_set _ _ _ _ _ H). by case_decide. Qed.

Lemma set_same {A} (l : list A) i x : get l i = Some x → set l i x = Some l.
Proof.
  intros H. rewrite set_insert. pose proof (get_Some_lt _ _ _ H).
  case_decide; [|lia]. f_equal. apply list_insert_id. by rewrite <- get_lookup.
Qed.

Lemma ext {A} (l1 l2 : list A) : (∀ i, get l1 i = get l2 i) → l1 = l2.
Proof.
  intros H. apply list_eq. intros i. specialize (H (N.of_nat i)).
  by rewrite !get_lookup, Nat2N.id in H.
Qed.

End Vec.

(** ** The per-block max-heap *)

(** Modelled from the spec: [BinaryMaxHeap] (kahypar/datastructure/binary_heap.h)
    is not among the sources.  The specification describes the sub-queues of
    the k-way queue as per-block max-heaps that hold at most one entry per
    id; the model keeps the entries [(id, key)] of a heap in a list, [top]
    and [topKey] read an entry of greatest key, [pop] removes it. *)
Module BinaryMaxHeap.

Local Open Scope Z_scope.

Definition entry : Type := N * Z.
Definition t : Type := list entry.

Definition empty (h : t) : bool :=
  match h with [] => true | _ => false end.

Definition size (h : t) : N := N.of_nat (length h).

Definition contains (h : t) (id : N) : bool :=
  existsb (λ e, N.eqb (fst e) id) h.

Definition push (h : t) (id : N) (key : Z) : option t :=
  if contains h id then None else Some ((id, key) :: h).

(** an entry of greatest key, the earliest stored one among equals *)
Fixpoint top_entry (h : t) : option entry :=
  match h with
  | [] => None
  | e :: h' =>
      match top_entry h' with
      | Some m => if snd e <? snd m then Some m else Some e
      | None => Some e
      end
  end.

Definition top (h : t) : option N := fst <$> top_entry h.
Definition topKey (h : t) : option Z := snd <$> top_entry h.

Definition entry_eqb (a b : entry) : bool :=
  N.eqb (fst a) (fst b) && Z.eqb (snd a) (snd b).

(** drop the first entry that satisfies [p] *)
Fixpoint erase (p : entry → bool) (h : t) : t :=
  match h with
  | [] => []
  | e :: h' => if p e then h' else e :: erase p h'
  end.

Definition pop (h : t) : option t :=
  m ← top_entry h; Some (erase (entry_eqb m) h).

Definition remove (h : t) (id : N) : option t :=
  if contains h id then Some (erase (λ e, N.eqb (fst e) id) h) else None.

Definition getKey (h : t) (id : N) : option Z :=
  snd <$> find (λ e, N.eqb (fst e) id) h.

Definition updateKey (h : t) (id : N) (key : Z) : option t :=
  if contains h id
  then Some (map (λ e : entry, if N.eqb (fst e) id then (id, key) else e) h)
  else None.

(** The keys are [KeyType] values; the sum of [updateKeyBy] is the key of the
    code as long as it stays within the limits of [KeyType]. *)
Definition updateKeyBy (h : t) (id : N) (key_delta : Z) : option t :=
  if contains h id
  then Some (map (λ e : entry, if N.eqb (fst e) id then (id, snd e + key_delta) else e) h)
  else None.

Definition clear (h : t) : t := [].

(** *** Facts about the heap model *)

Lemma entry_eqb_eq a b : entry_eqb a b = true ↔ a = b.
Proof.
  destruct a as [i k], b as [j l]; unfold entry_eqb; simpl.
  rewrite andb_true_iff, N.eqb_eq, Z.eqb_eq. split; [intros [-> ->]|intros [= -> ->]]; done.
Qed.

Lemma empty_true h : empty h = true ↔ h = [].
Proof. by destruct h. Qed.

Lemma empty_false h : empty h = false ↔ h ≠ [].
Proof. by destruct h. Qed.

Lemma size_nil : size [] = 0%N.
Proof. done. Qed.

Lemma size_pos h : h ≠ [] → (0 < size h)%N.
Proof. destruct h; [done|]. unfold size; simpl; lia. Qed.

Lemma top_entry_is_Some h : h ≠ [] → is_Some (top_entry h).
Proof.
  destruct h as [|e h]; [done|]. intros _. simpl.
  destruct (top_entry h); [destruct (_ <? _)|]; eauto.
Qed.

Lemma top_entry_None h : top_entry h = None ↔ h = [].
Proof.
  split; [|by intros ->].
  destruct h as [|e h]; [done|]. simpl.
  destruct (top_entry h); [destruct (_ <? _)|]; done.
Qed.

Lemma top_entry_elem h m : top_entry h = Some m → m ∈ h.
Proof.
  revert m; induction h as [|e h IH]; intros m; simpl; [done|].
  destruct (top_entry h) as [m'|].
  - destruct (_ <? _); intros [= <-]; [right; by apply IH|left].
  - intros [= <-]. left.
Qed.

Lemma top_entry_max h m e :
  top_entry h = Some m → e ∈ h → snd e ≤ snd m.
Proof.
  revert m; induction h as [|x h IH]; intros m Hm He; [by apply elem_of_nil in He|].
  simpl in Hm. apply elem_of_cons in He as [->|He].
  - destruct (top_entry h) as [m'|].
    + destruct (Z.ltb_spec (snd x) (snd m')); injection Hm as <-; lia.
    + injection Hm as <-. lia.
  - destruct (top_entry h) as [m'|] eqn:Hh.
    + specialize (IH m' eq_refl He).
      destruct (Z.ltb_spec (snd x) (snd m')); injection Hm as <-; lia.
    + apply top_entry_None in Hh as ->. by apply elem_of_nil in He.
Qed.

Lemma erase_length p h e :
  e ∈ h → p e = true → S (length (erase p h)) = length h.
Proof.
  induction h as [|x h IH]; intros He Hp; [by apply elem_of_nil in He|]. simpl.
  destruct (p x) eqn:Hx; [done|]. simpl. f_equal. apply IH; [|done].
  apply elem_of_cons in He as [->|He]; [congruence|done].
Qed.

Lemma erase_elem p h e : e ∈ erase p h → e ∈ h.
Proof.
  induction h as [|x h IH]; simpl; [done|].
  destruct (p x); [by right|].
  intros [->|He]%elem_of_cons; [left|right; by apply IH].
Qed.

Lemma contains_elem h id : contains h id = true ↔ ∃ k, (id, k) ∈ h.
Proof.
  unfold contains. rewrite existsb_exists. split.
  - intros ([i k] & Hin & Hi). simpl in Hi. apply N.eqb_eq in Hi as ->.
    exists k. by apply list_elem_of_In.
  - intros [k Hin]. exists (id, k). split; [by apply list_elem_of_In|apply N.eqb_refl].
Qed.

Lemma size_push h id key h' : push h id key = Some h' → size h' = N.succ (size h).
Proof.
  unfold push. destruct (contains h id); [done|]. intros [= <-].
  unfold size; simpl; lia.
Qed.

Lemma size_pop h h' : pop h = Some h' → N.succ (size h') = size h.
Proof.
  unfold pop. destruct (top_entry h) as [m|] eqn:Hm; [|done]. simpl. intros [= <-].
  unfold size. rewrite <- (erase_length (entry_eqb m) h m).
  - lia.
  - by apply top_entry_elem.
  - by apply entry_eqb_eq.
Qed.

Lemma size_remove h id h' : remove h id = Some h' → N.succ (size h') = size h.
Proof.
  unfold remove. destruct (contains h id) eqn:Hc; [|done]. intros [= <-].
  apply contains_elem in Hc as [k Hk].
  unfold size. rewrite <- (erase_length (λ e, N.eqb (fst e) id) h (id, k) Hk).
  - lia.
  - apply N.eqb_refl.
Qed.

Lemma pop_is_Some h : h ≠ [] → is_Some (pop h).
Proof.
  intros [m Hm]%top_entry_is_Some. unfold pop. rewrite Hm. simpl. eauto.
Qed.

End BinaryMaxHeap.

(** ** Machine integers *)

Definition size_t_inc (n : N) : N := (n + 1) mod 2 ^ 64.
Definition size_t_dec (n : N) : N := (n + (2 ^ 64 - 1)) mod 2 ^ 64.
(** conversion of a (signed) [PartitionID] to [unsigned int] and to [size_t] *)
Definition to_unsigned (p : Z) : N := Z.to_N (p mod 2 ^ 32).
Definition to_size_t (p : Z) : N := Z.to_N (p mod 2 ^ 64).

Definition ASSERT (c : bool) : option unit := if c then Some () else None.

(** monadic left fold: the body of a [for] loop run over the loop's indices *)
Fixpoint foldM {A B} (f : A → B → option A) (a : A) (l : list B) : option A :=
  match l with
  | [] => Some a
  | x :: l' => a' ← f a x; foldM f a' l'
  end.

(** the indices [0, 1, ..., n-1] of a counting loop *)
Definition indices (n : N) : list N := N.of_nat <$> seq 0 (N.to_nat n).

(** ** The k-way priority queue (kahypar/datastructure/kway_priority_queue.h) *)

Module KWayPriorityQueue.

Module Heap := BinaryMaxHeap.

Definition kInvalidIndex : N := 2 ^ 64 - 1.
Definition kInvalidPart : Z := 2 ^ 31 - 1.

Record IndexPartMapping := { part : Z; index : N }.

Record t := {
  _queues : list Heap.t;
  _mapping : list IndexPartMapping;  (* index to part mapping & part to index mapping *)
  _ties : list N;                    (* for random tie breaking *)
  _num_entries : N;
  _num_nonempty_pqs : N;
  _num_enabled_pqs : N
}.

Definition with_queues (s : t) (q : list Heap.t) : t :=
  {| _queues := q; _mapping := _mapping s; _ties := _ties s;
     _num_entries := _num_entries s; _num_nonempty_pqs := _num_nonempty_pqs s;
     _num_enabled_pqs := _num_enabled_pqs s |}.
Definition with_mapping (s : t) (m : list IndexPartMapping) : t :=
  {| _queues := _queues s; _mapping := m; _ties := _ties s;
     _num_entries := _num_entries s; _num_nonempty_pqs := _num_nonempty_pqs s;
     _num_enabled_pqs := _num_enabled_pqs s |}.
Definition with_ties (s : t) (l : list N) : t :=
  {| _queues := _queues s; _mapping := _mapping s; _ties := l;
     _num_entries := _num_entries s; _num_nonempty_pqs := _num_nonempty_pqs s;
     _num_enabled_pqs := _num_enabled_pqs s |}.
Definition with_num_entries (s : t) (n : N) : t :=
  {| _queues := _queues s; _mapping := _mapping s; _ties := _ties s;
     _num_entries := n; _num_nonempty_pqs := _num_nonempty_pqs s;
     _num_enabled_pqs := _num_enabled_pqs s |}.
Definition with_num_nonempty_pqs (s : t) (n : N) : t :=
  {| _queues := _queues s; _mapping := _mapping s; _ties := _ties s;
     _num_entries := _num_entries s; _num_nonempty_pqs := n;
     _num_enabled_pqs := _num_enabled_pqs s |}.
Definition with_num_enabled_pqs (s : t) (n : N) : t :=
  {| _queues := _queues s; _mapping := _mapping s; _ties := _ties s;
     _num_entries := _num_entries s; _num_nonempty_pqs := _num_nonempty_pqs s;
     _num_enabled_pqs := n |}.

(** [_mapping[i].part], [_mapping[i].index] and the assignments to them *)
Definition get_part (s : t) (i : N) : option Z := part <$> Vec.get (_mapping s) i.
Definition get_index (s : t) (i : N) : option N := index <$> Vec.get (_mapping s) i.
Definition set_part (s : t) (i : N) (p : Z) : option t :=
  m ← Vec.get (_mapping s) i;
  with_mapping s <$> Vec.set (_mapping s) i {| part := p; index := index m |}.
Definition set_index (s : t) (i : N) (x : N) : option t :=
  m ← Vec.get (_mapping s) i;
  with_mapping s <$> Vec.set (_mapping s) i {| part := part m; index := x |}.
Definition get_queue (s : t) (i : N) : option Heap.t := Vec.get (_queues s) i.
Definition set_queue (s : t) (i : N) (q : Heap.t) : option t :=
  with_queues s <$> Vec.set (_queues s) i q.

(** [ASSERT(static_cast<unsigned int>(part) < _queues.size(), ...)] *)
Definition valid_part (s : t) (p : Z) : bool :=
  to_unsigned p <? Vec.size (_queues s).

(** explicit KWayPriorityQueue(const PartitionID k) *)
Definition make (k : Z) : option t :=
  ASSERT ((0 <=? k)%Z && (k <? 2 ^ 31 - 1)%Z);;
  Some {| _queues := [];
          _mapping := replicate (Z.to_nat (k + (* sentinel *) 1))
                                {| part := kInvalidPart; index := kInvalidIndex |};
          _ties := replicate (Z.to_nat k) 0;
          _num_entries := 0;
          _num_nonempty_pqs := 0;
          _num_enabled_pqs := 0 |}.

Definition initialize (s : t) : t :=
  (* k = mapping.size() - 1. Last element in mapping is used as a sentinel. *)
  with_queues s
    (_queues s ++ replicate (N.to_nat (size_t_dec (Vec.size (_mapping s)))) []).

Definition isUnused (s : t) (p : Z) : option bool :=
  i ← get_index s (to_size_t p);
  (if negb (i =? kInvalidIndex)
   then p' ← get_part s i; ASSERT (negb (p' =? kInvalidPart)%Z)
   else Some ());;
  Some (i =? kInvalidIndex).

Definition isEnabled (s : t) (p : Z) : option bool :=
  ASSERT (valid_part s p);;
  i ← get_index s (to_size_t p);
  Some (i <? _num_enabled_pqs s).

Definition size_of (s : t) (p : Z) : option N :=
  ASSERT (valid_part s p);;
  i ← get_index s (to_size_t p);
  if i <? _num_nonempty_pqs s then Heap.size <$> get_queue s i else Some 0.

Definition size (s : t) : N := _num_entries s.

Definition empty_part (s : t) (p : Z) : option bool :=
  ASSERT (valid_part s p);;
  isUnused s p.

Definition empty (s : t) : bool :=
  (_num_enabled_pqs s =? 0) || (_num_entries s =? 0).

Definition numEnabledParts (s : t) : N := _num_enabled_pqs s.
Definition numNonEmptyParts (s : t) : N := _num_nonempty_pqs s.

Definition swap (index_a index_b : N) (s : t) : option t :=
  (* swap(_queues[index_a], _queues[index_b]); *)
  qa ← get_queue s index_a;
  qb ← get_queue s index_b;
  s ← set_queue s index_a qb;
  s ← set_queue s index_b qa;
  (* swap(_mapping[index_a].part, _mapping[index_b].part); *)
  pa ← get_part s index_a;
  pb ← get_part s index_b;
  s ← set_part s index_a pb;
  s ← set_part s index_b pa;
  (* swap(_mapping[_mapping[index_a].part].index, _mapping[_mapping[index_b].part].index); *)
  pa ← get_part s index_a;
  pb ← get_part s index_b;
  ia ← get_index s (to_size_t pa);
  ib ← get_index s (to_size_t pb);
  s ← set_index s (to_size_t pa) ib;
  s ← set_index s (to_size_t pb) ia;
  pa ← get_part s index_a;
  pb ← get_part s index_b;
  ia ← get_index s (to_size_t pa);
  ib ← get_index s (to_size_t pb);
  ASSERT ((ia =? index_a) && (ib =? index_b));;
  Some s.

Definition markUnused (p : Z) (s : t) : option t :=
  i ← get_index s (to_size_t p);
  s ← set_part s i kInvalidPart;
  set_index s (to_size_t p) kInvalidIndex.

Definition enablePart (p : Z) (s : t) : option t :=
  ASSERT (valid_part s p);;
  unused ← isUnused s p;
  if (unused : bool) then Some s else
  enabled ← isEnabled s p;
  if (enabled : bool) then Some s else
  i ← get_index s (to_size_t p);
  s ← swap i (_num_enabled_pqs s) s;
  let s := with_num_enabled_pqs s (size_t_inc (_num_enabled_pqs s)) in
  ASSERT (_num_enabled_pqs s <=? _num_nonempty_pqs s);;
  Some s.

Definition disablePart (p : Z) (s : t) : option t :=
  ASSERT (valid_part s p);;
  enabled ← isEnabled s p;
  if (enabled : bool) then
    let s := with_num_enabled_pqs s (size_t_dec (_num_enabled_pqs s)) in
    i ← get_index s (to_size_t p);
    swap i (_num_enabled_pqs s) s
  else Some s.

Definition insert (id : N) (p : Z) (key : Z) (s : t) : option t :=
  ASSERT (valid_part s p);;
  i ← get_index s (to_size_t p);
  sentinel ← get_part s (_num_nonempty_pqs s);
  ASSERT (negb (i =? kInvalidIndex) || (sentinel =? kInvalidPart)%Z);;
  (* In order to get rid of the explicit branch, we have to use a sentinel
     element at _mapping[k]. *)
  s ← set_part s (_num_nonempty_pqs s) (if i =? kInvalidIndex then p else sentinel);
  i ← get_index s (to_size_t p);
  let i' := if i =? kInvalidIndex then _num_nonempty_pqs s (* ++ *) else i in
  let s := if i =? kInvalidIndex
           then with_num_nonempty_pqs s (size_t_inc (_num_nonempty_pqs s))
           else s in
  s ← set_index s (to_size_t p) i';
  i ← get_index s (to_size_t p);
  q ← get_queue s i;
  q ← Heap.push q id key;
  s ← set_queue s i q;
  Some (with_num_entries s (size_t_inc (_num_entries s))).

Section template_parameters.

(** [MetaKey::min()], [MetaKey::max()], the template flag
    [UseRandomTieBreaking] and [Randomize::instance().getRandomInt]
    (kahypar/utils/randomize.h, not among the sources). *)
Variable MetaKey_min MetaKey_max : Z.
Variable UseRandomTieBreaking : bool.
Variable getRandomInt : N → N → N.

Definition maxIndex_body (s : t) (acc : N * Z) (index : N) : option (N * Z) :=
  let '(max_index, max_key) := acc in
  q ← get_queue s index;
  ASSERT (negb (Heap.empty q));;
  key ← Heap.topKey q;
  Some (if (max_key <? key)%Z then (index, key) else (max_index, max_key)).

Definition maxIndex (s : t) : option N :=
  r ← foldM (maxIndex_body s) (kInvalidIndex, MetaKey_min) (indices (_num_enabled_pqs s));
  ASSERT (negb (fst r =? kInvalidIndex));;
  Some (fst r).

Definition maxIndexRandomTieBreaking_body (s : t) (acc : list N * Z) (index : N)
  : option (list N * Z) :=
  let '(ties, max_key) := acc in
  q ← get_queue s index;
  ASSERT (negb (Heap.empty q));;
  key ← Heap.topKey q;
  Some (if (max_key <? key)%Z then ([index], key)
        else if (key =? max_key)%Z then (ties ++ [index], max_key)
        else (ties, max_key)).

Definition maxIndexRandomTieBreaking (s : t) : option (N * t) :=
  r ← foldM (maxIndexRandomTieBreaking_body s) (_ties s, MetaKey_min)
            (indices (_num_enabled_pqs s));
  let s := with_ties s (fst r) in
  i ← Vec.get (_ties s) (getRandomInt 0 (size_t_dec (Vec.size (_ties s))));
  Some (i, s).

(** the tail shared by [deleteMax] and [deleteMaxFromPartition]: the
    sub-queue of [p] has become empty *)
Definition retire (p : Z) (s : t) : option t :=
  enabled ← isEnabled s p;
  ASSERT enabled;;
  let s := with_num_enabled_pqs s (size_t_dec (_num_enabled_pqs s)) in
  (* now points to the last enabled pq *)
  let s := with_num_nonempty_pqs s (size_t_dec (_num_nonempty_pqs s)) in
  (* now points to the last non-empty disabled pq *)
  i ← get_index s (to_size_t p);
  s ← swap i (_num_enabled_pqs s) s;
  i ← get_index s (to_size_t p);
  s ← swap i (_num_nonempty_pqs s) s;
  markUnused p s.

Definition deleteMax (s : t) : option (N * Z * Z * t) :=
  r ← (if UseRandomTieBreaking then maxIndexRandomTieBreaking s
       else i ← maxIndex s; Some (i, s));
  let max_index := fst r in
  let s := snd r in
  ASSERT (max_index <? _num_enabled_pqs s);;
  max_part ← get_part s max_index;
  q ← get_queue s max_index;
  max_id ← Heap.top q;
  max_key ← Heap.topKey q;
  i ← get_index s (to_size_t max_part);
  p' ← get_part s i;
  ASSERT (p' =? max_part)%Z;;
  ASSERT (negb (max_index =? kInvalidIndex));;
  ASSERT (negb (max_key =? MetaKey_max)%Z);;
  ASSERT (negb (max_part =? kInvalidPart)%Z);;
  ASSERT (valid_part s max_part);;
  q ← Heap.pop q;
  s ← set_queue s max_index q;
  q ← get_queue s max_index;
  s ← (if Heap.empty q then retire max_part s else Some s);
  Some (max_id, max_key, max_part,
        with_num_entries s (size_t_dec (_num_entries s))).

Definition deleteMaxFromPartition (p : Z) (s : t) : option (N * Z * t) :=
  ASSERT (valid_part s p);;
  part_index ← get_index s (to_size_t p);
  ASSERT (part_index <? _num_enabled_pqs s);;
  q ← get_queue s part_index;
  max_id ← Heap.top q;
  max_key ← Heap.topKey q;
  i ← get_index s (to_size_t p);
  p' ← get_part s i;
  ASSERT (p' =? p)%Z;;
  ASSERT (negb (part_index =? kInvalidIndex));;
  ASSERT (negb (max_key =? MetaKey_max)%Z);;
  ASSERT (negb (p =? kInvalidPart)%Z);;
  q ← Heap.pop q;
  s ← set_queue s part_index q;
  q ← get_queue s part_index;
  s ← (if Heap.empty q then retire p s else Some s);
  Some (max_id, max_key, with_num_entries s (size_t_dec (_num_entries s))).

Definition key (id : N) (p : Z) (s : t) : option Z :=
  ASSERT (valid_part s p);;
  i ← get_index s (to_size_t p);
  ASSERT (i <? _num_nonempty_pqs s);;
  q ← get_queue s i;
  ASSERT (Heap.contains q id);;
  Heap.getKey q id.

Definition contains (id : N) (p : Z) (s : t) : option bool :=
  ASSERT (valid_part s p);;
  i ← get_index s (to_size_t p);
  if i <? _num_nonempty_pqs s
  then q ← get_queue s i; Some (Heap.contains q id)
  else Some false.

(** Should be used only for assertions *)
Definition contains_anywhere (id : N) (s : t) : option bool :=
  foldM (λ (found : bool) i,
           if found then Some true
           else q ← get_queue s i; Some (Heap.contains q id))
        false (indices (_num_nonempty_pqs s)).

Definition updateKey (id : N) (p : Z) (key : Z) (s : t) : option t :=
  ASSERT (valid_part s p);;
  i ← get_index s (to_size_t p);
  ASSERT (i <? _num_nonempty_pqs s);;
  q ← get_queue s i;
  q ← Heap.updateKey q id key;
  set_queue s i q.

Definition updateKeyBy (id : N) (p : Z) (key_delta : Z) (s : t) : option t :=
  ASSERT (valid_part s p);;
  i ← get_index s (to_size_t p);
  ASSERT (i <? _num_nonempty_pqs s);;
  q ← get_queue s i;
  q ← Heap.updateKeyBy q id key_delta;
  set_queue s i q.

Definition remove (id : N) (p : Z) (s : t) : option t :=
  ASSERT (valid_part s p);;
  i ← get_index s (to_size_t p);
  ASSERT (i <? _num_nonempty_pqs s);;
  q ← get_queue s i;
  ASSERT (Heap.contains q id);;
  q ← Heap.remove q id;
  s ← set_queue s i q;
  i ← get_index s (to_size_t p);
  q ← get_queue s i;
  s ← (if Heap.empty q then
         enabled ← isEnabled s p;
         s ← (if (enabled : bool) then
                let s := with_num_enabled_pqs s (size_t_dec (_num_enabled_pqs s)) in
                (* now points to the last enabled pq *)
                i ← get_index s (to_size_t p);
                swap i (_num_enabled_pqs s) s
              else Some s);
         i ← get_index s (to_size_t p);
         q ← get_queue s i;
         s ← set_queue s i (Heap.clear q);  (* eager clear *)
         let s := with_num_nonempty_pqs s (size_t_dec (_num_nonempty_pqs s)) in
         (* now points to the last non-empty disabled pq *)
         i ← get_index s (to_size_t p);
         s ← swap i (_num_nonempty_pqs s) s;
         markUnused p s
       else Some s);
  Some (with_num_entries s (size_t_dec (_num_entries s))).

Definition clear_body (s : t) (i : N) : option t :=
  s ← with_mapping s <$>
        Vec.set (_mapping s) i {| part := kInvalidPart; index := kInvalidIndex |};
  q ← get_queue s i;
  set_queue s i (Heap.clear q).

Definition clear (s : t) : option t :=
  s ← foldM clear_body s (indices (Vec.size (_queues s)));
  Some {| _queues := _queues s; _mapping := _mapping s; _ties := _ties s;
          _num_entries := 0; _num_nonempty_pqs := 0; _num_enabled_pqs := 0 |}.

Definition max (s : t) : option N :=
  i ← maxIndex s; q ← get_queue s i; Heap.top q.

Definition maxKey (s : t) : option Z :=
  i ← maxIndex s; q ← get_queue s i; Heap.topKey q.

End template_parameters.

(** *** Reading back after an assignment *)

Lemma bind_Some {A B} (m : option A) (f : A → option B) b :
  m ≫= f = Some b ↔ ∃ a, m = Some a ∧ f a = Some b.
Proof. destruct m; simpl; [|by split; [|intros (? & ? & ?)]]. split; [eauto|]. by intros (? & [= ->] & ?). Qed.

Lemma ASSERT_Some c : ASSERT c = Some () ↔ c = true.
Proof. by destruct c. Qed.

Lemma set_part_is_Some s i p :
  i < Vec.size (_mapping s) → is_Some (set_part s i p).
Proof.
  intros Hi. unfold set_part.
  destruct (Vec.get_lt_is_Some _ _ Hi) as [m ->]. simpl.
  destruct (Vec.set_lt_is_Some (_mapping s) i {| part := p; index := index m |} Hi) as [l ->].
  simpl; eauto.
Qed.

Lemma set_index_is_Some s i x :
  i < Vec.size (_mapping s) → is_Some (set_index s i x).
Proof.
  intros Hi. unfold set_index.
  destruct (Vec.get_lt_is_Some _ _ Hi) as [m ->]. simpl.
  destruct (Vec.set_lt_is_Some (_mapping s) i {| part := part m; index := x |} Hi) as [l ->].
  simpl; eauto.
Qed.

Lemma set_queue_is_Some s i q :
  i < Vec.size (_queues s) → is_Some (set_queue s i q).
Proof.
  intros Hi. unfold set_queue.
  destruct (Vec.set_lt_is_Some (_queues s) i q Hi) as [l ->]. simpl; eauto.
Qed.

(** what an assignment to one field of one element leaves alone *)
Record frame (s s' : t) : Prop := {
  frame_ties : _ties s' = _ties s;
  frame_entries : _num_entries s' = _num_entries s;
  frame_nonempty : _num_nonempty_pqs s' = _num_nonempty_pqs s;
  frame_enabled : _num_enabled_pqs s' = _num_enabled_pqs s;
  frame_mapping_size : Vec.size (_mapping s') = Vec.size (_mapping s);
  frame_queues_size : Vec.size (_queues s') = Vec.size (_queues s)
}.

Lemma frame_refl s : frame s s.
Proof. by split. Qed.

Lemma frame_trans s1 s2 s3 : frame s1 s2 → frame s2 s3 → frame s1 s3.
Proof. intros [] []. split; congruence. Qed.

Lemma set_part_spec s i p s' :
  set_part s i p = Some s' →
  frame s s' ∧
  (∀ j, get_part s' j = if decide (i = j) then Some p else get_part s j) ∧
  (∀ j, get_index s' j = get_index s j) ∧
  (∀ j, get_queue s' j = get_queue s j) ∧
  _queues s' = _queues s.
Proof.
  unfold set_part. intros (m & Hm & H)%bind_Some.
  destruct (Vec.set _ _ _) as [l|] eqn:Hl; [|done]. injection H as <-.
  split; [split; simpl; try done; eapply Vec.size_set; eauto|].
  unfold get_part, get_index, get_queue; simpl.
  repeat split; try done; intros j; rewrite (Vec.get_set _ _ _ j _ Hl);
    case_decide; subst; simpl; try done; by rewrite Hm.
Qed.

Lemma set_index_spec s i x s' :
  set_index s i x = Some s' →
  frame s s' ∧
  (∀ j, get_part s' j = get_part s j) ∧
  (∀ j, get_index s' j = if decide (i = j) then Some x else get_index s j) ∧
  (∀ j, get_queue s' j = get_queue s j) ∧
  _queues s' = _queues s.
Proof.
  unfold set_index. intros (m & Hm & H)%bind_Some.
  destruct (Vec.set _ _ _) as [l|] eqn:Hl; [|done]. injection H as <-.
  split; [split; simpl; try done; eapply Vec.size_set; eauto|].
  unfold get_part, get_index, get_queue; simpl.
  repeat split; try done; intros j; rewrite (Vec.get_set _ _ _ j _ Hl);
    case_decide; subst; simpl; try done; by rewrite Hm.
Qed.

Lemma set_queue_spec s i q s' :
  set_queue s i q = Some s' →
  frame s s' ∧
  (∀ j, get_part s' j = get_part s j) ∧
  (∀ j, get_index s' j = get_index s j) ∧
  (∀ j, get_queue s' j = if decide (i = j) then Some q else get_queue s j).
Proof.
  unfold set_queue. destruct (Vec.set _ _ _) as [l|] eqn:Hl; [|done].
  intros [= <-].
  split; [split; simpl; try done; eapply Vec.size_set; eauto|].
  unfold get_part, get_index, get_queue; simpl.
  repeat split; try done. intros j. by rewrite (Vec.get_set _ _ _ j _ Hl).
Qed.

Lemma get_part_lt s i p : get_part s i = Some p → i < Vec.size (_mapping s).
Proof.
  unfold get_part. destruct (Vec.get _ _) eqn:H; [|done]. intros _.
  by eapply Vec.get_Some_lt.
Qed.

Lemma get_index_lt s i x : get_index s i = Some x → i < Vec.size (_mapping s).
Proof.
  unfold get_index. destruct (Vec.get _ _) eqn:H; [|done]. intros _.
  by eapply Vec.get_Some_lt.
Qed.

Lemma get_queue_lt s i q : get_queue s i = Some q → i < Vec.size (_queues s).
Proof. apply Vec.get_Some_lt. Qed.

(** *** Representation invariant *)

Definition k_of (s : t) : N := Vec.size (_queues s).

(** the sum of the sizes of all sub-queues *)
Definition total_size (qs : list Heap.t) : N :=
  foldr (λ q n, Heap.size q + n) 0 qs.
Definition total (s : t) : N := total_size (_queues s).

(** [_mapping] links the positions below [n] with the parts stored there,
    in both directions; positions from [n] on hold no part. *)
Record linked (s : t) (n : N) : Prop := {
  linked_sizes : Vec.size (_mapping s) = k_of s + 1 ∧ k_of s < 2 ^ 31 - 1;
  linked_part : ∀ i, i < n →
    ∃ p, get_part s i = Some p ∧ (0 ≤ p < Z.of_N (k_of s))%Z ∧
         get_index s (Z.to_N p) = Some i;
  linked_free : ∀ i, n ≤ i → i ≤ k_of s → get_part s i = Some kInvalidPart;
  linked_index : ∀ p, (0 ≤ p < Z.of_N (k_of s))%Z →
    ∃ i, get_index s (Z.to_N p) = Some i ∧
         (i = kInvalidIndex ∨ (i < n ∧ get_part s i = Some p))
}.

Record wf (s : t) : Prop := {
  wf_linked : linked s (_num_nonempty_pqs s);
  wf_counters : _num_enabled_pqs s ≤ _num_nonempty_pqs s ∧ _num_nonempty_pqs s ≤ k_of s;
  wf_nonempty : ∀ i, i < _num_nonempty_pqs s → ∃ q, get_queue s i = Some q ∧ q ≠ [];
  wf_unused : ∀ i, _num_nonempty_pqs s ≤ i → i < k_of s → get_queue s i = Some [];
  wf_entries : _num_entries s = total s mod 2 ^ 64
}.

(** *** What a client observes of a part *)

(** the entries of the sub-queue of part [p] (none when the part is unused) *)
Definition subqueue (s : t) (p : Z) : Heap.t :=
  match get_index s (Z.to_N p) with
  | Some i => if i <? _num_nonempty_pqs s then default [] (get_queue s i) else []
  | None => []
  end.

(** is the sub-queue of part [p] among the enabled ones *)
Definition enabled (s : t) (p : Z) : bool :=
  match get_index s (Z.to_N p) with
  | Some i => i <? _num_enabled_pqs s
  | None => false
  end.

Lemma to_size_t_id p : (0 ≤ p < 2 ^ 64)%Z → to_size_t p = Z.to_N p.
Proof. intros H. unfold to_size_t. by rewrite Z.mod_small. Qed.

Lemma to_unsigned_id p : (0 ≤ p < 2 ^ 32)%Z → to_unsigned p = Z.to_N p.
Proof. intros H. unfold to_unsigned. by rewrite Z.mod_small. Qed.

Lemma total_size_set l i q q' l' :
  Vec.get l i = Some q → Vec.set l i q' = Some l' →
  total_size l' + Heap.size q = total_size l + Heap.size q'.
Proof.
  revert i l'; induction l as [|x l IH]; intros i l'; simpl; [done|].
  destruct (i =? 0).
  - intros [= ->] [= <-]. simpl. lia.
  - intros Hg. destruct (Vec.set l (N.pred i) q') as [r|] eqn:Hr; [|done].
    intros [= <-]. simpl. specialize (IH _ _ Hg Hr). lia.
Qed.

Lemma total_set_queue s i q q' s' :
  get_queue s i = Some q → set_queue s i q' = Some s' →
  total s' + Heap.size q = total s + Heap.size q'.
Proof.
  unfold get_queue, set_queue, total. intros Hq.
  destruct (Vec.set _ _ _) as [l|] eqn:Hl; [|done]. intros [= <-]. simpl.
  by eapply total_size_set.
Qed.

(** *** [swap] *)

Lemma swap_spec s n a b :
  linked s n → a < n → b < n → n ≤ k_of s →
  ∃ s' pa pb, swap a b s = Some s' ∧
    get_part s a = Some pa ∧ get_part s b = Some pb ∧
    frame s s' ∧ total s' = total s ∧
    (∀ i, get_part s' i =
       if decide (i = a) then Some pb else if decide (i = b) then Some pa
       else get_part s i) ∧
    (∀ j, get_index s' j =
       if decide (j = Z.to_N pa) then Some b else if decide (j = Z.to_N pb) then Some a
       else get_index s j) ∧
    (∀ i, get_queue s' i =
       if decide (i = a) then get_queue s b else if decide (i = b) then get_queue s a
       else get_queue s i).
Proof.
  intros Hl Ha Hb Hn.
  destruct (linked_sizes _ _ Hl) as [Hsz Hk].
  destruct (linked_part _ _ Hl a Ha) as (pa & Hpa & Hpar & Hia).
  destruct (linked_part _ _ Hl b Hb) as (pb & Hpb & Hpbr & Hib).
  unfold k_of in *.
  destruct (Vec.get_lt_is_Some (_queues s) a ltac:(lia)) as [qa Hqa].
  destruct (Vec.get_lt_is_Some (_queues s) b ltac:(lia)) as [qb Hqb].
  assert (Hta : to_size_t pa = Z.to_N pa) by (apply to_size_t_id; lia).
  assert (Htb : to_size_t pb = Z.to_N pb) by (apply to_size_t_id; lia).
  assert (Hab : a = b ↔ pa = pb).
  { split; [intros ->|intros ->]; congruence. }
  assert (Hab' : Z.to_N pa = Z.to_N pb ↔ pa = pb) by lia.
  cut (∃ s', swap a b s = Some s' ∧ frame s s' ∧ total s' = total s ∧
    (∀ i, get_part s' i =
       if decide (i = a) then Some pb else if decide (i = b) then Some pa
       else get_part s i) ∧
    (∀ j, get_index s' j =
       if decide (j = Z.to_N pa) then Some b else if decide (j = Z.to_N pb) then Some a
       else get_index s j) ∧
    (∀ i, get_queue s' i =
       if decide (i = a) then get_queue s b else if decide (i = b) then get_queue s a
       else get_queue s i)).
  { intros (s' & ? & ? & ? & ? & ? & ?). by exists s', pa, pb. }
  unfold swap. unfold get_queue at 1 2. rewrite Hqa, Hqb. simpl.
  destruct (set_queue_is_Some s a qb ltac:(lia)) as [s1 E1]. rewrite E1; simpl.
  pose proof (T1 := total_set_queue _ _ _ _ _ Hqa E1).
  apply set_queue_spec in E1 as (F1 & P1 & I1 & Q1).
  assert (Hqa1 : get_queue s1 b = Some (if decide (a = b) then qb else qb)).
  { rewrite Q1. by repeat case_decide. }
  destruct (set_queue_is_Some s1 b qa) as [s2 E2].
  { rewrite (frame_queues_size _ _ F1). lia. }
  rewrite E2; simpl.
  pose proof (T2 := total_set_queue _ _ _ _ _ Hqa1 E2).
  apply set_queue_spec in E2 as (F2 & P2 & I2 & Q2).
  rewrite !P2, !P1, Hpa, Hpb. simpl.
  destruct (set_part_is_Some s2 a pb) as [s3 E3].
  { rewrite (frame_mapping_size _ _ F2), (frame_mapping_size _ _ F1). lia. }
  rewrite E3; simpl. apply set_part_spec in E3 as (F3 & P3 & I3 & Q3 & U3).
  destruct (set_part_is_Some s3 b pa) as [s4 E4].
  { rewrite (frame_mapping_size _ _ F3), (frame_mapping_size _ _ F2),
      (frame_mapping_size _ _ F1). lia. }
  rewrite E4; simpl. apply set_part_spec in E4 as (F4 & P4 & I4 & Q4 & U4).
  assert (Hp4a : get_part s4 a = Some pb).
  { rewrite P4, P3. repeat case_decide; try done. f_equal; tauto. }
  assert (Hp4b : get_part s4 b = Some pa).
  { rewrite P4. by rewrite decide_True. }
  rewrite Hp4a, Hp4b. simpl. rewrite Hta, Htb.
  rewrite !I4, !I3, !I2, !I1, Hia, Hib. simpl.
  destruct (set_index_is_Some s4 (Z.to_N pb) a) as [s5 E5].
  { rewrite (frame_mapping_size _ _ F4), (frame_mapping_size _ _ F3),
      (frame_mapping_size _ _ F2), (frame_mapping_size _ _ F1). lia. }
  rewrite E5; simpl. apply set_index_spec in E5 as (F5 & P5 & I5 & Q5 & U5).
  destruct (set_index_is_Some s5 (Z.to_N pa) b) as [s6 E6].
  { rewrite (frame_mapping_size _ _ F5), (frame_mapping_size _ _ F4),
      (frame_mapping_size _ _ F3),
      (frame_mapping_size _ _ F2), (frame_mapping_size _ _ F1). lia. }
  rewrite E6; simpl. apply set_index_spec in E6 as (F6 & P6 & I6 & Q6 & U6).
  rewrite !P6, !P5, Hp4a, Hp4b. simpl. rewrite Hta, Htb.
  assert (Hi6a : get_index s6 (Z.to_N pb) = Some a).
  { rewrite I6, I5. repeat case_decide; try done; f_equal; lia. }
  assert (Hi6b : get_index s6 (Z.to_N pa) = Some b).
  { rewrite I6. by rewrite decide_True. }
  rewrite Hi6a, Hi6b. simpl. rewrite !N.eqb_refl. simpl.
  exists s6. split; [done|].
  split; [by repeat (eapply frame_trans; [|eassumption])|].
  split.
  { unfold total in *. rewrite U6, U5, U4, U3. destruct (decide (a = b)); lia. }
  split; [|split].
  - intros i. rewrite P6, P5, P4, P3, P2, P1.
    repeat case_decide; subst; try done; f_equal; tauto.
  - intros j. rewrite I6, I5, I4, I3, I2, I1.
    repeat case_decide; subst; try done; f_equal; lia.
  - intros i. rewrite Q6, Q5, Q4, Q3, Q2, Q1. unfold get_queue at 1 2.
    repeat case_decide; subst; try done; congruence.
Qed.



Lemma linked_swap s s' n a b pa pb :
  linked s n → a < n → b < n →
  get_part s a = Some pa → get_part s b = Some pb →
  frame s s' →
  (∀ i, get_part s' i =
     if decide (i = a) then Some pb else if decide (i = b) then Some pa
     else get_part s i) →
  (∀ j, get_index s' j =
     if decide (j = Z.to_N pa) then Some b else if decide (j = Z.to_N pb) then Some a
     else get_index s j) →
  linked s' n.
Proof.
  intros Hl Ha Hb Hpa Hpb F P I.
  destruct (linked_sizes _ _ Hl) as [Hsz Hk].
  destruct (linked_part _ _ Hl a Ha) as (pa' & Hpa' & Hpar & Hia).
  destruct (linked_part _ _ Hl b Hb) as (pb' & Hpb' & Hpbr & Hib).
  assert (pa' = pa) as -> by congruence. assert (pb' = pb) as -> by congruence.
  assert (Hk' : k_of s' = k_of s) by apply (frame_queues_size _ _ F).
  split.
  - rewrite Hk', (frame_mapping_size _ _ F). done.
  - intros i Hi. rewrite Hk', P.
    destruct (linked_part _ _ Hl i Hi) as (p & Hp & Hpr & Hip).
    destruct (decide (i = a)) as [->|Hna]; [|destruct (decide (i = b)) as [->|Hnb]].
    + exists pb. split; [done|]. split; [lia|]. rewrite I.
      repeat case_decide; try done. f_equal. congruence.
    + exists pa. split; [done|]. split; [lia|]. rewrite I. by rewrite decide_True.
    + exists p. split; [done|]. split; [lia|]. rewrite I.
      rewrite !decide_False; [done| |]; intros Heq;
        assert (p = pa ∨ p = pb) as [->| ->] by lia; congruence.
  - intros i Hi1 Hi2. rewrite P, !decide_False by lia.
    apply (linked_free _ _ Hl); [done|]. by rewrite <- Hk'.
  - intros p Hp. rewrite Hk' in Hp.
    destruct (linked_index _ _ Hl p Hp) as (i & Hi & Hor).
    rewrite I.
    destruct (decide (Z.to_N p = Z.to_N pa)) as [E|Hna];
      [|destruct (decide (Z.to_N p = Z.to_N pb)) as [E|Hnb]].
    + assert (p = pa) as -> by lia. exists b. split; [done|]. right. split; [done|].
      rewrite P. repeat case_decide; try done. f_equal. congruence.
    + assert (p = pb) as -> by lia. exists a. split; [done|]. right. split; [done|].
      rewrite P. by rewrite decide_True.
    + exists i. split; [done|]. destruct Hor as [->|[Hlt Hpi]]; [by left|right].
      split; [done|]. rewrite P.
      rewrite !decide_False; [done| |]; intros ->; congruence.
Qed.

(** *** The operations on well-formed queues *)

Definition is_part (s : t) (p : Z) : Prop := (0 ≤ p < Z.of_N (k_of s))%Z.

Lemma valid_part_true s p :
  is_part s p → k_of s < 2 ^ 31 - 1 → valid_part s p = true.
Proof.
  unfold is_part, valid_part, k_of. intros Hp Hk.
  rewrite to_unsigned_id by lia. apply N.ltb_lt. lia.
Qed.

Lemma valid_part_inv s p :
  (- 2 ^ 31 ≤ p < 2 ^ 31)%Z → k_of s < 2 ^ 31 - 1 →
  valid_part s p = true → is_part s p.
Proof.
  unfold is_part, valid_part, k_of, to_unsigned. intros Hp Hk H%N.ltb_lt.
  destruct (Z.neg_nonneg_cases p) as [Hneg|Hpos].
  - rewrite <- (Z.mod_add p 1) in H by lia. rewrite Z.mod_small in H by lia. lia.
  - rewrite Z.mod_small in H by lia. lia.
Qed.

Lemma linked_ext s s' n :
  _mapping s' = _mapping s → _queues s' = _queues s → linked s n → linked s' n.
Proof.
  intros Hm Hq [H1 H2 H3 H4].
  unfold k_of, get_part, get_index in *.
  split; unfold k_of, get_part, get_index; rewrite ?Hm, ?Hq; done.
Qed.

Lemma size_t_inc_small n : n < 2 ^ 64 - 1 → size_t_inc n = n + 1.
Proof. intros. unfold size_t_inc. apply N.mod_small. lia. Qed.

Lemma size_t_dec_pos n : 0 < n → n < 2 ^ 64 → size_t_dec n = n - 1.
Proof.
  intros. unfold size_t_dec.
  replace (n + (2 ^ 64 - 1)) with (n - 1 + 1 * 2 ^ 64) by lia.
  rewrite N.Div0.mod_add. apply N.mod_small. lia.
Qed.

Lemma wf_k s : wf s → k_of s < 2 ^ 31 - 1.
Proof. intros H. apply (linked_sizes _ _ (wf_linked _ H)). Qed.

(** the position of a part and what the invariant says about it *)
Lemma wf_position s p :
  wf s → is_part s p →
  ∃ i, get_index s (Z.to_N p) = Some i ∧ to_size_t p = Z.to_N p ∧
       ((i = kInvalidIndex ∧ subqueue s p = [] ∧ enabled s p = false) ∨
        (i < _num_nonempty_pqs s ∧ get_part s i = Some p ∧
         ∃ q, get_queue s i = Some q ∧ q ≠ [] ∧ subqueue s p = q ∧
              enabled s p = (i <? _num_enabled_pqs s))).
Proof.
  intros Hwf Hp. pose proof (wf_k _ Hwf) as Hk.
  destruct (wf_counters _ Hwf) as [Hc1 Hc2].
  destruct (linked_index _ _ (wf_linked _ Hwf) p Hp) as (i & Hi & Hor).
  exists i. split; [done|]. split; [apply to_size_t_id; unfold is_part in Hp; lia|].
  unfold subqueue, enabled. rewrite Hi.
  destruct Hor as [->|[Hlt Hpi]].
  - left. split; [done|]. unfold kInvalidIndex.
    split.
    + destruct (N.ltb_spec (2 ^ 64 - 1) (_num_nonempty_pqs s)); [lia|done].
    + apply N.ltb_ge. lia.
  - right. split; [done|]. split; [done|].
    destruct (wf_nonempty _ Hwf i Hlt) as (q & Hq & Hne).
    exists q. rewrite Hq. simpl. apply N.ltb_lt in Hlt as ->. done.
Qed.

Lemma isUnused_spec s p :
  wf s → is_part s p →
  ∃ i, get_index s (Z.to_N p) = Some i ∧ isUnused s p = Some (i =? kInvalidIndex).
Proof.
  intros Hwf Hp. pose proof (wf_k _ Hwf) as Hk.
  destruct (wf_position s p Hwf Hp) as (i & Hi & Ht & Hor).
  exists i. split; [done|]. unfold isUnused. rewrite Ht, Hi. simpl.
  destruct Hor as [(-> & _)|(Hlt & Hpi & _)]; [done|].
  destruct (N.eqb_spec i kInvalidIndex) as [->|_]; [done|]. simpl.
  rewrite Hpi. simpl. unfold is_part, kInvalidPart in *.
  destruct (Z.eqb_spec p (2 ^ 31 - 1)); [lia|done].
Qed.

Lemma isEnabled_spec s p :
  wf s → is_part s p → isEnabled s p = Some (enabled s p).
Proof.
  intros Hwf Hp. pose proof (wf_k _ Hwf) as Hk.
  destruct (wf_position s p Hwf Hp) as (i & Hi & Ht & Hor).
  unfold isEnabled, enabled. rewrite valid_part_true, Ht, Hi by done. done.
Qed.


Lemma bind_ret {A B} (a : A) (f : A → option B) : Some a ≫= f = f a.
Proof. done. Qed.

Definition content (s : t) (p : Z) : option Heap.t :=
  i ← get_index s (Z.to_N p); get_queue s i.

Lemma subqueue_content s p :
  subqueue s p =
  match get_index s (Z.to_N p) with
  | Some i => if i <? _num_nonempty_pqs s then default [] (content s p) else []
  | None => []
  end.
Proof. unfold subqueue, content. by destruct (get_index s (Z.to_N p)). Qed.

Lemma swap_parts s n a b :
  linked s n → a < n → b < n → n ≤ k_of s →
  ∃ s' pa pb, swap a b s = Some s' ∧
    get_part s a = Some pa ∧ get_part s b = Some pb ∧
    is_part s pa ∧ is_part s pb ∧
    frame s s' ∧ total s' = total s ∧ linked s' n ∧
    (∀ q, is_part s q →
       get_index s' (Z.to_N q) =
       if decide (q = pa) then Some b else if decide (q = pb) then Some a
       else get_index s (Z.to_N q)) ∧
    (∀ q, is_part s q → content s' q = content s q) ∧
    (∀ i, get_queue s' i =
       if decide (i = a) then get_queue s b else if decide (i = b) then get_queue s a
       else get_queue s i).
Proof.
  intros Hl Ha Hb Hn.
  destruct (swap_spec s n a b Hl Ha Hb Hn)
    as (s' & pa & pb & Hsw & Hpa & Hpb & F & T & P & I & Q).
  destruct (linked_part _ _ Hl a Ha) as (pa' & Hpa' & Hpar & Hia).
  destruct (linked_part _ _ Hl b Hb) as (pb' & Hpb' & Hpbr & Hib).
  assert (pa' = pa) as -> by congruence. assert (pb' = pb) as -> by congruence.
  assert (Hpos : ∀ q, is_part s q →
       get_index s' (Z.to_N q) =
       if decide (q = pa) then Some b else if decide (q = pb) then Some a
       else get_index s (Z.to_N q)).
  { intros q Hq. rewrite I. unfold is_part in *.
    repeat case_decide; try done; lia. }
  exists s', pa, pb. split_and!; try done.
  - by apply (linked_swap s s' n a b pa pb).
  - intros q Hq. unfold content. rewrite (Hpos q Hq).
    destruct (linked_index _ _ Hl q Hq) as (j & Hj & Hor).
    destruct (decide (q = pa)) as [->|Hna]; [|destruct (decide (q = pb)) as [->|Hnb]];
      rewrite ?Hia, ?Hib, ?Hj, !bind_ret, Q.
    + repeat case_decide; subst; done.
    + repeat case_decide; subst; done.
    + 
      destruct (linked_sizes _ _ Hl) as [_ Hk]. unfold kInvalidIndex in Hor.
      rewrite !decide_False; [done| |]; intros ->;
        (destruct Hor as [?|[_ Hpj]]; [lia|congruence]).
Qed.

(** the views of a state built from [s1] after a series of swaps *)
Lemma enabled_unfold s p :
  enabled s p = match get_index s (Z.to_N p) with
                | Some i => i <? _num_enabled_pqs s
                | None => false
                end.
Proof. done. Qed.

Lemma enablePart_spec s p :
  wf s → is_part s p →
  ∃ s', enablePart p s = Some s' ∧ wf s' ∧ frame (with_num_enabled_pqs s (_num_enabled_pqs s')) s' ∧
    (∀ q, is_part s q → subqueue s' q = subqueue s q) ∧
    (∀ q, is_part s q →
       enabled s' q = if decide (q = p) then negb (Heap.empty (subqueue s p))
                      else enabled s q).
Proof.
  intros Hwf Hp. pose proof (wf_k _ Hwf) as Hk.
  destruct (wf_counters _ Hwf) as [Hc1 Hc2].
  destruct (isUnused_spec s p Hwf Hp) as (i & Hi & Hu).
  pose proof (isEnabled_spec s p Hwf Hp) as He.
  destruct (wf_position s p Hwf Hp) as (i' & Hi' & Ht & Hor).
  assert (i' = i) as -> by congruence.
  unfold enablePart. rewrite valid_part_true, Hu by done. simpl.
  destruct Hor as [(-> & Hsub & Hen)|(Hlt & Hpi & h & Hq & Hne & Hsub & Hen)].
  { simpl. exists s. split; [done|]. split; [done|]. split; [by destruct s|].
    split; [done|]. intros q Hq. case_decide; [subst q|done]. by rewrite Hsub, Hen. }
  destruct (N.eqb_spec i kInvalidIndex) as [->|_].
  { unfold kInvalidIndex in Hlt. lia. }
  rewrite He. simpl.
  destruct (enabled s p) eqn:Henp.
  { exists s. split; [done|]. split; [done|]. split; [by destruct s|].
    split; [done|]. intros q Hq'. case_decide; [subst q|done].
    rewrite Henp, Hsub. by destruct h. }
  symmetry in Hen. apply N.ltb_ge in Hen.
  rewrite Ht, Hi. simpl.
  destruct (swap_parts s (_num_nonempty_pqs s) i (_num_enabled_pqs s))
    as (s1 & pa & pb & Hsw & Hpa & Hpb & Hpar & Hpbr & F & T & L & I & C & Q);
    [apply Hwf|lia|lia|lia|].
  assert (pa = p) as -> by congruence.
  rewrite Hsw. simpl.
  rewrite (frame_enabled _ _ F), (frame_nonempty _ _ F).
  rewrite size_t_inc_small by lia.
  destruct (N.leb_spec (_num_enabled_pqs s + 1) (_num_nonempty_pqs s)) as [_|]; [|lia].
  simpl. eexists. split; [done|].
  assert (Hib : get_index s (Z.to_N pb) = Some (_num_enabled_pqs s)).
  { destruct (linked_part _ _ (wf_linked _ Hwf) (_num_enabled_pqs s)) as (? & ? & ? & ?);
      [lia|congruence]. }
  split; [|split; [|split]].
  - split; simpl; rewrite ?(frame_nonempty _ _ F), ?(frame_entries _ _ F).
    + eapply linked_ext; [..|exact L]; done.
    + unfold k_of in *. simpl. rewrite (frame_queues_size _ _ F). lia.
    + intros j Hj. change (get_queue (with_num_enabled_pqs s1 _) j) with (get_queue s1 j).
      rewrite Q. repeat case_decide; apply (wf_nonempty _ Hwf); lia.
    + intros j Hj1 Hj2. change (get_queue (with_num_enabled_pqs s1 _) j) with (get_queue s1 j).
      unfold k_of in Hj2; simpl in Hj2. rewrite (frame_queues_size _ _ F) in Hj2.
      rewrite Q, !decide_False by lia. by apply (wf_unused _ Hwf).
    + unfold total in *; simpl. rewrite T. apply (wf_entries _ Hwf).
  - destruct F. by split.
  - intros q Hq'. rewrite !subqueue_content. simpl.
    change (content (with_num_enabled_pqs s1 _) q) with (content s1 q).
    change (get_index (with_num_enabled_pqs s1 _) (Z.to_N q)) with (get_index s1 (Z.to_N q)).
    rewrite C, I, (frame_nonempty _ _ F) by done.
    repeat case_decide; subst; rewrite ?Hi, ?Hib; try done.
    + destruct (N.ltb_spec (_num_enabled_pqs s) (_num_nonempty_pqs s)),
        (N.ltb_spec i (_num_nonempty_pqs s)); try done; lia.
    + destruct (N.ltb_spec (_num_enabled_pqs s) (_num_nonempty_pqs s)),
        (N.ltb_spec i (_num_nonempty_pqs s)); try done; lia.
  - intros q Hq'. rewrite !enabled_unfold. simpl.
    change (get_index (with_num_enabled_pqs s1 _) (Z.to_N q)) with (get_index s1 (Z.to_N q)).
    rewrite I by done.
    destruct (decide (q = p)) as [->|Hnp].
    + rewrite Hsub. destruct h; [done|]. simpl. apply N.ltb_lt. lia.
    + destruct (decide (q = pb)) as [->|Hnb].
      * rewrite Hib. assert (i ≠ _num_enabled_pqs s) by congruence.
        destruct (N.ltb_spec i (_num_enabled_pqs s + 1)),
          (N.ltb_spec (_num_enabled_pqs s) (_num_enabled_pqs s)); try done; lia.
      * destruct (get_index s (Z.to_N q)) as [j|] eqn:Hj; [|done].
        assert (j ≠ _num_enabled_pqs s).
        { intros ->. destruct (linked_index _ _ (wf_linked _ Hwf) q Hq') as (j' & Hj' & Hor).
          rewrite Hj in Hj'. injection Hj' as <-. unfold kInvalidIndex in Hor.
          destruct Hor as [?|[_ ?]]; [lia|congruence]. }
        destruct (N.ltb_spec j (_num_enabled_pqs s + 1)),
          (N.ltb_spec j (_num_enabled_pqs s)); try done; lia.
Qed.

(** a position below [n] holds the part whose index it is *)
Lemma linked_position s n q j :
  linked s n → n ≤ k_of s → is_part s q →
  get_index s (Z.to_N q) = Some j → j < n → get_part s j = Some q.
Proof.
  intros Hl Hn Hq Hj Hlt.
  destruct (linked_index _ _ Hl q Hq) as (j' & Hj' & Hor).
  assert (j' = j) as -> by congruence.
  destruct (linked_sizes _ _ Hl) as [_ Hk]. unfold kInvalidIndex in Hor.
  destruct Hor as [?|[_ ?]]; [lia|done].
Qed.

Lemma linked_part_index s n i p :
  linked s n → i < n → get_part s i = Some p →
  is_part s p ∧ get_index s (Z.to_N p) = Some i.
Proof.
  intros Hl Hi Hp. destruct (linked_part _ _ Hl i Hi) as (p' & Hp' & Hr & Hidx).
  assert (p' = p) as -> by congruence. done.
Qed.

Lemma disablePart_spec s p :
  wf s → is_part s p →
  ∃ s', disablePart p s = Some s' ∧ wf s' ∧
    frame (with_num_enabled_pqs s (_num_enabled_pqs s')) s' ∧
    (∀ q, is_part s q → subqueue s' q = subqueue s q) ∧
    (∀ q, is_part s q →
       enabled s' q = if decide (q = p) then false else enabled s q).
Proof.
  intros Hwf Hp. pose proof (wf_k _ Hwf) as Hk.
  destruct (wf_counters _ Hwf) as [Hc1 Hc2].
  pose proof (isEnabled_spec s p Hwf Hp) as He.
  destruct (wf_position s p Hwf Hp) as (i & Hi & Ht & Hor).
  unfold disablePart. rewrite valid_part_true, He by done. rewrite !bind_ret.
  destruct (enabled s p) eqn:Henp; last first.
  { exists s. split; [done|]. split; [done|]. split; [by destruct s|].
    split; [done|]. intros q Hq'. case_decide; [by subst q|done]. }
  destruct Hor as [(_ & _ & ?)|(Hlt & Hpi & h & Hq & Hne & Hsub & Hen)]; [done|].
  symmetry in Hen. apply N.ltb_lt in Hen.
  set (E := size_t_dec (_num_enabled_pqs s)).
  assert (HE : E = _num_enabled_pqs s - 1) by (apply size_t_dec_pos; lia).
  set (s0 := with_num_enabled_pqs s E).
  change (get_index s0 (to_size_t p)) with (get_index s (to_size_t p)).
  rewrite Ht, Hi, bind_ret. change (_num_enabled_pqs s0) with E.
  destruct (swap_parts s0 (_num_nonempty_pqs s) i E)
    as (s1 & pa & pb & Hsw & Hpa & Hpb & Hpar & Hpbr & F & T & L & I & C & Q);
    [by eapply linked_ext; [..|apply Hwf]|lia|lia|done|].
  change (get_part s0 i) with (get_part s i) in Hpa.
  change (get_part s0 E) with (get_part s E) in Hpb.
  assert (pa = p) as -> by congruence.
  rewrite Hsw. eexists. split; [done|].
  destruct (linked_part_index s _ E pb (wf_linked _ Hwf) ltac:(lia) Hpb) as [_ Hib].
  split; [|split; [|split]].
  - split; rewrite ?(frame_nonempty _ _ F), ?(frame_entries _ _ F), ?(frame_enabled _ _ F);
      simpl.
    + done.
    + unfold k_of in *. rewrite (frame_queues_size _ _ F). simpl. lia.
    + intros j Hj. rewrite Q. change (get_queue s0) with (get_queue s).
      repeat case_decide; apply (wf_nonempty _ Hwf); lia.
    + intros j Hj1 Hj2. unfold k_of in Hj2. rewrite (frame_queues_size _ _ F) in Hj2.
      rewrite Q, !decide_False by lia. by apply (wf_unused _ Hwf).
    + rewrite T. apply (wf_entries _ Hwf).
  - rewrite (frame_enabled _ _ F). done.
  - intros q Hq'. rewrite !subqueue_content.
    rewrite C, I, (frame_nonempty _ _ F) by done.
    change (content s0 q) with (content s q).
    change (get_index s0 (Z.to_N q)) with (get_index s (Z.to_N q)).
    change (_num_nonempty_pqs s0) with (_num_nonempty_pqs s).
    repeat case_decide; subst; rewrite ?Hi, ?Hib; try done.
    + destruct (N.ltb_spec E (_num_nonempty_pqs s)),
        (N.ltb_spec i (_num_nonempty_pqs s)); try done; lia.
    + destruct (N.ltb_spec E (_num_nonempty_pqs s)),
        (N.ltb_spec i (_num_nonempty_pqs s)); try done; lia.
  - intros q Hq'. rewrite !enabled_unfold.
    rewrite I, (frame_enabled _ _ F) by done.
    change (get_index s0 (Z.to_N q)) with (get_index s (Z.to_N q)).
    change (_num_enabled_pqs s0) with E.
    destruct (decide (q = p)) as [->|Hnp].
    + apply N.ltb_ge. lia.
    + destruct (decide (q = pb)) as [->|Hnb].
      * rewrite Hib. assert (i ≠ E) by congruence.
        destruct (N.ltb_spec i E),
          (N.ltb_spec E (_num_enabled_pqs s)); try done; lia.
      * destruct (get_index s (Z.to_N q)) as [j|] eqn:Hj; [|done].
        assert (j ≠ E).
        { intros ->. pose proof (linked_position s _ q E (wf_linked _ Hwf) Hc2 Hq' Hj).
          assert (get_part s E = Some q) by (apply H; lia). congruence. }
        destruct (N.ltb_spec j E),
          (N.ltb_spec j (_num_enabled_pqs s)); try done; lia.
Qed.

Lemma elem_of_indices n i : i ∈ indices n ↔ i < n.
Proof.
  unfold indices. rewrite list_elem_of_fmap. split.
  - intros (j & -> & Hj%elem_of_seq). lia.
  - intros Hi. exists (N.to_nat i). split; [lia|]. apply elem_of_seq. lia.
Qed.

Lemma NoDup_indices n : NoDup (indices n).
Proof. unfold indices. apply NoDup_fmap_2; [apply _|apply NoDup_seq]. Qed.

Lemma length_indices n : length (indices n) = N.to_nat n.
Proof. unfold indices. by rewrite length_fmap, length_seq. Qed.

(** a part without a position leaves a position without a part *)
Lemma linked_room s n p :
  linked s n → n ≤ k_of s → is_part s p →
  get_index s (Z.to_N p) = Some kInvalidIndex → n < k_of s.
Proof.
  intros Hl Hn Hp Hi.
  destruct (linked_sizes _ _ Hl) as [_ Hk].
  set (L := (λ i, default 0%Z (get_part s i)) <$> indices n).
  assert (HL : ∀ x, x ∈ L ↔ ∃ i, i < n ∧ get_part s i = Some x).
  { intros x. unfold L. rewrite list_elem_of_fmap. split.
    - intros (i & -> & Hi'%elem_of_indices). exists i. split; [done|].
      destruct (linked_part _ _ Hl i Hi') as (q & -> & _). done.
    - intros (i & Hi' & Hx). exists i. rewrite Hx. split; [done|].
      by apply elem_of_indices. }
  assert (NoDup (p :: L)) as Hnd.
  { apply NoDup_cons_2.
    - intros (i & Hi' & Hx)%HL.
      destruct (linked_part_index s n i p Hl Hi' Hx) as [_ Hidx].
      rewrite Hidx in Hi. injection Hi as ->. unfold kInvalidIndex in Hi'. lia.
    - unfold L. apply NoDup_fmap_2_strong; [|apply NoDup_indices].
      intros i j Hi'%elem_of_indices Hj%elem_of_indices Heq.
      destruct (linked_part _ _ Hl i Hi') as (q & Hq & _ & Hqi).
      destruct (linked_part _ _ Hl j Hj) as (q' & Hq' & _ & Hqj).
      rewrite Hq, Hq' in Heq. simpl in Heq. subst q'. congruence. }
  assert (p :: L ⊆+ seqZ 0 (Z.of_N (k_of s))) as Hsub.
  { apply NoDup_submseteq; [done|]. intros x [->|Hx]%elem_of_cons.
    - apply elem_of_seqZ. unfold is_part in Hp. lia.
    - apply HL in Hx as (i & Hi' & Hx).
      destruct (linked_part_index s n i x Hl Hi' Hx) as [Hr _].
      apply elem_of_seqZ. unfold is_part in Hr. lia. }
  apply submseteq_length in Hsub.
  unfold L in Hsub. simpl in Hsub.
  rewrite length_fmap, length_indices, length_seqZ in Hsub. lia.
Qed.

Lemma bind_ASSERT {B} (f : () → option B) : ASSERT true ≫= f = f ().
Proof. done. Qed.

Lemma size_t_inc_mod n : size_t_inc (n mod 2 ^ 64) = (n + 1) mod 2 ^ 64.
Proof. unfold size_t_inc. by rewrite N.Div0.add_mod_idemp_l. Qed.

Lemma size_t_dec_mod n : 0 < n → size_t_dec (n mod 2 ^ 64) = (n - 1) mod 2 ^ 64.
Proof.
  intros Hn. unfold size_t_dec. rewrite N.Div0.add_mod_idemp_l.
  replace (n + (2 ^ 64 - 1)) with (n - 1 + 1 * 2 ^ 64) by lia.
  by rewrite N.Div0.mod_add.
Qed.

(** the sub-queue at a used position is replaced by a non-empty one *)
Lemma replace_queue s s' p i h h' :
  wf s → is_part s p → get_index s (Z.to_N p) = Some i →
  i < _num_nonempty_pqs s → get_queue s i = Some h → h' ≠ [] →
  (∀ j, get_part s' j = get_part s j) →
  (∀ j, get_index s' j = get_index s j) →
  (∀ j, get_queue s' j = if decide (i = j) then Some h' else get_queue s j) →
  Vec.size (_mapping s') = Vec.size (_mapping s) → k_of s' = k_of s →
  _num_nonempty_pqs s' = _num_nonempty_pqs s →
  _num_enabled_pqs s' = _num_enabled_pqs s →
  _num_entries s' = total s' mod 2 ^ 64 →
  wf s' ∧
  (∀ q, is_part s q → subqueue s' q = if decide (q = p) then h' else subqueue s q) ∧
  (∀ q, is_part s q → enabled s' q = enabled s q).
Proof.
  intros Hwf Hp Hi Hlt Hq Hne PP II QQ Hm Hk Hn He Hent.
  destruct (wf_counters _ Hwf) as [Hc1 Hc2].
  split_and!.
  - split; rewrite ?Hn, ?He, ?Hk; try done.
    + destruct (wf_linked _ Hwf) as [L1 L2 L3 L4].
      split; rewrite ?Hk, ?Hm; try done.
      * intros j Hj. rewrite PP. destruct (L2 j Hj) as (q & ? & ? & ?).
        exists q. by rewrite II.
      * intros j Hj1 Hj2. rewrite PP. by apply L3.
      * intros q Hq'. destruct (L4 q Hq') as (j & ? & ?). exists j. by rewrite II, PP.
    + intros j Hj. rewrite QQ. case_decide; [by eexists|]. by apply (wf_nonempty _ Hwf).
    + intros j Hj1 Hj2. rewrite QQ, decide_False by lia. by apply (wf_unused _ Hwf).
  - intros q Hq'. unfold subqueue. rewrite II, Hn.
    destruct (decide (q = p)) as [->|Hnp].
    + rewrite Hi. apply N.ltb_lt in Hlt as ->. rewrite QQ, decide_True by done. done.
    + destruct (get_index s (Z.to_N q)) as [j|] eqn:Hj; [|done].
      destruct (N.ltb_spec j (_num_nonempty_pqs s)); [|done].
      rewrite QQ, decide_False; [done|]. intros <-.
      pose proof (linked_position s _ q i (wf_linked _ Hwf) Hc2 Hq' Hj Hlt).
      pose proof (linked_position s _ p i (wf_linked _ Hwf) Hc2 Hp Hi Hlt).
      congruence.
  - intros q Hq'. unfold enabled. by rewrite II, He.
Qed.

Lemma insert_spec s id p key :
  wf s → is_part s p → Heap.contains (subqueue s p) id = false →
  ∃ s', insert id p key s = Some s' ∧ wf s' ∧ k_of s' = k_of s ∧
    _num_enabled_pqs s' = _num_enabled_pqs s ∧
    total s' = total s + 1 ∧
    (∀ q, is_part s q →
       subqueue s' q = if decide (q = p) then (id, key) :: subqueue s p
                       else subqueue s q) ∧
    (∀ q, is_part s q → enabled s' q = enabled s q).
Proof.
  intros Hwf Hp Hc. pose proof (wf_k _ Hwf) as Hk.
  destruct (wf_counters _ Hwf) as [Hc1 Hc2].
  destruct (linked_sizes _ _ (wf_linked _ Hwf)) as [Hsz _].
  destruct (wf_position s p Hwf Hp) as (i & Hi & Ht & Hor).
  pose proof (linked_free _ _ (wf_linked _ Hwf) (_num_nonempty_pqs s)
                ltac:(lia) Hc2) as Hsent.
  unfold insert. rewrite valid_part_true, Ht, Hi, Hsent by done.
  rewrite bind_ASSERT, !bind_ret.
  assert (Hp64 : Z.to_N p < Vec.size (_mapping s)) by (unfold is_part in Hp; lia).
  destruct Hor as [(-> & Hsub & Hen)|(Hlt & Hpi & h & Hq & Hne & Hsub & Hen)].
  - (* the part was unused: it takes the first free position *)
    pose proof (linked_room s _ p (wf_linked _ Hwf) Hc2 Hp Hi) as Hroom.
    rewrite N.eqb_refl. simpl negb. simpl orb. rewrite !bind_ASSERT.
    destruct (set_part_is_Some s (_num_nonempty_pqs s) p) as [s1 E1]; [lia|].
    rewrite E1, bind_ret. apply set_part_spec in E1 as (F1 & P1 & I1 & Q1 & U1).
    rewrite I1, Hi, bind_ret, N.eqb_refl.
    rewrite (frame_nonempty _ _ F1).
    rewrite size_t_inc_small by lia.
    set (s2 := with_num_nonempty_pqs s1 (_num_nonempty_pqs s + 1)).
    destruct (set_index_is_Some s2 (Z.to_N p) (_num_nonempty_pqs s)) as [s3 E3].
    { change (_mapping s2) with (_mapping s1). rewrite (frame_mapping_size _ _ F1). lia. }
    rewrite E3, bind_ret. apply set_index_spec in E3 as (F3 & P3 & I3 & Q3 & U3).
    rewrite I3, decide_True, bind_ret by done.
    rewrite Q3. change (get_queue s2) with (get_queue s1). rewrite Q1.
    rewrite (wf_unused _ Hwf) by lia. rewrite bind_ret.
    change (Heap.push [] id key) with (Some [(id, key)]). rewrite bind_ret.
    destruct (set_queue_is_Some s3 (_num_nonempty_pqs s) [(id, key)]) as [s4 E4].
    { rewrite (frame_queues_size _ _ F3). change (_queues s2) with (_queues s1).
      rewrite (frame_queues_size _ _ F1). done. }
    rewrite E4, bind_ret.
    assert (Hq3 : get_queue s3 (_num_nonempty_pqs s) = Some []).
    { rewrite Q3. change (get_queue s2) with (get_queue s1). rewrite Q1.
      apply (wf_unused _ Hwf); lia. }
    pose proof (T4 := total_set_queue _ _ _ _ _ Hq3 E4).
    apply set_queue_spec in E4 as (F4 & P4 & I4 & Q4).
    eexists. split; [done|].
    set (n := _num_nonempty_pqs s) in *.
    assert (PP : ∀ j, get_part s4 j = if decide (n = j) then Some p else get_part s j).
    { intros j. rewrite P4, P3. change (get_part s2) with (get_part s1). apply P1. }
    assert (II : ∀ j, get_index s4 j =
                      if decide (Z.to_N p = j) then Some n else get_index s j).
    { intros j. rewrite I4, I3. change (get_index s2) with (get_index s1).
      by rewrite I1. }
    assert (QQ : ∀ j, get_queue s4 j =
                      if decide (n = j) then Some [(id, key)] else get_queue s j).
    { intros j. rewrite Q4, Q3. change (get_queue s2) with (get_queue s1).
      by rewrite Q1. }
    assert (Hk4 : k_of s4 = k_of s).
    { unfold k_of. rewrite (frame_queues_size _ _ F4), (frame_queues_size _ _ F3).
      change (_queues s2) with (_queues s1). apply (frame_queues_size _ _ F1). }
    assert (Hm4 : Vec.size (_mapping s4) = Vec.size (_mapping s)).
    { rewrite (frame_mapping_size _ _ F4), (frame_mapping_size _ _ F3).
      change (_mapping s2) with (_mapping s1). apply (frame_mapping_size _ _ F1). }
    assert (Hn4 : _num_nonempty_pqs s4 = n + 1).
    { by rewrite (frame_nonempty _ _ F4), (frame_nonempty _ _ F3). }
    assert (He4 : _num_enabled_pqs s4 = _num_enabled_pqs s).
    { rewrite (frame_enabled _ _ F4), (frame_enabled _ _ F3).
      change (_num_enabled_pqs s2) with (_num_enabled_pqs s1).
      apply (frame_enabled _ _ F1). }
    assert (Ht4 : total s4 = total s + 1).
    { unfold total in *. rewrite U3 in T4. change (_queues s2) with (_queues s1) in T4.
      rewrite U1 in T4. unfold Heap.size in T4. simpl in T4. lia. }
    assert (Hen4 : _num_entries s4 = _num_entries s).
    { rewrite (frame_entries _ _ F4), (frame_entries _ _ F3).
      change (_num_entries s2) with (_num_entries s1).
      apply (frame_entries _ _ F1). }
    clear F1 P1 I1 Q1 U1 F3 P3 I3 Q3 U3 F4 P4 I4 Q4 Hq3 T4. clear s3.
    split_and!.
    + split; simpl; rewrite ?Hn4, ?He4.
      * split.
        -- unfold k_of in *. simpl. by rewrite Hm4, Hk4.
        -- intros j Hj. change (k_of (with_num_entries s4 _)) with (k_of s4).
           change (get_part (with_num_entries s4 ?x) ?i) with (get_part s4 i).
           change (get_index (with_num_entries s4 ?x) ?i) with (get_index s4 i).
           rewrite Hk4, PP. destruct (decide (n = j)) as [<-|Hnj].
           ++ exists p. split; [done|]. split; [done|]. rewrite II. by rewrite decide_True.
           ++ destruct (linked_part _ _ (wf_linked _ Hwf) j) as (q & Hq & Hqr & Hqi);
                [subst n; lia|].
              exists q. split; [done|]. split; [done|]. rewrite II.
              rewrite decide_False; [done|]. intros Heq.
              assert (p = q) as -> by (unfold is_part in Hp; lia).
              rewrite Hi in Hqi. injection Hqi as <-.
              unfold kInvalidIndex in Hj. lia.
        -- intros j Hj1 Hj2. change (k_of (with_num_entries s4 _)) with (k_of s4) in Hj2.
           change (get_part (with_num_entries s4 ?x) ?i) with (get_part s4 i).
           rewrite Hk4 in Hj2. rewrite PP, decide_False by lia.
           apply (linked_free _ _ (wf_linked _ Hwf)); lia.
        -- intros q Hq. change (k_of (with_num_entries s4 _)) with (k_of s4) in Hq.
           change (get_part (with_num_entries s4 ?x) ?i) with (get_part s4 i).
           change (get_index (with_num_entries s4 ?x) ?i) with (get_index s4 i).
           rewrite Hk4 in Hq. rewrite II.
           destruct (decide (Z.to_N p = Z.to_N q)) as [Heq|Hne].
           ++ assert (q = p) as -> by (unfold is_part in Hp; lia).
              exists n. split; [done|]. right. split; [lia|]. rewrite PP.
              by rewrite decide_True.
           ++ destruct (linked_index _ _ (wf_linked _ Hwf) q Hq) as (j & Hj & Hor).
              exists j. split; [done|]. destruct Hor as [->|[Hlt Hpj]]; [by left|right].
              split; [lia|]. rewrite PP, decide_False by lia. done.
      * change (k_of (with_num_entries s4 _)) with (k_of s4). rewrite Hk4. lia.
      * intros j Hj. change (get_queue (with_num_entries s4 ?x) ?i) with (get_queue s4 i).
        rewrite QQ. case_decide; [by eexists|]. apply (wf_nonempty _ Hwf). lia.
      * intros j Hj1 Hj2. change (k_of (with_num_entries s4 _)) with (k_of s4) in Hj2.
        change (get_queue (with_num_entries s4 ?x) ?i) with (get_queue s4 i).
        rewrite Hk4 in Hj2. rewrite QQ, decide_False by lia.
        apply (wf_unused _ Hwf); lia.
      * change (total (with_num_entries s4 _)) with (total s4).
        rewrite Hen4, Ht4, (wf_entries _ Hwf). apply size_t_inc_mod.
    + done.
    + done.
    + done.
    + intros q Hq. rewrite Hsub. unfold subqueue.
      change (get_index (with_num_entries s4 ?x) ?i) with (get_index s4 i).
      change (get_queue (with_num_entries s4 ?x) ?i) with (get_queue s4 i).
      change (_num_nonempty_pqs (with_num_entries s4 _)) with (_num_nonempty_pqs s4).
      rewrite II, Hn4. destruct (decide (q = p)) as [->|Hnp].
      * rewrite decide_True by done.
        destruct (N.ltb_spec n (n + 1)); [|lia]. rewrite QQ, decide_True by done. done.
      * rewrite decide_False by (unfold is_part in Hp, Hq; lia).
        destruct (get_index s (Z.to_N q)) as [j|] eqn:Hj; [|done].
        destruct (N.ltb_spec j (_num_nonempty_pqs s)).
        -- destruct (N.ltb_spec j (n + 1)); [|lia]. rewrite QQ, decide_False by lia. done.
        -- destruct (N.ltb_spec j (n + 1)); [|done].
           assert (j = n) as -> by lia. exfalso.
           destruct (linked_index _ _ (wf_linked _ Hwf) q Hq) as (j' & Hj' & Hor).
           rewrite Hj in Hj'. injection Hj' as <-. unfold kInvalidIndex in Hor.
           destruct Hor as [?|[? _]]; lia.
    + intros q Hq. unfold enabled.
      change (get_index (with_num_entries s4 ?x) ?i) with (get_index s4 i).
      change (_num_enabled_pqs (with_num_entries s4 _)) with (_num_enabled_pqs s4).
      rewrite II, He4. case_decide as Heq; [|done].
      assert (q = p) as -> by (unfold is_part in Hp, Hq; lia). rewrite Hi.
      unfold kInvalidIndex.
      destruct (N.ltb_spec n (_num_enabled_pqs s)),
        (N.ltb_spec (2 ^ 64 - 1) (_num_enabled_pqs s)); try done; lia.
  - (* the part has a sub-queue already *)
    assert ((i =? kInvalidIndex) = false) as ->.
    { apply N.eqb_neq. unfold kInvalidIndex. lia. }
    simpl negb. simpl orb. rewrite bind_ASSERT.
    destruct (set_part_is_Some s (_num_nonempty_pqs s) kInvalidPart) as [s1 E1]; [lia|].
    rewrite E1, bind_ret. apply set_part_spec in E1 as (F1 & P1 & I1 & Q1 & U1).
    rewrite I1, Hi, bind_ret.
    assert ((i =? kInvalidIndex) = false) as ->.
    { apply N.eqb_neq. unfold kInvalidIndex. lia. }
    destruct (set_index_is_Some s1 (Z.to_N p) i) as [s3 E3].
    { rewrite (frame_mapping_size _ _ F1). lia. }
    rewrite E3, bind_ret. apply set_index_spec in E3 as (F3 & P3 & I3 & Q3 & U3).
    rewrite I3, decide_True, bind_ret by done.
    rewrite Q3, Q1, Hq, bind_ret.
    rewrite Hsub in Hc. unfold Heap.push. rewrite Hc, bind_ret.
    destruct (set_queue_is_Some s3 i ((id, key) :: h)) as [s4 E4].
    { rewrite (frame_queues_size _ _ F3), (frame_queues_size _ _ F1).
      unfold k_of in *. lia. }
    rewrite E4, bind_ret.
    assert (Hq3 : get_queue s3 i = Some h) by (by rewrite Q3, Q1).
    pose proof (T4 := total_set_queue _ _ _ _ _ Hq3 E4).
    apply set_queue_spec in E4 as (F4 & P4 & I4 & Q4).
    eexists. split; [done|].
    assert (Ht4 : total s4 = total s + 1).
    { unfold total in *. rewrite U3, U1 in T4. unfold Heap.size in T4. simpl in T4. lia. }
    assert (Hk4 : k_of s4 = k_of s).
    { unfold k_of. by rewrite (frame_queues_size _ _ F4), (frame_queues_size _ _ F3),
        (frame_queues_size _ _ F1). }
    assert (He4 : _num_enabled_pqs s4 = _num_enabled_pqs s).
    { by rewrite (frame_enabled _ _ F4), (frame_enabled _ _ F3), (frame_enabled _ _ F1). }
    destruct (replace_queue s (with_num_entries s4 (size_t_inc (_num_entries s4)))
                p i h ((id, key) :: h)) as (W & V1 & V2); try done.
    + intros j. change (get_part (with_num_entries s4 ?x) ?i) with (get_part s4 i).
      rewrite P4, P3, P1. case_decide; [|done]. by subst j.
    + intros j. change (get_index (with_num_entries s4 ?x) ?i) with (get_index s4 i).
      rewrite I4, I3, I1. case_decide; [|done]. by subst j.
    + intros j. change (get_queue (with_num_entries s4 ?x) ?i) with (get_queue s4 i).
      by rewrite Q4, Q3, Q1.
    + simpl. by rewrite (frame_mapping_size _ _ F4), (frame_mapping_size _ _ F3),
        (frame_mapping_size _ _ F1).
    + simpl. by rewrite (frame_nonempty _ _ F4), (frame_nonempty _ _ F3),
        (frame_nonempty _ _ F1).
    + change (total (with_num_entries s4 _)) with (total s4). simpl.
      rewrite (frame_entries _ _ F4), (frame_entries _ _ F3), (frame_entries _ _ F1).
      rewrite Ht4, (wf_entries _ Hwf). apply size_t_inc_mod.
    + split_and!; try done. intros q Hq'. rewrite V1 by done. by rewrite Hsub.
Qed.

(** the counters play no part in [swap] and [markUnused] *)
Definition recount (e n : N) (s : t) : t :=
  with_num_nonempty_pqs (with_num_enabled_pqs s e) n.

Ltac sync :=
  repeat match goal with
    | |- context [Vec.get ?l ?i] => destruct (Vec.get l i); simpl; [|done]
    | |- context [Vec.set ?l ?i ?x] => destruct (Vec.set l i x); simpl; [|done]
    end.

Lemma swap_recount a b e n s :
  swap a b (recount e n s) = recount e n <$> swap a b s.
Proof.
  unfold swap, recount, get_queue, set_queue, get_part, get_index, set_part, set_index.
  simpl. sync. 
  match goal with |- context [ASSERT ?c] => destruct c end; done.
Qed.

Lemma markUnused_recount p e n s :
  markUnused p (recount e n s) = recount e n <$> markUnused p s.
Proof.
  unfold markUnused, recount, get_part, get_index, set_part, set_index.
  simpl. sync. done.
Qed.

(** the views with the two counters given from outside *)
Definition enabled_at (e : N) (s : t) (p : Z) : bool :=
  match get_index s (Z.to_N p) with
  | Some i => i <? e
  | None => false
  end.

Definition subqueue_at (n : N) (s : t) (p : Z) : Heap.t :=
  match get_index s (Z.to_N p) with
  | Some i => if i <? n then default [] (get_queue s i) else []
  | None => []
  end.

(** what [deleteMax], [deleteMaxFromPartition] and [remove] do with a part
    whose sub-queue has run empty, the counters left aside: move it behind
    the enabled parts if it is one of them, then behind the non-empty
    parts, and mark it unused *)
Definition unlink (first : option N) (last : N) (p : Z) (s : t) : option t :=
  s ← match first with
      | Some b => i ← get_index s (to_size_t p); swap i b s
      | None => Some s
      end;
  i ← get_index s (to_size_t p);
  s ← swap i last s;
  markUnused p s.

Lemma markUnused_spec s n p :
  linked s n → 0 < n → n ≤ k_of s → is_part s p →
  get_index s (Z.to_N p) = Some (n - 1) →
  ∃ s', markUnused p s = Some s' ∧ frame s s' ∧ _queues s' = _queues s ∧
    linked s' (n - 1) ∧
    (∀ j, get_queue s' j = get_queue s j) ∧
    (∀ q, is_part s q →
       get_index s' (Z.to_N q) =
       if decide (q = p) then Some kInvalidIndex else get_index s (Z.to_N q)).
Proof.
  intros Hl Hn0 Hn Hp Hi.
  destruct (linked_sizes _ _ Hl) as [Hsz Hk].
  unfold markUnused. rewrite to_size_t_id by (unfold is_part in Hp; lia).
  rewrite Hi, bind_ret.
  destruct (set_part_is_Some s (n - 1) kInvalidPart) as [s1 E1]; [lia|].
  rewrite E1, bind_ret. apply set_part_spec in E1 as (F1 & P1 & I1 & Q1 & U1).
  destruct (set_index_is_Some s1 (Z.to_N p) kInvalidIndex) as [s2 E2].
  { rewrite (frame_mapping_size _ _ F1). unfold is_part in Hp. lia. }
  rewrite E2. apply set_index_spec in E2 as (F2 & P2 & I2 & Q2 & U2).
  exists s2. split; [done|]. split; [by eapply frame_trans|].
  split; [congruence|].
  assert (Hk2 : k_of s2 = k_of s).
  { unfold k_of. by rewrite (frame_queues_size _ _ F2), (frame_queues_size _ _ F1). }
  assert (Hpos : ∀ q, is_part s q →
       get_index s2 (Z.to_N q) =
       if decide (q = p) then Some kInvalidIndex else get_index s (Z.to_N q)).
  { intros q Hq. rewrite I2, I1. unfold is_part in *.
    repeat case_decide; try done; lia. }
  pose proof (linked_position s n p (n - 1) Hl Hn Hp Hi ltac:(lia)) as Hpart.
  split_and!; [|by intros j; rewrite Q2, Q1|done].
  split.
  - rewrite Hk2, (frame_mapping_size _ _ F2), (frame_mapping_size _ _ F1). done.
  - intros j Hj. rewrite Hk2, P2, P1, decide_False by lia.
    destruct (linked_part _ _ Hl j ltac:(lia)) as (q & Hq & Hqr & Hqi).
    exists q. split; [done|]. split; [done|]. rewrite (Hpos q Hqr).
    rewrite decide_False; [done|]. intros ->. rewrite Hi in Hqi. injection Hqi. lia.
  - intros j Hj1 Hj2. rewrite Hk2 in Hj2. rewrite P2, P1.
    case_decide; [done|]. apply (linked_free _ _ Hl); [lia|done].
  - intros q Hq. rewrite Hk2 in Hq. rewrite (Hpos q Hq).
    destruct (decide (q = p)) as [->|Hne]; [exists kInvalidIndex; by split; [|left]|].
    destruct (linked_index _ _ Hl q Hq) as (j & Hj & Hor).
    exists j. split; [done|]. destruct Hor as [->|[Hlt Hpj]]; [by left|right].
    assert (j ≠ n - 1) by (intros ->; congruence).
    split; [lia|]. rewrite P2, P1, decide_False by done. done.
Qed.

Lemma subqueue_at_content n s p :
  subqueue_at n s p =
  match get_index s (Z.to_N p) with
  | Some i => if i <? n then default [] (content s p) else []
  | None => []
  end.
Proof. unfold subqueue_at, content. by destruct (get_index s (Z.to_N p)). Qed.

Lemma linked_unused_index s n q j :
  linked s n → n ≤ k_of s → is_part s q → get_index s (Z.to_N q) = Some j →
  j = kInvalidIndex ∧ n ≤ j ∨ j < n ∧ get_part s j = Some q.
Proof.
  intros Hl Hn Hq Hj. destruct (linked_index _ _ Hl q Hq) as (j' & Hj' & Hor).
  assert (j' = j) as -> by congruence.
  destruct (linked_sizes _ _ Hl) as [_ Hk]. unfold kInvalidIndex in *.
  destruct Hor as [->|?]; [left; lia|by right].
Qed.

Lemma unlink_spec s n e p i :
  linked s n → 0 < n → n ≤ k_of s → e ≤ n → is_part s p →
  get_index s (Z.to_N p) = Some i → i < n →
  ∃ s', unlink (if i <? e then Some (e - 1) else None) (n - 1) p s = Some s' ∧
    frame s s' ∧ total s' = total s ∧ linked s' (n - 1) ∧
    get_index s' (Z.to_N p) = Some kInvalidIndex ∧
    (∀ q, is_part s q → q ≠ p →
       enabled_at (if i <? e then e - 1 else e) s' q = enabled_at e s q ∧
       subqueue_at (n - 1) s' q = subqueue_at n s q) ∧
    (∀ j, j < n - 1 → ∃ j0, j0 < n ∧ j0 ≠ i ∧ get_queue s' j = get_queue s j0) ∧
    get_queue s' (n - 1) = get_queue s i ∧
    (∀ j, n ≤ j → get_queue s' j = get_queue s j).
Proof.
  intros Hl Hn0 Hn He Hp Hi Hlt.
  destruct (linked_sizes _ _ Hl) as [Hsz Hk].
  assert (Ht : to_size_t p = Z.to_N p) by (apply to_size_t_id; unfold is_part in Hp; lia).
  pose proof (linked_position s n p i Hl Hn Hp Hi Hlt) as Hpart.
  unfold unlink. rewrite Ht.
  destruct (N.ltb_spec i e) as [Hen|Hen].
  - (* an enabled part: two swaps *)
    rewrite Hi, bind_ret.
    destruct (swap_parts s n i (e - 1))
      as (s1 & pa & pb & Hsw & Hpa & Hpb & _ & Hpbr & F1 & T1 & L1 & I1 & C1 & Q1);
      [done|lia|lia|lia|].
    assert (pa = p) as -> by congruence.
    rewrite Hsw, bind_ret.
    assert (Hk1 : k_of s1 = k_of s) by apply (frame_queues_size _ _ F1).
    assert (Hparts1 : ∀ q, is_part s1 q ↔ is_part s q).
    { intros q. unfold is_part. by rewrite Hk1. }
    assert (Hi1 : get_index s1 (Z.to_N p) = Some (e - 1)).
    { rewrite I1 by done. by rewrite decide_True. }
    rewrite Hi1, bind_ret.
    destruct (swap_parts s1 n (e - 1) (n - 1))
      as (s2 & pa & pl & Hsw2 & Hpa2 & Hpl & _ & Hplr & F2 & T2 & L2 & I2 & C2 & Q2);
      [done|lia|lia|lia|].
    assert (pa = p) as ->.
    { pose proof (linked_position s1 n p (e - 1) L1 ltac:(lia)
                    ltac:(by apply Hparts1) Hi1 ltac:(lia)). congruence. }
    rewrite Hsw2, bind_ret.
    assert (Hk2 : k_of s2 = k_of s1) by apply (frame_queues_size _ _ F2).
    assert (Hparts2 : ∀ q, is_part s2 q ↔ is_part s q).
    { intros q. unfold is_part. by rewrite Hk2, Hk1. }
    assert (Hi2 : get_index s2 (Z.to_N p) = Some (n - 1)).
    { rewrite I2 by (by apply Hparts1). by rewrite decide_True. }
    destruct (markUnused_spec s2 n p) as (s3 & Hmu & F3 & U3 & L3 & Q3 & I3);
      [done|done|lia|by apply Hparts2|done|].
    rewrite Hmu. exists s3. split; [done|].
    split; [by repeat (eapply frame_trans; [|eassumption])|].
    split; [unfold total in *; congruence|].
    split; [done|].
    split; [rewrite I3 by (by apply Hparts2); by rewrite decide_True|].
    destruct (linked_part_index s n (e - 1) pb Hl ltac:(lia) Hpb) as [_ Hib].
    destruct (linked_part_index s1 n (n - 1) pl L1 ltac:(lia) Hpl) as [_ Hil1].
    split_and!.
    + intros q Hq Hqp.
      assert (Hpos : get_index s3 (Z.to_N q) =
                if decide (q = pl) then Some (e - 1)
                else if decide (q = pb) then Some i else get_index s (Z.to_N q)).
      { rewrite I3, decide_False by (done || by apply Hparts2).
        rewrite I2, decide_False by (done || by apply Hparts1).
        case_decide; [done|]. rewrite I1, decide_False by done. done. }
      assert (Hcont : content s3 q = content s q).
      { rewrite <- C1, <- C2 by (done || by apply Hparts1).
        unfold content. rewrite I3, decide_False by (done || by apply Hparts2).
        destruct (get_index s2 (Z.to_N q)); [|done]. by rewrite !bind_ret, Q3. }
      rewrite !subqueue_at_content, Hcont. unfold enabled_at. rewrite Hpos.
      destruct (get_index s (Z.to_N q)) as [j|] eqn:Hj.
      2:{ destruct (linked_index _ _ Hl q Hq) as (? & ? & _). congruence. }
      destruct (linked_unused_index s n q j Hl Hn Hq Hj) as [[-> Hj']|[Hj' Hpj]].
      * rewrite !decide_False.
        -- unfold kInvalidIndex in *.
           destruct (N.ltb_spec (2 ^ 64 - 1) (e - 1)), (N.ltb_spec (2 ^ 64 - 1) e),
             (N.ltb_spec (2 ^ 64 - 1) (n - 1)), (N.ltb_spec (2 ^ 64 - 1) n);
             try done; lia.
        -- intros ->. rewrite Hib in Hj. injection Hj. unfold kInvalidIndex. lia.
        -- intros ->. rewrite I1 in Hil1 by done.
           destruct (decide (pl = p)); [done|].
           destruct (decide (pl = pb)) as [->|].
           ++ rewrite Hib in Hj. injection Hj. unfold kInvalidIndex. lia.
           ++ rewrite Hj in Hil1. injection Hil1. unfold kInvalidIndex. lia.
      * assert (Hpl_pos : q = pl → j = n - 1 ∧ e - 1 ≠ n - 1).
        { intros ->. rewrite I1 in Hil1 by done.
          destruct (decide (pl = p)); [done|].
          destruct (decide (pl = pb)) as [->|].
          - injection Hil1 as ->. exfalso.
            assert (e - 1 = n - 1) by lia. congruence.
          - rewrite Hj in Hil1. injection Hil1 as ->. split; [done|].
            intros Heq. rewrite <- Heq in Hpj. congruence. }
        assert (Hpb_pos : q = pb → j = e - 1 ∧ i ≠ e - 1).
        { intros ->. rewrite Hib in Hj. injection Hj as <-. split; [done|].
          intros ->. congruence. }
        assert (Hother : q ≠ pl → q ≠ pb → j ≠ e - 1 ∧ j ≠ n - 1).
        { intros H1 H2. split; intros ->; [congruence|].
          assert (Hplr' : is_part s pl) by (by apply Hparts1).
          rewrite I1 in Hil1 by done.
          destruct (decide (pl = p)) as [->|].
          { injection Hil1 as Heq. rewrite <- Heq in Hpj. congruence. }
          destruct (decide (pl = pb)) as [->|].
          { injection Hil1 as Heq. rewrite <- Heq in Hpj. congruence. }
          pose proof (linked_position s n pl (n - 1) Hl Hn Hplr' Hil1 ltac:(lia)).
          congruence. }
        destruct (decide (q = pl)) as [Hql|Hql];
          [destruct (Hpl_pos Hql) as [-> ?]|
           destruct (decide (q = pb)) as [Hqb|Hqb];
           [destruct (Hpb_pos Hqb) as [-> ?]|
            destruct (Hother Hql Hqb) as [? ?]]].
        -- destruct (N.ltb_spec (e - 1) (e - 1)), (N.ltb_spec (n - 1) e),
             (N.ltb_spec (e - 1) (n - 1)), (N.ltb_spec (n - 1) n); try done; lia.
        -- destruct (N.ltb_spec i (e - 1)), (N.ltb_spec (e - 1) e),
             (N.ltb_spec i (n - 1)), (N.ltb_spec (e - 1) n); try done; lia.
        -- destruct (N.ltb_spec j (e - 1)), (N.ltb_spec j e),
             (N.ltb_spec j (n - 1)), (N.ltb_spec j n); try done; lia.
    + intros j Hj. rewrite Q3, Q2.
      destruct (decide (j = e - 1)) as [->|Hje].
      * rewrite Q1. repeat case_decide; try lia.
        exists (n - 1). split; [lia|]. split; [lia|done].
      * rewrite decide_False by lia. rewrite Q1.
        destruct (decide (j = i)) as [->|Hji].
        -- exists (e - 1). split; [lia|]. split; [lia|done].
        -- rewrite decide_False by done. exists j. split; [lia|]. done.
    + rewrite Q3, Q2. destruct (decide (n - 1 = e - 1)) as [Heq|Hne].
      * rewrite Q1. rewrite <- Heq. repeat case_decide; try done; try lia; congruence.
      * rewrite decide_True by done. rewrite Q1.
        repeat case_decide; try done; try lia; congruence.
    + intros j Hj. rewrite Q3, Q2, !decide_False by lia. rewrite Q1, !decide_False by lia.
      done.
  - (* a disabled part: one swap *)
    rewrite bind_ret, Hi, bind_ret.
    destruct (swap_parts s n i (n - 1))
      as (s2 & pa & pl & Hsw2 & Hpa2 & Hpl & _ & Hplr & F2 & T2 & L2 & I2 & C2 & Q2);
      [done|lia|lia|lia|].
    assert (pa = p) as -> by congruence.
    rewrite Hsw2, bind_ret.
    assert (Hk2 : k_of s2 = k_of s) by apply (frame_queues_size _ _ F2).
    assert (Hparts2 : ∀ q, is_part s2 q ↔ is_part s q).
    { intros q. unfold is_part. by rewrite Hk2. }
    assert (Hi2 : get_index s2 (Z.to_N p) = Some (n - 1)).
    { rewrite I2 by done. by rewrite decide_True. }
    destruct (markUnused_spec s2 n p) as (s3 & Hmu & F3 & U3 & L3 & Q3 & I3);
      [done|done|lia|by apply Hparts2|done|].
    rewrite Hmu. exists s3. split; [done|].
    split; [by repeat (eapply frame_trans; [|eassumption])|].
    split; [unfold total in *; congruence|].
    split; [done|].
    split; [rewrite I3 by (by apply Hparts2); by rewrite decide_True|].
    destruct (linked_part_index s n (n - 1) pl Hl ltac:(lia) Hpl) as [_ Hil].
    split_and!.
    + intros q Hq Hqp.
      assert (Hpos : get_index s3 (Z.to_N q) =
                if decide (q = pl) then Some i else get_index s (Z.to_N q)).
      { rewrite I3, decide_False by (done || by apply Hparts2).
        rewrite I2, decide_False by done. done. }
      assert (Hcont : content s3 q = content s q).
      { rewrite <- C2 by done.
        unfold content. rewrite I3, decide_False by (done || by apply Hparts2).
        destruct (get_index s2 (Z.to_N q)); [|done]. by rewrite !bind_ret, Q3. }
      rewrite !subqueue_at_content, Hcont. unfold enabled_at. rewrite Hpos.
      destruct (get_index s (Z.to_N q)) as [j|] eqn:Hj.
      2:{ destruct (linked_index _ _ Hl q Hq) as (? & ? & _). congruence. }
      destruct (decide (q = pl)) as [->|Hql].
      * rewrite Hil in Hj. injection Hj as <-.
        assert (i ≠ n - 1) by (intros ->; congruence).
        destruct (N.ltb_spec i e), (N.ltb_spec (n - 1) e),
          (N.ltb_spec i (n - 1)), (N.ltb_spec (n - 1) n); try done; lia.
      * destruct (linked_unused_index s n q j Hl Hn Hq Hj) as [[-> Hj']|[Hj' Hpj]].
        -- unfold kInvalidIndex in *.
           destruct (N.ltb_spec (2 ^ 64 - 1) (n - 1)), (N.ltb_spec (2 ^ 64 - 1) n);
             try done; lia.
        -- assert (j ≠ n - 1) by (intros ->; congruence).
           destruct (N.ltb_spec j (n - 1)), (N.ltb_spec j n); try done; lia.
    + intros j Hj. rewrite Q3, Q2, (decide_False (P := j = n - 1)) by lia.
      destruct (decide (j = i)) as [->|Hji].
      * exists (n - 1). split; [lia|]. split; [lia|done].
      * exists j. split; [lia|]. done.
    + rewrite Q3, Q2. repeat case_decide; try done; congruence.
    + intros j Hj. rewrite Q3, Q2, !decide_False by lia. done.
Qed.

(** the last entry of the sub-queue of [p] has been taken out *)
Lemma emptied_spec s p i h sA :
  wf s → is_part s p → get_index s (Z.to_N p) = Some i →
  i < _num_nonempty_pqs s → get_queue s i = Some h → Heap.size h = 1 →
  set_queue s i [] = Some sA →
  ∃ s', unlink (if i <? _num_enabled_pqs s then Some (_num_enabled_pqs s - 1) else None)
               (_num_nonempty_pqs s - 1) p sA = Some s' ∧
    _num_entries s' = _num_entries s ∧ _num_enabled_pqs s' = _num_enabled_pqs s ∧
    ∀ s'', s'' = with_num_entries
             (recount (if i <? _num_enabled_pqs s then _num_enabled_pqs s - 1
                       else _num_enabled_pqs s)
                      (_num_nonempty_pqs s - 1) s')
             (size_t_dec (_num_entries s)) →
    wf s'' ∧ k_of s'' = k_of s ∧ total s'' + 1 = total s ∧
    get_index s'' (Z.to_N p) = Some kInvalidIndex ∧
    (∀ q, is_part s q → subqueue s'' q = if decide (q = p) then [] else subqueue s q) ∧
    (∀ q, is_part s q → enabled s'' q = if decide (q = p) then false else enabled s q).
Proof.
  intros Hwf Hp Hi Hlt Hq Hsz HsA. pose proof (wf_k _ Hwf) as Hk.
  destruct (wf_counters _ Hwf) as [Hc1 Hc2].
  pose proof (TA := total_set_queue _ _ _ _ _ Hq HsA).
  apply set_queue_spec in HsA as (FA & PA & IA & QA).
  assert (HkA : k_of sA = k_of s) by apply (frame_queues_size _ _ FA).
  assert (HpartsA : ∀ q, is_part sA q ↔ is_part s q).
  { intros q. unfold is_part. by rewrite HkA. }
  assert (LA : linked sA (_num_nonempty_pqs s)).
  { destruct (wf_linked _ Hwf) as [L1 L2 L3 L4].
    split; rewrite ?HkA, ?(frame_mapping_size _ _ FA); try done.
    - intros j Hj. rewrite PA. destruct (L2 j Hj) as (q & ? & ? & ?).
      exists q. by rewrite IA.
    - intros j Hj1 Hj2. rewrite PA. by apply L3.
    - intros q Hq'. destruct (L4 q Hq') as (j & ? & ?). exists j. by rewrite IA, PA. }
  destruct (unlink_spec sA (_num_nonempty_pqs s) (_num_enabled_pqs s) p i)
    as (s' & Hun & F & T & L & Ip & V & Q1 & Q2 & Q3);
    [done|lia|lia|done|by apply HpartsA|by rewrite IA|done|].
  exists s'. split; [done|].
  split; [by rewrite (frame_entries _ _ F), (frame_entries _ _ FA)|].
  split; [by rewrite (frame_enabled _ _ F), (frame_enabled _ _ FA)|]. intros s'' ->.
  assert (Hk' : k_of s' = k_of s).
  { unfold k_of. rewrite (frame_queues_size _ _ F). apply HkA. }
  assert (Htot : total s' + 1 = total s).
  { rewrite T. unfold Heap.size in *. simpl in TA. lia. }
  split_and!.
  - split.
    + by eapply linked_ext; [..|exact L].
    + simpl. change (k_of (with_num_entries _ _)) with (k_of s'). rewrite Hk'.
      destruct (N.ltb_spec i (_num_enabled_pqs s)); lia.
    + intros j Hj. simpl in Hj.
      change (get_queue (with_num_entries _ _) j) with (get_queue s' j).
      destruct (Q1 j Hj) as (j0 & Hj0 & Hne & ->).
      rewrite QA, decide_False by done. by apply (wf_nonempty _ Hwf).
    + intros j Hj1 Hj2. simpl in Hj1.
      change (k_of (with_num_entries _ _)) with (k_of s') in Hj2.
      change (get_queue (with_num_entries _ _) j) with (get_queue s' j).
      destruct (decide (j = _num_nonempty_pqs s - 1)) as [->|Hne].
      * rewrite Q2, QA. by rewrite decide_True.
      * rewrite Q3, QA, decide_False by lia. apply (wf_unused _ Hwf); lia.
    + change (total (with_num_entries _ _)) with (total s'). simpl.
      rewrite (wf_entries _ Hwf), size_t_dec_mod by lia. f_equal. lia.
  - done.
  - done.
  - done.
  - intros q Hq'. destruct (decide (q = p)) as [->|Hne].
    + unfold subqueue.
      change (get_index (with_num_entries _ _) ?x) with (get_index s' x).
      rewrite Ip. simpl. unfold kInvalidIndex.
      destruct (N.ltb_spec (2 ^ 64 - 1) (_num_nonempty_pqs s - 1)); [lia|done].
    + destruct (V q ltac:(by apply HpartsA) Hne) as [_ Hs].
      change (subqueue (with_num_entries _ _) q)
        with (subqueue_at (_num_nonempty_pqs s - 1) s' q).
      rewrite Hs. unfold subqueue_at, subqueue. rewrite IA.
      destruct (get_index s (Z.to_N q)) as [j|] eqn:Hj; [|done].
      destruct (N.ltb_spec j (_num_nonempty_pqs s)); [|done].
      rewrite QA, decide_False; [done|]. intros <-.
      pose proof (linked_position s _ q i (wf_linked _ Hwf) Hc2 Hq' Hj Hlt).
      pose proof (linked_position s _ p i (wf_linked _ Hwf) Hc2 Hp Hi Hlt).
      congruence.
  - intros q Hq'. destruct (decide (q = p)) as [->|Hne].
    + unfold enabled.
      change (get_index (with_num_entries _ _) ?x) with (get_index s' x).
      rewrite Ip. simpl. unfold kInvalidIndex.
      destruct (N.ltb_spec i (_num_enabled_pqs s));
        apply N.ltb_ge; lia.
    + destruct (V q ltac:(by apply HpartsA) Hne) as [He _].
      change (enabled (with_num_entries _ _) q)
        with (enabled_at (if i <? _num_enabled_pqs s then _num_enabled_pqs s - 1
                          else _num_enabled_pqs s) s' q).
      rewrite He. unfold enabled_at, enabled. by rewrite IA.
Qed.

(** *** Choosing the sub-queue with the greatest key *)

Section selection.

Variable MetaKey_min : Z.
Variable getRandomInt : N → N → N.
Variable s : t.

(** the greatest key of the sub-queue stored at a position *)
Definition key_at (i : N) (k : Z) : Prop :=
  ∃ q, get_queue s i = Some q ∧ Heap.topKey q = Some k.

Lemma key_at_is_Some i q :
  get_queue s i = Some q → q ≠ [] → ∃ k, key_at i k ∧ Heap.empty q = false.
Proof.
  intros Hq Hne. destruct (Heap.top_entry_is_Some q Hne) as [[id k] Hk].
  exists k. split; [|by apply Heap.empty_false].
  exists q. split; [done|]. unfold Heap.topKey. by rewrite Hk.
Qed.

Lemma key_at_inj i k k' : key_at i k → key_at i k' → k = k'.
Proof. intros (q & Hq & Hk) (q' & Hq' & Hk'). congruence. Qed.

Lemma maxIndex_fold l acc :
  (∀ i, i ∈ l → ∃ q, get_queue s i = Some q ∧ q ≠ []) →
  ∃ r, foldM (maxIndex_body s) acc l = Some r ∧
    (snd acc ≤ snd r)%Z ∧
    (∀ i k, i ∈ l → key_at i k → (k ≤ snd r)%Z) ∧
    (r = acc ∨ (fst r ∈ l ∧ key_at (fst r) (snd r) ∧ (snd acc < snd r)%Z)).
Proof.
  revert acc. induction l as [|i l IH]; intros [mi mk] Hl.
  - exists (mi, mk). split; [done|]. split; [done|]. split; [|by left].
    intros i k Hi. by apply elem_of_nil in Hi.
  - destruct (Hl i ltac:(left)) as (q & Hq & Hne).
    destruct (key_at_is_Some i q Hq Hne) as (k & Hk & Hemp).
    destruct Hk as (q' & Hq' & Hk). assert (q' = q) as -> by congruence.
    simpl. rewrite Hq, bind_ret, Hemp. simpl negb. rewrite bind_ASSERT, Hk, !bind_ret.
    destruct (IH (if (mk <? k)%Z then (i, k) else (mi, mk))) as (r & Hr & Hle & Hall & Hor).
    { intros j Hj. apply Hl. by right. }
    exists r. split; [done|].
    destruct (Z.ltb_spec mk k) as [Hlt|Hge]; simpl in *.
    + split; [lia|]. split.
      * intros j k' [->|Hj]%elem_of_cons Hk'; [|by eapply Hall].
        assert (k' = k) as -> by (eapply key_at_inj; [done|by exists q]). done.
      * right. destruct Hor as [->|(H1 & H2 & H3)].
        -- simpl. split; [left|]. split; [by exists q|done].
        -- split; [by right|]. split; [done|lia].
    + split; [done|]. split.
      * intros j k' [->|Hj]%elem_of_cons Hk'; [|by eapply Hall].
        assert (k' = k) as -> by (eapply key_at_inj; [done|by exists q]). lia.
      * destruct Hor as [->|(H1 & H2 & H3)]; [by left|right].
        split; [by right|done].
Qed.

Lemma maxIndex_spec :
  _num_enabled_pqs s < kInvalidIndex →
  (∀ i, i < _num_enabled_pqs s → ∃ q, get_queue s i = Some q ∧ q ≠ []) →
  (∃ i k, i < _num_enabled_pqs s ∧ key_at i k ∧ (MetaKey_min < k)%Z) →
  ∃ m k, maxIndex MetaKey_min s = Some m ∧ m < _num_enabled_pqs s ∧
    key_at m k ∧ (MetaKey_min < k)%Z ∧
    (∀ i k', i < _num_enabled_pqs s → key_at i k' → (k' ≤ k)%Z).
Proof.
  intros HE Hne (i0 & k0 & Hi0 & Hk0 & Hgt).
  destruct (maxIndex_fold (indices (_num_enabled_pqs s)) (kInvalidIndex, MetaKey_min))
    as (r & Hr & Hle & Hall & Hor).
  { intros i Hi%elem_of_indices. by apply Hne. }
  unfold maxIndex. rewrite Hr, bind_ret.
  destruct Hor as [->|(H1 & H2 & H3)].
  { simpl in *. pose proof (Hall i0 k0 ltac:(by apply elem_of_indices) Hk0). lia. }
  apply elem_of_indices in H1.
  exists (fst r), (snd r).
  assert ((fst r =? kInvalidIndex) = false) as -> by (apply N.eqb_neq; lia).
  simpl negb. rewrite bind_ASSERT. simpl in *. split_and!; try done.
  intros i k' Hi Hk'. apply (Hall i k'); [by apply elem_of_indices|done].
Qed.

Lemma maxIndexRandomTieBreaking_fold l acc :
  (∀ i, i ∈ l → ∃ q, get_queue s i = Some q ∧ q ≠ []) →
  ∃ r, foldM (maxIndexRandomTieBreaking_body s) acc l = Some r ∧
    (snd acc ≤ snd r)%Z ∧
    (∀ i k, i ∈ l → key_at i k → (k ≤ snd r)%Z) ∧
    (∀ m, m ∈ fst r →
       (m ∈ l ∧ key_at m (snd r)) ∨ (m ∈ fst acc ∧ snd r = snd acc)) ∧
    ((snd acc < snd r)%Z →
       (length (fst r) ≤ length l)%nat ∧ ∃ m, m ∈ fst r) ∧
    (length (fst r) ≤ length (fst acc) + length l)%nat ∧
    (snd r = snd acc → ∀ m, m ∈ fst acc → m ∈ fst r).
Proof.
  revert acc. induction l as [|i l IH]; intros [ties mk] Hl.
  - exists (ties, mk). simpl. split_and!; try done; try lia.
    + intros i k Hi. by apply elem_of_nil in Hi.
    + intros m Hm. by right.
  - destruct (Hl i ltac:(left)) as (q & Hq & Hne).
    destruct (key_at_is_Some i q Hq Hne) as (k & Hk & Hemp).
    destruct Hk as (q' & Hq' & Hk). assert (q' = q) as -> by congruence.
    simpl. rewrite Hq, bind_ret, Hemp. simpl negb. rewrite bind_ASSERT, Hk, !bind_ret.
    match goal with |- context [foldM _ ?a l] =>
      destruct (IH a) as (r & Hr & Hle & Hall & HB & HC & HD & HE) end.
    { intros j Hj. apply Hl. by right. }
    exists r. split; [done|].
    assert (Hki : key_at i k) by (by exists q).
    assert (Hkeys : (k ≤ snd r)%Z →
              ∀ j k', j ∈ i :: l → key_at j k' → (k' ≤ snd r)%Z).
    { intros Hkr j k' [->|Hj]%elem_of_cons Hk'; [|by eapply Hall].
      assert (k' = k) as -> by (by eapply key_at_inj). done. }
    destruct (Z.ltb_spec mk k) as [Hlt|Hge]; simpl in *.
    + split_and!; [lia|by apply Hkeys| | |lia|lia].
      * intros m Hm. left. destruct (HB m Hm) as [[? ?]|[->%list_elem_of_singleton ->]].
        -- split; [by right|done].
        -- split; [left|done].
      * intros _. split; [lia|].
        destruct (decide (snd r = k)) as [Heq|Hneq].
        -- exists i. apply HE; [done|]. left.
        -- apply HC. lia.
    + destruct (Z.eqb_spec k mk) as [->|Hneq]; simpl in *.
      * split_and!; [done|by apply Hkeys| | | |].
        -- intros m Hm. destruct (HB m Hm) as [[? ?]|[[?| ->%list_elem_of_singleton]%elem_of_app Heq]].
           ++ left. split; [by right|done].
           ++ by right.
           ++ left. split; [left|by rewrite Heq].
        -- intros Hlt. destruct (HC Hlt) as [? ?]. split; [lia|done].
        -- rewrite length_app in HD. simpl in HD. lia.
        -- intros Heq m Hm. apply HE; [done|]. apply elem_of_app. by left.
      * split_and!; [done|apply Hkeys; lia| | |lia|done].
        -- intros m Hm. destruct (HB m Hm) as [[? ?]|?]; [left|by right].
           split; [by right|done].
        -- intros Hlt. destruct (HC Hlt) as [? ?]. split; [lia|done].
Qed.

Lemma maxIndexRandomTieBreaking_spec :
  _num_enabled_pqs s < kInvalidIndex →
  (∀ hi, getRandomInt 0 hi ≤ hi) →
  (∀ i, i < _num_enabled_pqs s → ∃ q, get_queue s i = Some q ∧ q ≠ []) →
  (∃ i k, i < _num_enabled_pqs s ∧ key_at i k ∧ (MetaKey_min < k)%Z) →
  ∃ m k ties, maxIndexRandomTieBreaking MetaKey_min getRandomInt s
              = Some (m, with_ties s ties) ∧
    m < _num_enabled_pqs s ∧
    key_at m k ∧ (MetaKey_min < k)%Z ∧
    (∀ i k', i < _num_enabled_pqs s → key_at i k' → (k' ≤ k)%Z).
Proof.
  intros HE Hrand Hne (i0 & k0 & Hi0 & Hk0 & Hgt).
  destruct (maxIndexRandomTieBreaking_fold (indices (_num_enabled_pqs s))
              (_ties s, MetaKey_min))
    as (r & Hr & Hle & Hall & HB & HC & HD & _).
  { intros i Hi%elem_of_indices. by apply Hne. }
  unfold maxIndexRandomTieBreaking. rewrite Hr, bind_ret. simpl in *.
  pose proof (Hall i0 k0 ltac:(by apply elem_of_indices) Hk0) as Hk0r.
  destruct HC as [Hlen [m0 Hm0]]; [lia|].
  rewrite length_indices in Hlen.
  assert (Hsize : 0 < Vec.size (fst r) < 2 ^ 64).
  { unfold Vec.size, kInvalidIndex in *. destruct (fst r); [by apply elem_of_nil in Hm0|].
    simpl in *. lia. }
  rewrite size_t_dec_pos by lia.
  destruct (Vec.get_lt_is_Some (fst r) (getRandomInt 0 (Vec.size (fst r) - 1)))
    as [m Hm].
  { pose proof (Hrand (Vec.size (fst r) - 1)). lia. }
  rewrite Hm, bind_ret. exists m, (snd r), (fst r). split; [done|].
  assert (m ∈ fst r) as Hin.
  { rewrite Vec.get_lookup in Hm. by eapply list_elem_of_lookup_2. }
  destruct (HB m Hin) as [[Hml Hkm]|[_ ?]]; [|lia].
  apply elem_of_indices in Hml. split_and!; try done; [lia|].
  intros i k' Hi Hk'. apply (Hall i k'); [by apply elem_of_indices|done].
Qed.

End selection.

Lemma with_ties_id s : with_ties s (_ties s) = s.
Proof. by destruct s. Qed.

Lemma wf_with_ties s l : wf s → wf (with_ties s l).
Proof. intros [[] ? ? ? ?]. split; [split|..]; done. Qed.

Lemma enabled_position s q :
  wf s → is_part s q → enabled s q = true →
  ∃ i h, get_index s (Z.to_N q) = Some i ∧ i < _num_enabled_pqs s ∧
    get_part s i = Some q ∧ get_queue s i = Some h ∧ h ≠ [] ∧ subqueue s q = h.
Proof.
  intros Hwf Hq Hen.
  destruct (wf_position s q Hwf Hq) as (i & Hi & _ & Hor).
  destruct Hor as [(_ & _ & ?)|(Hlt & Hpi & h & Hh & Hne & Hsub & Hen')]; [congruence|].
  rewrite Hen in Hen'. symmetry in Hen'. apply N.ltb_lt in Hen'.
  by exists i, h.
Qed.

Lemma position_enabled s i :
  wf s → i < _num_enabled_pqs s →
  ∃ q h, is_part s q ∧ get_part s i = Some q ∧ get_index s (Z.to_N q) = Some i ∧
    enabled s q = true ∧ get_queue s i = Some h ∧ h ≠ [] ∧ subqueue s q = h.
Proof.
  intros Hwf Hi. destruct (wf_counters _ Hwf) as [Hc1 Hc2].
  destruct (linked_part _ _ (wf_linked _ Hwf) i ltac:(lia)) as (q & Hq & Hqr & Hqi).
  destruct (wf_nonempty _ Hwf i ltac:(lia)) as (h & Hh & Hne).
  exists q, h. split_and!; try done.
  - unfold enabled. rewrite Hqi. by apply N.ltb_lt.
  - unfold subqueue. rewrite Hqi, Hh.
    destruct (N.ltb_spec i (_num_nonempty_pqs s)); [done|lia].
Qed.

Lemma retire_unlink s p i :
  valid_part s p = true → get_index s (to_size_t p) = Some i →
  i < _num_enabled_pqs s → _num_enabled_pqs s ≤ _num_nonempty_pqs s →
  _num_nonempty_pqs s < 2 ^ 64 →
  retire p s =
  recount (_num_enabled_pqs s - 1) (_num_nonempty_pqs s - 1) <$>
    unlink (Some (_num_enabled_pqs s - 1)) (_num_nonempty_pqs s - 1) p s.
Proof.
  intros Hv Hi Hlt Hle Hn.
  unfold retire, unlink, isEnabled. rewrite Hv, bind_ASSERT, Hi, bind_ret.
  apply N.ltb_lt in Hlt as Hlt'. rewrite Hlt', bind_ret, bind_ASSERT.
  rewrite !size_t_dec_pos by (simpl; lia).
  change (with_num_nonempty_pqs (with_num_enabled_pqs s ?e) ?n) with (recount e n s).
  change (get_index (recount ?e ?n s) ?x) with (get_index s x).
  rewrite Hi, !bind_ret.
  change (_num_enabled_pqs (recount ?e ?n s)) with e.
  rewrite swap_recount.
  destruct (swap i (_num_enabled_pqs s - 1) s) as [s1|]; [|done]. simpl.
  change (get_index (recount ?e ?n s1) ?x) with (get_index s1 x).
  destruct (get_index s1 (to_size_t p)) as [i1|]; [|done]. simpl.
  rewrite swap_recount.
  destruct (swap i1 (_num_nonempty_pqs s - 1) s1) as [s2|]; [|done]. simpl.
  apply markUnused_recount.
Qed.

(** the greatest entry of the sub-queue at an enabled position is taken out:
    the statements that [deleteMax] and [deleteMaxFromPartition] share *)
Definition take_top (i : N) (p : Z) (h : Heap.t) (s : t) : option t :=
  q ← Heap.pop h;
  s ← set_queue s i q;
  q ← get_queue s i;
  s ← (if Heap.empty q then retire p s else Some s);
  Some (with_num_entries s (size_t_dec (_num_entries s))).

Lemma take_top_spec s p i h top :
  wf s → is_part s p → get_index s (Z.to_N p) = Some i →
  i < _num_enabled_pqs s → get_queue s i = Some h → Heap.top_entry h = Some top →
  ∃ s', take_top i p h s = Some s' ∧ wf s' ∧ k_of s' = k_of s ∧
    total s' + 1 = total s ∧
    (∀ q, is_part s q →
       subqueue s' q = if decide (q = p) then Heap.erase (Heap.entry_eqb top) h
                       else subqueue s q) ∧
    (∀ q, is_part s q →
       enabled s' q = if decide (q = p)
                      then negb (Heap.empty (Heap.erase (Heap.entry_eqb top) h))
                      else enabled s q).
Proof.
  intros Hwf Hp Hi Hlt Hq Htop. pose proof (wf_k _ Hwf) as Hk.
  destruct (wf_counters _ Hwf) as [Hc1 Hc2].
  assert (Hpop : Heap.pop h = Some (Heap.erase (Heap.entry_eqb top) h)).
  { unfold Heap.pop. by rewrite Htop. }
  pose proof (Heap.size_pop _ _ Hpop) as Hsz.
  set (h' := Heap.erase (Heap.entry_eqb top) h) in *.
  unfold take_top. rewrite Hpop, bind_ret.
  destruct (set_queue_is_Some s i h') as [sA EA]; [unfold k_of in *; lia|].
  rewrite EA, bind_ret.
  pose proof (TA := total_set_queue _ _ _ _ _ Hq EA).
  pose proof EA as (FA & PA & IA & QA)%set_queue_spec.
  rewrite QA, decide_True, bind_ret by done.
  destruct h' as [|x h''] eqn:Hh'.
  - (* the sub-queue has run empty *)
    simpl Heap.empty. cbv iota.
    assert (Hsz1 : Heap.size h = 1) by (unfold Heap.size in *; simpl in *; lia).
    destruct (emptied_spec s p i h sA Hwf Hp Hi ltac:(lia) Hq Hsz1 EA)
      as (s' & Hun & Hent & _ & Hs').
    apply N.ltb_lt in Hlt as Hlt'. rewrite Hlt' in Hun, Hs'.
    rewrite (retire_unlink sA p i).
    + rewrite (frame_enabled _ _ FA), (frame_nonempty _ _ FA), Hun.
      simpl. eexists. split; [done|].
      destruct (Hs' _ eq_refl) as (W & K & T & _ & V1 & V2).
      simpl in *. rewrite Hent. split_and!; try done.
    + unfold valid_part. rewrite (frame_queues_size _ _ FA).
      by apply valid_part_true.
    + rewrite IA, to_size_t_id by (unfold is_part in Hp; lia). done.
    + by rewrite (frame_enabled _ _ FA).
    + by rewrite (frame_enabled _ _ FA), (frame_nonempty _ _ FA).
    + rewrite (frame_nonempty _ _ FA). unfold k_of in *. lia.
  - simpl Heap.empty. cbv iota. rewrite bind_ret.
    eexists. split; [done|].
    assert (Ht : total sA + 1 = total s).
    { unfold Heap.size in *. simpl in *. lia. }
    destruct (replace_queue s (with_num_entries sA (size_t_dec (_num_entries sA)))
                p i h (x :: h'')) as (W & V1 & V2); try done.
    + lia.
    + apply (frame_mapping_size _ _ FA).
    + apply (frame_queues_size _ _ FA).
    + apply (frame_nonempty _ _ FA).
    + apply (frame_enabled _ _ FA).
    + change (total (with_num_entries sA _)) with (total sA). simpl.
      rewrite (frame_entries _ _ FA), (wf_entries _ Hwf), size_t_dec_mod by lia.
      f_equal. lia.
    + split_and!; try done.
      * apply (frame_queues_size _ _ FA).
      * intros q Hq'. rewrite V2 by done. case_decide; [subst q|done].
        simpl. unfold enabled. rewrite Hi. by apply N.ltb_lt.
Qed.

Lemma take_top_tail {A} (f : t → A) i p h s :
  (q ← Heap.pop h;
   s ← set_queue s i q;
   q ← get_queue s i;
   s ← (if Heap.empty q then retire p s else Some s);
   Some (f (with_num_entries s (size_t_dec (_num_entries s)))))
  = f <$> take_top i p h s.
Proof.
  unfold take_top. destruct (Heap.pop h) as [q|]; [|done]. simpl.
  destruct (set_queue s i q) as [s1|]; [|done]. simpl.
  destruct (get_queue s1 i) as [q1|]; [|done]. simpl.
  by destruct (if Heap.empty q1 then retire p s1 else Some s1).
Qed.

Section operations.

Variable MetaKey_min MetaKey_max : Z.
Variable UseRandomTieBreaking : bool.
Variable getRandomInt : N → N → N.

Lemma key_at_subqueue s q i h :
  wf s → is_part s q → get_index s (Z.to_N q) = Some i → get_queue s i = Some h →
  ∀ k, key_at s i k ↔ Heap.topKey h = Some k.
Proof.
  intros Hwf Hq Hi Hh k. split.
  - intros (h' & Hh' & Hk). congruence.
  - intros Hk. by exists h.
Qed.

Lemma deleteMax_spec s :
  wf s →
  (UseRandomTieBreaking = true → ∀ hi, getRandomInt 0 hi ≤ hi) →
  (∃ q e, is_part s q ∧ enabled s q = true ∧ e ∈ subqueue s q ∧ (MetaKey_min < snd e)%Z) →
  (∀ q e, is_part s q → enabled s q = true → e ∈ subqueue s q → snd e ≠ MetaKey_max) →
  ∃ id key p s',
    deleteMax MetaKey_min MetaKey_max UseRandomTieBreaking getRandomInt s
    = Some (id, key, p, s') ∧ wf s' ∧ k_of s' = k_of s ∧
    total s' + 1 = total s ∧
    is_part s p ∧ enabled s p = true ∧
    Heap.top_entry (subqueue s p) = Some (id, key) ∧
    (∀ q e, is_part s q → enabled s q = true → e ∈ subqueue s q → (snd e ≤ key)%Z) ∧
    (∀ q, is_part s q →
       subqueue s' q =
       if decide (q = p) then Heap.erase (Heap.entry_eqb (id, key)) (subqueue s p)
       else subqueue s q) ∧
    (∀ q, is_part s q →
       enabled s' q =
       if decide (q = p)
       then negb (Heap.empty (Heap.erase (Heap.entry_eqb (id, key)) (subqueue s p)))
       else enabled s q).
Proof.
  intros Hwf Hrand (q0 & e0 & Hq0 & Hen0 & He0 & Hgt0) Hmax.
  pose proof (wf_k _ Hwf) as Hk.
  destruct (wf_counters _ Hwf) as [Hc1 Hc2].
  destruct (enabled_position s q0 Hwf Hq0 Hen0) as (i0 & h0 & Hi0 & Hlt0 & Hp0 & Hh0 & Hne0 & Hs0).
  (* the choice of the position *)
  assert (∃ m k ties,
    (if UseRandomTieBreaking then maxIndexRandomTieBreaking MetaKey_min getRandomInt s
     else i ← maxIndex MetaKey_min s; Some (i, s)) = Some (m, with_ties s ties) ∧
    m < _num_enabled_pqs s ∧ key_at s m k ∧ (MetaKey_min < k)%Z ∧
    (∀ i k', i < _num_enabled_pqs s → key_at s i k' → (k' ≤ k)%Z))
    as (m & k & ties & Hsel & Hm & Hkm & Hkgt & Hkmax).
  { assert (Hsome : ∃ i k, i < _num_enabled_pqs s ∧ key_at s i k ∧ (MetaKey_min < k)%Z).
    { destruct (Heap.top_entry_is_Some h0 Hne0) as [[id k] Htop].
      exists i0, k. split; [done|]. split.
      - exists h0. split; [done|]. unfold Heap.topKey. by rewrite Htop.
      - rewrite Hs0 in He0. pose proof (Heap.top_entry_max _ _ _ Htop He0). simpl in *. lia. }
    assert (Hne : ∀ i, i < _num_enabled_pqs s → ∃ q, get_queue s i = Some q ∧ q ≠ []).
    { intros i Hi. apply (wf_nonempty _ Hwf). lia. }
    assert (HE : _num_enabled_pqs s < kInvalidIndex) by (unfold kInvalidIndex; lia).
    destruct UseRandomTieBreaking.
    - destruct (maxIndexRandomTieBreaking_spec MetaKey_min getRandomInt s HE
                  (Hrand eq_refl) Hne Hsome) as (m & k & ties & ?).
      by exists m, k, ties.
    - destruct (maxIndex_spec MetaKey_min s HE Hne Hsome) as (m & k & H1 & ?).
      exists m, k, (_ties s). rewrite H1, bind_ret, with_ties_id. done. }
  unfold deleteMax. rewrite Hsel, bind_ret. simpl fst. simpl snd.
  set (s0 := with_ties s ties).
  assert (Hwf0 : wf s0) by (by apply wf_with_ties).
  change (_num_enabled_pqs s0) with (_num_enabled_pqs s).
  apply N.ltb_lt in Hm as Hm'. rewrite Hm', bind_ASSERT.
  destruct (position_enabled s m Hwf Hm) as (p & h & Hp & Hpm & Hip & Henp & Hh & Hne & Hsub).
  change (get_part s0 ?i) with (get_part s i).
  change (get_queue s0 ?i) with (get_queue s i).
  change (get_index s0 ?i) with (get_index s i).
  rewrite Hpm, bind_ret, Hh, bind_ret.
  destruct (Heap.top_entry_is_Some h Hne) as [[id key] Htop].
  unfold Heap.top, Heap.topKey. rewrite Htop. simpl fmap. rewrite !bind_ret.
  rewrite to_size_t_id by (unfold is_part in Hp; lia).
  rewrite Hip, bind_ret, Hpm, bind_ret, Z.eqb_refl, bind_ASSERT.
  assert ((m =? kInvalidIndex) = false) as ->
    by (apply N.eqb_neq; unfold kInvalidIndex; lia).
  simpl negb. rewrite bind_ASSERT.
  assert (key = k) as ->.
  { destruct Hkm as (h' & Hh' & Hk'). rewrite Hh in Hh'. injection Hh' as <-.
    unfold Heap.topKey in Hk'. rewrite Htop in Hk'. by injection Hk'. }
  assert ((k =? MetaKey_max)%Z = false) as ->.
  { apply Z.eqb_neq. apply (Hmax p (id, k)); [done|done|].
    rewrite Hsub. by apply Heap.top_entry_elem. }
  simpl negb. rewrite bind_ASSERT.
  assert ((p =? kInvalidPart)%Z = false) as ->.
  { apply Z.eqb_neq. unfold is_part, kInvalidPart in *. lia. }
  simpl negb. rewrite bind_ASSERT.
  change (valid_part s0 p) with (valid_part s p).
  rewrite valid_part_true, bind_ASSERT by done.
  rewrite (take_top_tail (λ s', (id, k, p, s'))).
  destruct (take_top_spec s0 p m h (id, k)) as (s' & Ht & W & K & T & V1 & V2); try done.
  rewrite Ht. exists id, k, p, s'. split; [done|].
  rewrite Hsub. split_and!; try done.
  intros q e Hq Hen He.
  destruct (enabled_position s q Hwf Hq Hen) as (i & hq & Hi & Hlt & Hpi & Hhq & Hneq & Hsq).
  destruct (Heap.top_entry_is_Some hq Hneq) as [[id' k'] Htop'].
  rewrite Hsq in He. pose proof (Heap.top_entry_max _ _ _ Htop' He) as Hle. simpl in Hle.
  assert (k' ≤ k)%Z; [|lia]. apply (Hkmax i k' Hlt).
  exists hq. split; [done|]. unfold Heap.topKey. by rewrite Htop'.
Qed.

Lemma deleteMaxFromPartition_spec s p :
  wf s → is_part s p → enabled s p = true →
  (∀ e, e ∈ subqueue s p → snd e ≠ MetaKey_max) →
  ∃ id key s', deleteMaxFromPartition MetaKey_max p s = Some (id, key, s') ∧
    wf s' ∧ k_of s' = k_of s ∧ total s' + 1 = total s ∧
    Heap.top_entry (subqueue s p) = Some (id, key) ∧
    (∀ q, is_part s q →
       subqueue s' q =
       if decide (q = p) then Heap.erase (Heap.entry_eqb (id, key)) (subqueue s p)
       else subqueue s q) ∧
    (∀ q, is_part s q →
       enabled s' q =
       if decide (q = p)
       then negb (Heap.empty (Heap.erase (Heap.entry_eqb (id, key)) (subqueue s p)))
       else enabled s q).
Proof.
  intros Hwf Hp Hen Hmax. pose proof (wf_k _ Hwf) as Hk.
  destruct (wf_counters _ Hwf) as [Hc1 Hc2].
  destruct (enabled_position s p Hwf Hp Hen) as (i & h & Hi & Hlt & Hpi & Hh & Hne & Hsub).
  unfold deleteMaxFromPartition.
  rewrite valid_part_true, bind_ASSERT by done.
  rewrite to_size_t_id by (unfold is_part in Hp; lia).
  rewrite Hi, bind_ret.
  apply N.ltb_lt in Hlt as Hlt'. rewrite Hlt', bind_ASSERT, Hh, bind_ret.
  destruct (Heap.top_entry_is_Some h Hne) as [[id key] Htop].
  unfold Heap.top, Heap.topKey. rewrite Htop. simpl fmap. rewrite !bind_ret.
  rewrite ?bind_ret, Hpi, bind_ret, Z.eqb_refl, bind_ASSERT.
  assert ((i =? kInvalidIndex) = false) as ->
    by (apply N.eqb_neq; unfold kInvalidIndex; lia).
  simpl negb. rewrite bind_ASSERT.
  assert ((key =? MetaKey_max)%Z = false) as ->.
  { apply Z.eqb_neq. apply (Hmax (id, key)). rewrite Hsub. by apply Heap.top_entry_elem. }
  simpl negb. rewrite bind_ASSERT.
  assert ((p =? kInvalidPart)%Z = false) as ->.
  { apply Z.eqb_neq. unfold is_part, kInvalidPart in *. lia. }
  simpl negb. rewrite bind_ASSERT.
  rewrite (take_top_tail (λ s', (id, key, s'))).
  destruct (take_top_spec s p i h (id, key)) as (s' & Ht & W & K & T & V1 & V2); try done.
  rewrite Ht. exists id, key, s'. split; [done|].
  rewrite Hsub. by split_and!.
Qed.

End operations.

Lemma swap_with_num_enabled_pqs a b e s :
  swap a b (with_num_enabled_pqs s e) = (λ s, with_num_enabled_pqs s e) <$> swap a b s.
Proof.
  unfold swap, get_queue, set_queue, get_part, get_index, set_part, set_index.
  simpl. sync.
  match goal with |- context [ASSERT ?c] => destruct c end; done.
Qed.

Lemma recount_enabled s n :
  with_num_nonempty_pqs s n = recount (_num_enabled_pqs s) n s.
Proof. by destruct s. Qed.

Lemma set_queue_same s i q : get_queue s i = Some q → set_queue s i q = Some s.
Proof.
  unfold get_queue, set_queue. intros H. rewrite (Vec.set_same _ _ _ H). by destruct s.
Qed.

Lemma linked_set_queue s i q sA n :
  set_queue s i q = Some sA → linked s n → linked sA n.
Proof.
  intros (FA & PA & IA & QA)%set_queue_spec [L1 L2 L3 L4].
  assert (HkA : k_of sA = k_of s) by apply (frame_queues_size _ _ FA).
  split; rewrite ?HkA, ?(frame_mapping_size _ _ FA); try done.
  - intros j Hj. rewrite PA. destruct (L2 j Hj) as (q' & ? & ? & ?).
    exists q'. by rewrite IA.
  - intros j Hj1 Hj2. rewrite PA. by apply L3.
  - intros q' Hq'. destruct (L4 q' Hq') as (j & ? & ?). exists j. by rewrite IA, PA.
Qed.

Lemma remove_spec s id p :
  wf s → is_part s p → Heap.contains (subqueue s p) id = true →
  ∃ s', remove id p s = Some s' ∧ wf s' ∧ k_of s' = k_of s ∧
    total s' + 1 = total s ∧
    (∀ q, is_part s q →
       subqueue s' q =
       if decide (q = p) then Heap.erase (λ e, fst e =? id) (subqueue s p)
       else subqueue s q) ∧
    (∀ q, is_part s q →
       enabled s' q =
       if decide (q = p)
       then enabled s p && negb (Heap.empty (Heap.erase (λ e, fst e =? id) (subqueue s p)))
       else enabled s q).
Proof.
  intros Hwf Hp Hc. pose proof (wf_k _ Hwf) as Hk.
  destruct (wf_counters _ Hwf) as [Hc1 Hc2].
  destruct (wf_position s p Hwf Hp) as (i & Hi & Ht & Hor).
  destruct Hor as [(_ & Hsub & _)|(Hlt & Hpi & h & Hh & Hne & Hsub & Hen)].
  { by rewrite Hsub in Hc. }
  rewrite Hsub in *.
  unfold remove. rewrite valid_part_true, bind_ASSERT, Ht, Hi, bind_ret by done.
  apply N.ltb_lt in Hlt as Hlt'. rewrite Hlt', bind_ASSERT, Hh, bind_ret, Hc, bind_ASSERT.
  unfold Heap.remove. rewrite Hc, bind_ret.
  set (h' := Heap.erase (λ e, fst e =? id) h) in *.
  assert (Hsz : N.succ (Heap.size h') = Heap.size h).
  { apply (Heap.size_remove h id). unfold Heap.remove. by rewrite Hc. }
  destruct (set_queue_is_Some s i h') as [sA EA]; [unfold k_of in *; lia|].
  rewrite EA, bind_ret.
  pose proof (TA := total_set_queue _ _ _ _ _ Hh EA).
  pose proof EA as (FA & PA & IA & QA)%set_queue_spec.
  rewrite IA, Hi, bind_ret, QA, decide_True, bind_ret by done.
  destruct h' as [|x h''] eqn:Hh'.
  - (* the sub-queue has run empty *)
    simpl Heap.empty. cbv iota.
    assert (Hsz1 : Heap.size h = 1) by (unfold Heap.size in *; simpl in *; lia).
    destruct (emptied_spec s p i h sA Hwf Hp Hi ltac:(lia) Hh Hsz1 EA)
      as (s' & Hun & Hent & Hena & Hs').
    destruct (Hs' _ eq_refl) as (W & K & T & _ & V1 & V2). clear Hs'.
    assert (HvA : valid_part sA p = true).
    { unfold valid_part. rewrite (frame_queues_size _ _ FA). by apply valid_part_true. }
    unfold isEnabled. rewrite HvA, bind_ASSERT, Ht, IA, Hi, bind_ret.
    rewrite (frame_enabled _ _ FA).
    unfold unlink in Hun. rewrite Ht in Hun.
    assert (LA : linked sA (_num_nonempty_pqs s))
      by (eapply linked_set_queue; [done|apply Hwf]).
    assert (HkA : k_of sA = k_of s) by apply (frame_queues_size _ _ FA).
    assert (HpA : is_part sA p) by (unfold is_part; by rewrite HkA).
    assert (HcA : content sA p = Some []).
    { unfold content. rewrite IA, Hi, bind_ret, QA. by rewrite decide_True. }
    (* the last two statements of the branch, on a state whose counters are [e] and [n] *)
    assert (Hlast : ∀ s1 e, _num_nonempty_pqs s1 = _num_nonempty_pqs s →
              content s1 p = Some [] →
              (get_index s1 (Z.to_N p) ≫= λ i, swap i (_num_nonempty_pqs s - 1) s1
                 ≫= λ s2, markUnused p s2) = Some s' →
              (get_index (with_num_enabled_pqs s1 e) (Z.to_N p) ≫= λ i,
               get_queue (with_num_enabled_pqs s1 e) i ≫= λ q,
               set_queue (with_num_enabled_pqs s1 e) i (Heap.clear q) ≫= λ s2,
               get_index (with_num_nonempty_pqs s2 (size_t_dec (_num_nonempty_pqs s2)))
                         (Z.to_N p) ≫= λ i,
               swap i (_num_nonempty_pqs
                         (with_num_nonempty_pqs s2 (size_t_dec (_num_nonempty_pqs s2))))
                    (with_num_nonempty_pqs s2 (size_t_dec (_num_nonempty_pqs s2)))
                 ≫= λ s3, markUnused p s3)
              = Some (recount e (_num_nonempty_pqs s - 1) s')).
    { intros s1 e Hn1 Hc1' Hun1. unfold content in Hc1'.
      change (get_index (with_num_enabled_pqs s1 e) ?x) with (get_index s1 x).
      change (get_queue (with_num_enabled_pqs s1 e) ?x) with (get_queue s1 x).
      destruct (get_index s1 (Z.to_N p)) as [i1|] eqn:Hi1; [|done].
      rewrite ?Hi1, bind_ret in Hc1'. rewrite ?Hi1, bind_ret in Hun1.
      rewrite bind_ret, Hc1', bind_ret.
      change (Heap.clear []) with (@nil Heap.entry).
      rewrite (set_queue_same _ i1 []) by done. rewrite bind_ret.
      change (_num_nonempty_pqs (with_num_enabled_pqs s1 e)) with (_num_nonempty_pqs s1).
      rewrite Hn1, size_t_dec_pos by lia.
      change (with_num_nonempty_pqs (with_num_enabled_pqs s1 e) ?n) with (recount e n s1).
      change (get_index (recount ?e ?n s1) ?x) with (get_index s1 x).
      rewrite Hi1, bind_ret.
      change (_num_nonempty_pqs (recount ?e ?n s1)) with n.
      rewrite swap_recount.
      destruct (swap i1 (_num_nonempty_pqs s - 1) s1) as [s2|] eqn:Hsw2; [|done].
      rewrite bind_ret in Hun1. simpl fmap. rewrite bind_ret, markUnused_recount, Hun1.
      done. }
    destruct (N.ltb_spec i (_num_enabled_pqs s)) as [Hie|Hie].
    + rewrite bind_ret. rewrite size_t_dec_pos by lia.
      change (get_index (with_num_enabled_pqs sA ?e) ?x) with (get_index sA x).
      rewrite IA, Hi, bind_ret.
      change (_num_enabled_pqs (with_num_enabled_pqs sA ?e)) with e.
      rewrite swap_with_num_enabled_pqs.
      rewrite IA, Hi, bind_ret in Hun.
      destruct (swap i (_num_enabled_pqs s - 1) sA) as [s1|] eqn:Hsw1; [|done].
      rewrite bind_ret in Hun. simpl fmap. rewrite bind_ret.
      destruct (swap_parts sA (_num_nonempty_pqs s) i (_num_enabled_pqs s - 1))
        as (s1' & pa & pb & Hsw & Hpa & Hpb & _ & _ & F1 & T1 & L1 & I1 & C1 & Q1);
        [done|lia|lia|lia|].
      assert (s1' = s1) as -> by congruence.
      rewrite (Hlast s1 (_num_enabled_pqs s - 1)); [| |by rewrite C1|done].
      2:{ by rewrite (frame_nonempty _ _ F1), (frame_nonempty _ _ FA). }
      rewrite bind_ret. eexists. split; [done|].
      simpl _num_entries. rewrite Hent. split_and!; try done.
      intros q Hq'. rewrite V2 by done. case_decide; [|done].
      by rewrite andb_false_r.
    + rewrite !bind_ret.
      pose proof (Hlast sA (_num_enabled_pqs sA)) as HL.
      replace (with_num_enabled_pqs sA (_num_enabled_pqs sA)) with sA in HL
        by (by destruct sA).
      rewrite HL; [|by rewrite (frame_nonempty _ _ FA)|done|].
      2:{ by rewrite bind_ret in Hun. }
      rewrite bind_ret. eexists. split; [done|].
      simpl _num_entries. rewrite Hent, (frame_enabled _ _ FA). split_and!; try done.
      intros q Hq'. rewrite V2 by done. case_decide; [|done].
      by rewrite andb_false_r.
  - simpl Heap.empty. cbv iota. rewrite bind_ret.
    eexists. split; [done|].
    assert (Ht' : total sA + 1 = total s).
    { unfold Heap.size in *. simpl in *. lia. }
    destruct (replace_queue s (with_num_entries sA (size_t_dec (_num_entries sA)))
                p i h (x :: h'')) as (W & V1 & V2); try done.
    + apply (frame_mapping_size _ _ FA).
    + apply (frame_queues_size _ _ FA).
    + apply (frame_nonempty _ _ FA).
    + apply (frame_enabled _ _ FA).
    + change (total (with_num_entries sA _)) with (total sA). simpl.
      rewrite (frame_entries _ _ FA), (wf_entries _ Hwf), size_t_dec_mod by lia.
      f_equal. lia.
    + split_and!; try done.
      * apply (frame_queues_size _ _ FA).
      * intros q Hq'. rewrite V2 by done. case_decide; [subst q|done].
        simpl. by rewrite andb_true_r.
Qed.

Lemma Heap_contains_nonempty h id : Heap.contains h id = true → h ≠ [].
Proof. by destruct h. Qed.

(** an update of the key of one entry of a sub-queue *)
Lemma rekey_spec s p id (f : Heap.entry → Heap.entry) s' :
  wf s → is_part s p → Heap.contains (subqueue s p) id = true →
  (i ← get_index s (to_size_t p);
   ASSERT (i <? _num_nonempty_pqs s);;
   q ← get_queue s i;
   q ← (if Heap.contains q id then Some (map f q) else None);
   set_queue s i q) = Some s' →
  wf s' ∧ k_of s' = k_of s ∧ total s' = total s ∧
  (∀ q, is_part s q →
     subqueue s' q = if decide (q = p) then map f (subqueue s p) else subqueue s q) ∧
  (∀ q, is_part s q → enabled s' q = enabled s q).
Proof.
  intros Hwf Hp Hc. pose proof (wf_k _ Hwf) as Hk.
  destruct (wf_counters _ Hwf) as [Hc1 Hc2].
  destruct (wf_position s p Hwf Hp) as (i & Hi & Ht & Hor).
  destruct Hor as [(_ & Hsub & _)|(Hlt & Hpi & h & Hh & Hne & Hsub & Hen)].
  { by rewrite Hsub in Hc. }
  rewrite Hsub in *. rewrite Ht, Hi, bind_ret.
  apply N.ltb_lt in Hlt as Hlt'. rewrite Hlt', bind_ASSERT, Hh, bind_ret, Hc, bind_ret.
  intros EA.
  pose proof (TA := total_set_queue _ _ _ _ _ Hh EA).
  pose proof EA as (FA & PA & IA & QA)%set_queue_spec.
  assert (Hsz : Heap.size (map f h) = Heap.size h).
  { unfold Heap.size. by rewrite length_map. }
  destruct (replace_queue s s' p i h (map f h)) as (W & V1 & V2); try done.
  - by destruct h.
  - apply (frame_mapping_size _ _ FA).
  - apply (frame_queues_size _ _ FA).
  - apply (frame_nonempty _ _ FA).
  - apply (frame_enabled _ _ FA).
  - rewrite (frame_entries _ _ FA), (wf_entries _ Hwf). f_equal. lia.
  - split_and!; try done; [apply (frame_queues_size _ _ FA)|lia].
Qed.

Lemma rekey_is_Some s p id (f : Heap.entry → Heap.entry) :
  wf s → is_part s p → Heap.contains (subqueue s p) id = true →
  is_Some (i ← get_index s (to_size_t p);
           ASSERT (i <? _num_nonempty_pqs s);;
           q ← get_queue s i;
           q ← (if Heap.contains q id then Some (map f q) else None);
           set_queue s i q).
Proof.
  intros Hwf Hp Hc. pose proof (wf_k _ Hwf) as Hk.
  destruct (wf_counters _ Hwf) as [Hc1 Hc2].
  destruct (wf_position s p Hwf Hp) as (i & Hi & Ht & Hor).
  destruct Hor as [(_ & Hsub & _)|(Hlt & Hpi & h & Hh & Hne & Hsub & Hen)].
  { by rewrite Hsub in Hc. }
  rewrite Hsub in *. rewrite Ht, Hi, bind_ret.
  apply N.ltb_lt in Hlt as Hlt'. rewrite Hlt', bind_ASSERT, Hh, bind_ret, Hc, bind_ret.
  apply set_queue_is_Some. unfold k_of in *. lia.
Qed.

Lemma updateKey_spec s id p key :
  wf s → is_part s p → Heap.contains (subqueue s p) id = true →
  ∃ s', updateKey id p key s = Some s' ∧ wf s' ∧ k_of s' = k_of s ∧
    total s' = total s ∧
    (∀ q, is_part s q →
       subqueue s' q =
       if decide (q = p)
       then map (λ e : Heap.entry, if fst e =? id then (id, key) else e) (subqueue s p)
       else subqueue s q) ∧
    (∀ q, is_part s q → enabled s' q = enabled s q).
Proof.
  intros Hwf Hp Hc.
  destruct (rekey_is_Some s p id (λ e : Heap.entry, if fst e =? id then (id, key) else e)
              Hwf Hp Hc) as [s' Hs'].
  exists s'. split.
  - unfold updateKey, Heap.updateKey.
    rewrite valid_part_true, bind_ASSERT by (done || by apply wf_k). exact Hs'.
  - by eapply rekey_spec.
Qed.

Lemma updateKeyBy_spec s id p key_delta :
  wf s → is_part s p → Heap.contains (subqueue s p) id = true →
  ∃ s', updateKeyBy id p key_delta s = Some s' ∧ wf s' ∧ k_of s' = k_of s ∧
    total s' = total s ∧
    (∀ q, is_part s q →
       subqueue s' q =
       if decide (q = p)
       then map (λ e : Heap.entry,
                   if fst e =? id then (id, (snd e + key_delta)%Z) else e) (subqueue s p)
       else subqueue s q) ∧
    (∀ q, is_part s q → enabled s' q = enabled s q).
Proof.
  intros Hwf Hp Hc.
  destruct (rekey_is_Some s p id
              (λ e : Heap.entry, if fst e =? id then (id, (snd e + key_delta)%Z) else e)
              Hwf Hp Hc) as [s' Hs'].
  exists s'. split.
  - unfold updateKeyBy, Heap.updateKeyBy.
    rewrite valid_part_true, bind_ASSERT by (done || by apply wf_k). exact Hs'.
  - by eapply rekey_spec.
Qed.

Lemma clear_body_spec s i :
  i < Vec.size (_mapping s) → i < Vec.size (_queues s) →
  ∃ s', clear_body s i = Some s' ∧ frame s s' ∧
    (∀ j, get_part s' j = if decide (i = j) then Some kInvalidPart else get_part s j) ∧
    (∀ j, get_index s' j = if decide (i = j) then Some kInvalidIndex else get_index s j) ∧
    (∀ j, get_queue s' j = if decide (i = j) then Some [] else get_queue s j).
Proof.
  intros Hm Hq. unfold clear_body.
  destruct (Vec.set_lt_is_Some (_mapping s) i
              {| part := kInvalidPart; index := kInvalidIndex |} Hm) as [l Hl].
  rewrite Hl. simpl fmap. rewrite bind_ret.
  destruct (Vec.get_lt_is_Some (_queues s) i Hq) as [q Hq'].
  change (get_queue (with_mapping s l) i) with (Vec.get (_queues s) i).
  rewrite Hq', bind_ret.
  destruct (set_queue_is_Some (with_mapping s l) i (Heap.clear q)) as [s' Hs']; [done|].
  rewrite Hs'. exists s'. split; [done|].
  apply set_queue_spec in Hs' as (F & P & I & Q).
  split_and!.
  - destruct F. split; try done. simpl in *. rewrite frame_mapping_size0.
    by eapply Vec.size_set.
  - intros j. rewrite P. unfold get_part. simpl. rewrite (Vec.get_set _ _ _ j _ Hl).
    by case_decide.
  - intros j. rewrite I. unfold get_index. simpl. rewrite (Vec.get_set _ _ _ j _ Hl).
    by case_decide.
  - intros j. rewrite Q. by case_decide.
Qed.

Lemma clear_fold l s :
  (∀ i, i ∈ l → i < Vec.size (_mapping s) ∧ i < Vec.size (_queues s)) →
  ∃ s', foldM clear_body s l = Some s' ∧ frame s s' ∧
    (∀ j, get_part s' j = if decide (j ∈ l) then Some kInvalidPart else get_part s j) ∧
    (∀ j, get_index s' j = if decide (j ∈ l) then Some kInvalidIndex else get_index s j) ∧
    (∀ j, get_queue s' j = if decide (j ∈ l) then Some [] else get_queue s j).
Proof.
  revert s. induction l as [|i l IH]; intros s Hl.
  - exists s. split; [done|]. split; [apply frame_refl|].
    split_and!; intros j; rewrite decide_False; try done; apply not_elem_of_nil.
  - destruct (Hl i ltac:(left)) as [Hm Hq].
    destruct (clear_body_spec s i Hm Hq) as (s1 & H1 & F1 & P1 & I1 & Q1).
    destruct (IH s1) as (s' & H' & F' & P' & I' & Q').
    { intros j Hj. rewrite (frame_mapping_size _ _ F1), (frame_queues_size _ _ F1).
      apply Hl. by right. }
    exists s'. simpl. rewrite H1, bind_ret. split; [done|].
    split; [by eapply frame_trans|].
    split_and!; intros j; rewrite ?P', ?I', ?Q', ?P1, ?I1, ?Q1;
      destruct (decide (j ∈ l)) as [Hjl|Hjl];
      destruct (decide (i = j)) as [->|Hij];
      try (rewrite decide_True; [done|]; (left || by right));
      rewrite decide_False; try done;
      by intros [->|?]%elem_of_cons.
Qed.

Lemma clear_spec s :
  wf s →
  ∃ s', clear s = Some s' ∧ wf s' ∧ k_of s' = k_of s ∧ total s' = 0 ∧
    (∀ q, is_part s q → subqueue s' q = []) ∧
    (∀ q, is_part s q → enabled s' q = false).
Proof.
  intros Hwf. pose proof (wf_k _ Hwf) as Hk.
  destruct (wf_counters _ Hwf) as [Hc1 Hc2].
  destruct (linked_sizes _ _ (wf_linked _ Hwf)) as [Hsz _].
  destruct (clear_fold (indices (Vec.size (_queues s))) s) as (s1 & H1 & F & P & I & Q).
  { intros i Hi%elem_of_indices. unfold k_of in *. lia. }
  unfold clear. rewrite H1, bind_ret. eexists. split; [done|].
  set (s' := {| _queues := _queues s1 |}).
  assert (Hk' : k_of s' = k_of s) by apply (frame_queues_size _ _ F).
  assert (Hall : ∀ j, j < k_of s → get_queue s' j = Some []).
  { intros j Hj. change (get_queue s' j) with (get_queue s1 j). rewrite Q.
    rewrite decide_True; [done|]. by apply elem_of_indices. }
  assert (Htot : total s' = 0).
  { unfold total. change (_queues s') with (_queues s1).
    assert (∀ l : list Heap.t, (∀ j, j < Vec.size l → Vec.get l j = Some []) →
              total_size l = 0) as Hzero.
    { clear. induction l as [|q l IH]; intros Hl; [done|]. simpl.
      pose proof (Hl 0 ltac:(unfold Vec.size; simpl; lia)) as H0. simpl in H0.
      injection H0 as ->. rewrite IH; [done|]. intros j Hj.
      specialize (Hl (j + 1) ltac:(unfold Vec.size in *; simpl; lia)). simpl in Hl.
      destruct (N.eqb_spec (j + 1) 0); [lia|].
      by replace (N.pred (j + 1)) with j in Hl by lia. }
    apply Hzero. intros j Hj. apply (Hall j).
    unfold k_of. by rewrite <- (frame_queues_size _ _ F). }
  split_and!; try done.
  - split.
    + split.
      * split; [|by rewrite Hk']. rewrite Hk'. simpl.
        by rewrite (frame_mapping_size _ _ F).
      * intros j Hj. simpl in Hj. lia.
      * intros j _ Hj. rewrite Hk' in Hj. change (get_part s' j) with (get_part s1 j).
        rewrite P. case_decide as Hin; [done|].
        apply (linked_free _ _ (wf_linked _ Hwf)); [|done].
        rewrite elem_of_indices in Hin. unfold k_of in *. lia.
      * intros q Hq. rewrite Hk' in Hq. exists kInvalidIndex. split; [|by left].
        change (get_index s' ?x) with (get_index s1 x). rewrite I.
        rewrite decide_True; [done|]. apply elem_of_indices.
        unfold k_of, is_part in *. lia.
    + simpl. lia.
    + intros j Hj. simpl in Hj. lia.
    + intros j _ Hj. apply Hall. by rewrite <- Hk'.
    + by rewrite Htot.
  - intros q Hq. unfold subqueue. simpl.
    destruct (get_index s' (Z.to_N q)) as [j|]; [|done].
    destruct (N.ltb_spec j 0); [lia|done].
  - intros q Hq. unfold enabled. simpl.
    destruct (get_index s' (Z.to_N q)); [|done]. apply N.ltb_ge. lia.
Qed.

(** *** The observers on well-formed queues *)

Lemma size_of_spec s p :
  wf s → is_part s p → size_of s p = Some (Heap.size (subqueue s p)).
Proof.
  intros Hwf Hp. pose proof (wf_k _ Hwf) as Hk.
  destruct (wf_position s p Hwf Hp) as (i & Hi & Ht & Hor).
  unfold size_of. rewrite valid_part_true, bind_ASSERT, Ht, Hi, bind_ret by done.
  destruct Hor as [(-> & -> & _)|(Hlt & _ & h & Hh & _ & -> & _)].
  - destruct (wf_counters _ Hwf). unfold kInvalidIndex.
    destruct (N.ltb_spec (2 ^ 64 - 1) (_num_nonempty_pqs s)); [lia|done].
  - apply N.ltb_lt in Hlt as ->. by rewrite Hh.
Qed.

Lemma isUnused_subqueue s p :
  wf s → is_part s p → isUnused s p = Some (Heap.empty (subqueue s p)).
Proof.
  intros Hwf Hp.
  destruct (isUnused_spec s p Hwf Hp) as (i & Hi & ->).
  destruct (wf_position s p Hwf Hp) as (i' & Hi' & Ht & Hor).
  assert (i' = i) as -> by congruence.
  destruct Hor as [(-> & -> & _)|(Hlt & _ & h & Hh & Hne & -> & _)]; [done|].
  destruct (wf_counters _ Hwf). pose proof (wf_k _ Hwf).
  assert ((i =? kInvalidIndex) = false) as ->
    by (apply N.eqb_neq; unfold kInvalidIndex; lia).
  by destruct h.
Qed.

Lemma enabled_nonempty s p :
  wf s → is_part s p → enabled s p = true → subqueue s p ≠ [].
Proof.
  intros Hwf Hp Hen.
  destruct (enabled_position s p Hwf Hp Hen) as (i & h & _ & _ & _ & _ & Hne & ->). done.
Qed.

(** *** The queue after construction *)

Lemma get_replicate {A} (n : nat) (x : A) i :
  Vec.get (replicate n x) i = if decide (i < N.of_nat n) then Some x else None.
Proof.
  rewrite Vec.get_lookup. case_decide.
  - apply lookup_replicate_2. lia.
  - apply lookup_ge_None. rewrite length_replicate. lia.
Qed.

Lemma make_wf k s : make k = Some s → wf (initialize s).
Proof.
  unfold make. destruct ((0 <=? k)%Z && (k <? 2 ^ 31 - 1)%Z) eqn:Hk; [|done].
  apply andb_true_iff in Hk as [Hk1%Z.leb_le Hk2%Z.ltb_lt].
  rewrite bind_ASSERT. intros [= <-].
  unfold initialize. simpl.
  assert (Hsz : size_t_dec (Vec.size (replicate (Z.to_nat (k + 1))
                  {| part := kInvalidPart; index := kInvalidIndex |})) = Z.to_N k).
  { unfold Vec.size. rewrite length_replicate, size_t_dec_pos by lia. lia. }
  rewrite Hsz.
  set (s := with_queues _ _).
  assert (Hk' : k_of s = Z.to_N k).
  { unfold k_of, s, Vec.size. simpl. rewrite length_replicate. lia. }
  assert (Hq : ∀ j, j < Z.to_N k → get_queue s j = Some []).
  { intros j Hj. unfold get_queue, s. simpl. rewrite get_replicate, decide_True; [done|lia]. }
  assert (Hp : ∀ j, j ≤ Z.to_N k → get_part s j = Some kInvalidPart).
  { intros j Hj. unfold get_part, s. simpl. rewrite get_replicate, decide_True; [done|lia]. }
  assert (Hi : ∀ j, j ≤ Z.to_N k → get_index s j = Some kInvalidIndex).
  { intros j Hj. unfold get_index, s. simpl. rewrite get_replicate, decide_True; [done|lia]. }
  split.
  - split.
    + rewrite Hk'. split; [|lia]. unfold s, Vec.size. simpl. rewrite length_replicate. lia.
    + intros j Hj. simpl in Hj. lia.
    + intros j _ Hj. apply Hp. lia.
    + intros q Hq'. exists kInvalidIndex. split; [|by left]. apply Hi. lia.
  - simpl. lia.
  - intros j Hj. simpl in Hj. lia.
  - intros j _ Hj. apply Hq. lia.
  - simpl. unfold total, s. simpl.
    assert (∀ n, total_size (replicate n []) = 0) as ->; [|done].
    induction n; [done|]. simpl. by rewrite IHn.
Qed.

Lemma insert_contained s id p key :
  wf s → is_part s p → Heap.contains (subqueue s p) id = true →
  insert id p key s = None.
Proof.
  intros Hwf Hp Hc. pose proof (wf_k _ Hwf) as Hk.
  destruct (wf_counters _ Hwf) as [Hc1 Hc2].
  destruct (linked_sizes _ _ (wf_linked _ Hwf)) as [Hsz _].
  destruct (wf_position s p Hwf Hp) as (i & Hi & Ht & Hor).
  destruct Hor as [(_ & Hsub & _)|(Hlt & Hpi & h & Hq & Hne & Hsub & Hen)].
  { by rewrite Hsub in Hc. }
  pose proof (linked_free _ _ (wf_linked _ Hwf) (_num_nonempty_pqs s)
                ltac:(lia) Hc2) as Hsent.
  unfold insert. rewrite valid_part_true, Ht, Hi, Hsent by done.
  rewrite bind_ASSERT, !bind_ret.
  assert ((i =? kInvalidIndex) = false) as ->.
  { apply N.eqb_neq. unfold kInvalidIndex. lia. }
  simpl negb. simpl orb. rewrite bind_ASSERT.
  destruct (set_part s (_num_nonempty_pqs s) kInvalidPart) as [s1|] eqn:E1; [|done].
  rewrite bind_ret. apply set_part_spec in E1 as (F1 & P1 & I1 & Q1 & U1).
  rewrite I1, Hi, bind_ret.
  assert ((i =? kInvalidIndex) = false) as ->.
  { apply N.eqb_neq. unfold kInvalidIndex. lia. }
  destruct (set_index s1 (Z.to_N p) i) as [s3|] eqn:E3; [|done].
  rewrite bind_ret. apply set_index_spec in E3 as (F3 & P3 & I3 & Q3 & U3).
  rewrite I3, decide_True, bind_ret by done.
  rewrite Q3, Q1, Hq, bind_ret.
  rewrite Hsub in Hc. unfold Heap.push. by rewrite Hc.
Qed.

Section inversion.
Variable MetaKey_min MetaKey_max : Z.
Variable UseRandomTieBreaking : bool.
Variable getRandomInt : N → N → N.

Lemma ASSERT_bind_Some {B} c (f : () → option B) b :
  ASSERT c ≫= f = Some b → c = true ∧ f () = Some b.
Proof. by destruct c. Qed.

Lemma maxIndexRandomTieBreaking_state s m s0 :
  maxIndexRandomTieBreaking MetaKey_min getRandomInt s = Some (m, s0) →
  ∃ ties, s0 = with_ties s ties.
Proof.
  unfold maxIndexRandomTieBreaking. intros (r & _ & H)%bind_Some.
  apply bind_Some in H as (i & _ & [= _ <-]). by eexists.
Qed.

Lemma deleteMax_inv s id key p s' :
  wf s →
  deleteMax MetaKey_min MetaKey_max UseRandomTieBreaking getRandomInt s
    = Some (id, key, p, s') →
  ∃ ties i h, is_part s p ∧ get_index s (Z.to_N p) = Some i ∧
    i < _num_enabled_pqs s ∧ get_queue s i = Some h ∧
    Heap.top_entry h = Some (id, key) ∧
    take_top i p h (with_ties s ties) = Some s'.
Proof.
  intros Hwf. unfold deleteMax. intros ([m s0] & Hsel & H)%bind_Some.
  assert (∃ ties, s0 = with_ties s ties) as [ties ->].
  { destruct UseRandomTieBreaking.
    - by eapply maxIndexRandomTieBreaking_state.
    - apply bind_Some in Hsel as (i & _ & [= _ <-]). exists (_ties s).
      by rewrite with_ties_id. }
  simpl fst in H. simpl snd in H.
  apply ASSERT_bind_Some in H as [Hm%N.ltb_lt H].
  change (_num_enabled_pqs (with_ties s ties)) with (_num_enabled_pqs s) in Hm.
  apply bind_Some in H as (p' & Hp' & H).
  apply bind_Some in H as (h & Hh & H).
  apply bind_Some in H as (id' & Hid & H).
  apply bind_Some in H as (key' & Hkey & H).
  destruct (position_enabled s m Hwf Hm) as (p0 & h0 & Hp0 & Hpm & Hip & _ & Hh0 & _).
  change (get_part (with_ties s ties) m) with (get_part s m) in Hp'.
  change (get_queue (with_ties s ties) m) with (get_queue s m) in Hh.
  assert (p0 = p') as -> by congruence. assert (h0 = h) as -> by congruence.
  apply bind_Some in H as (i' & _ & H).
  apply bind_Some in H as (p'' & _ & H).
  do 5 apply ASSERT_bind_Some in H as [_ H].
  rewrite (take_top_tail (λ s', (id', key', p', s'))) in H.
  destruct (take_top m p' h (with_ties s ties)) as [s1|] eqn:Htt; [|done].
  injection H as -> -> -> ->.
  exists ties, m, h. split_and!; try done.
  unfold Heap.top, Heap.topKey in *. destruct (Heap.top_entry h) as [[a b]|]; [|done].
  simpl in *. by simplify_eq.
Qed.

Lemma deleteMaxFromPartition_inv s id key p s' :
  wf s → (- 2 ^ 31 ≤ p < 2 ^ 31)%Z →
  deleteMaxFromPartition MetaKey_max p s = Some (id, key, s') →
  ∃ i h, is_part s p ∧ get_index s (Z.to_N p) = Some i ∧
    i < _num_enabled_pqs s ∧ get_queue s i = Some h ∧
    Heap.top_entry h = Some (id, key) ∧
    take_top i p h s = Some s'.
Proof.
  intros Hwf Hr. unfold deleteMaxFromPartition.
  intros [Hv H]%ASSERT_bind_Some.
  apply valid_part_inv in Hv; [|done|by apply wf_k].
  rewrite to_size_t_id in H by (unfold is_part in Hv; pose proof (wf_k _ Hwf); lia).
  apply bind_Some in H as (i & Hi & H).
  apply ASSERT_bind_Some in H as [Hm%N.ltb_lt H].
  apply bind_Some in H as (h & Hh & H).
  apply bind_Some in H as (id' & Hid & H).
  apply bind_Some in H as (key' & Hkey & H).
  apply bind_Some in H as (i' & _ & H).
  apply bind_Some in H as (p'' & _ & H).
  do 4 apply ASSERT_bind_Some in H as [_ H].
  rewrite (take_top_tail (λ s', (id', key', s'))) in H.
  destruct (take_top i p h s) as [s1|] eqn:Htt; [|done].
  injection H as -> -> ->.
  exists i, h. split_and!; try done.
  unfold Heap.top, Heap.topKey in *. destruct (Heap.top_entry h) as [[a b]|]; [|done].
  simpl in *. by simplify_eq.
Qed.

End inversion.

Lemma remove_inv s id p s' :
  wf s → (- 2 ^ 31 ≤ p < 2 ^ 31)%Z → remove id p s = Some s' →
  is_part s p ∧ Heap.contains (subqueue s p) id = true.
Proof.
  intros Hwf Hr. unfold remove. intros [Hv H]%ASSERT_bind_Some.
  apply valid_part_inv in Hv; [|done|by apply wf_k]. split; [done|].
  destruct (wf_position s p Hwf Hv) as (i & Hi & Ht & Hor).
  rewrite Ht, Hi, bind_ret in H.
  apply ASSERT_bind_Some in H as [Hlt%N.ltb_lt H].
  destruct Hor as [(-> & _)|(_ & _ & h & Hh & _ & -> & _)].
  { destruct (wf_counters _ Hwf). pose proof (wf_k _ Hwf). unfold kInvalidIndex in *. lia. }
  rewrite Hh, bind_ret in H. by apply ASSERT_bind_Some in H as [? _].
Qed.

Lemma updateKey_inv s id p key s' :
  wf s → (- 2 ^ 31 ≤ p < 2 ^ 31)%Z → updateKey id p key s = Some s' →
  is_part s p ∧ Heap.contains (subqueue s p) id = true.
Proof.
  intros Hwf Hr. unfold updateKey. intros [Hv H]%ASSERT_bind_Some.
  apply valid_part_inv in Hv; [|done|by apply wf_k]. split; [done|].
  destruct (wf_position s p Hwf Hv) as (i & Hi & Ht & Hor).
  rewrite Ht, Hi, bind_ret in H.
  apply ASSERT_bind_Some in H as [Hlt%N.ltb_lt H].
  destruct Hor as [(-> & _)|(_ & _ & h & Hh & _ & -> & _)].
  { destruct (wf_counters _ Hwf). pose proof (wf_k _ Hwf). unfold kInvalidIndex in *. lia. }
  rewrite Hh, bind_ret in H. unfold Heap.updateKey in H.
  by destruct (Heap.contains h id).
Qed.

Lemma updateKeyBy_inv s id p key_delta s' :
  wf s → (- 2 ^ 31 ≤ p < 2 ^ 31)%Z → updateKeyBy id p key_delta s = Some s' →
  is_part s p ∧ Heap.contains (subqueue s p) id = true.
Proof.
  intros Hwf Hr. unfold updateKeyBy. intros [Hv H]%ASSERT_bind_Some.
  apply valid_part_inv in Hv; [|done|by apply wf_k]. split; [done|].
  destruct (wf_position s p Hwf Hv) as (i & Hi & Ht & Hor).
  rewrite Ht, Hi, bind_ret in H.
  apply ASSERT_bind_Some in H as [Hlt%N.ltb_lt H].
  destruct Hor as [(-> & _)|(_ & _ & h & Hh & _ & -> & _)].
  { destruct (wf_counters _ Hwf). pose proof (wf_k _ Hwf). unfold kInvalidIndex in *. lia. }
  rewrite Hh, bind_ret in H. unfold Heap.updateKeyBy in H.
  by destruct (Heap.contains h id).
Qed.

Lemma valid_part_of_success {A} s p (f : () → option A) r :
  wf s → (- 2 ^ 31 ≤ p < 2 ^ 31)%Z →
  ASSERT (valid_part s p) ≫= f = Some r → is_part s p.
Proof.
  intros Hwf Hr [Hv _]%ASSERT_bind_Some.
  apply valid_part_inv in Hv; [done|done|by apply wf_k].
Qed.

(** *** Clients of the queue *)

(** the public member functions that change the queue *)
Inductive call : Type :=
  | Insert (id : N) (p : Z) (key : Z)
  | DeleteMax
  | DeleteMaxFromPartition (p : Z)
  | UpdateKey (id : N) (p : Z) (key : Z)
  | UpdateKeyBy (id : N) (p : Z) (key_delta : Z)
  | Remove (id : N) (p : Z)
  | Clear
  | EnablePart (p : Z)
  | DisablePart (p : Z).

(** a [PartitionID] argument is a 32-bit signed value *)
Definition PartitionID_ok (p : Z) : bool := (- 2 ^ 31 <=? p)%Z && (p <? 2 ^ 31)%Z.

Definition call_typed (c : call) : bool :=
  match c with
  | Insert _ p _ | DeleteMaxFromPartition p | UpdateKey _ p _ | UpdateKeyBy _ p _
  | Remove _ p | EnablePart p | DisablePart p => PartitionID_ok p
  | DeleteMax | Clear => true
  end.

Section clients.

Variable MetaKey_min MetaKey_max : Z.
Variable UseRandomTieBreaking : bool.
Variable getRandomInt : N → N → N.

Definition run (c : call) (s : t) : option t :=
  if call_typed c then
    match c with
    | Insert id p key => insert id p key s
    | DeleteMax =>
        snd <$> deleteMax MetaKey_min MetaKey_max UseRandomTieBreaking getRandomInt s
    | DeleteMaxFromPartition p => snd <$> deleteMaxFromPartition MetaKey_max p s
    | UpdateKey id p key => updateKey id p key s
    | UpdateKeyBy id p key_delta => updateKeyBy id p key_delta s
    | Remove id p => remove id p s
    | Clear => clear s
    | EnablePart p => enablePart p s
    | DisablePart p => disablePart p s
    end
  else None.

(** the states a client can bring the queue into *)
Inductive reachable : t → Prop :=
  | reachable_new k s : make k = Some s → reachable (initialize s)
  | reachable_run c s s' : reachable s → run c s = Some s' → reachable s'.

(** the part from whose sub-queue a call takes an entry *)
Definition taken_from (c : call) (s : t) : option Z :=
  match c with
  | Remove _ p | DeleteMaxFromPartition p => Some p
  | DeleteMax =>
      (λ r, snd (fst r)) <$>
        deleteMax MetaKey_min MetaKey_max UseRandomTieBreaking getRandomInt s
  | _ => None
  end.

Lemma PartitionID_ok_range p : PartitionID_ok p = true → (- 2 ^ 31 ≤ p < 2 ^ 31)%Z.
Proof. unfold PartitionID_ok. intros [?%Z.leb_le ?%Z.ltb_lt]%andb_true_iff. lia. Qed.

Lemma take_top_with_ties_spec s ties p i h top s' :
  wf s → is_part s p → get_index s (Z.to_N p) = Some i →
  i < _num_enabled_pqs s → get_queue s i = Some h → Heap.top_entry h = Some top →
  take_top i p h (with_ties s ties) = Some s' →
  wf s' ∧ k_of s' = k_of s ∧ total s' + 1 = total s ∧
  subqueue s p = h ∧ enabled s p = true ∧
  (∀ q, is_part s q →
     subqueue s' q = if decide (q = p) then Heap.erase (Heap.entry_eqb top) h
                     else subqueue s q) ∧
  (∀ q, is_part s q →
     enabled s' q = if decide (q = p)
                    then negb (Heap.empty (Heap.erase (Heap.entry_eqb top) h))
                    else enabled s q).
Proof.
  intros Hwf Hp Hi Hlt Hh Htop Htt.
  destruct (take_top_spec (with_ties s ties) p i h top)
    as (s'' & Htt' & W & K & T & V1 & V2); try done; [by apply wf_with_ties|].
  assert (s'' = s') as -> by congruence.
  split_and!; try done.
  - unfold subqueue. rewrite Hi, Hh. destruct (wf_counters _ Hwf).
    destruct (N.ltb_spec i (_num_nonempty_pqs s)); [done|lia].
  - unfold enabled. rewrite Hi. by apply N.ltb_lt.
Qed.

Lemma run_wf c s s' : wf s → run c s = Some s' → wf s' ∧ k_of s' = k_of s.
Proof.
  intros Hwf. unfold run. destruct (call_typed c) eqn:Hty; [|done].
  destruct c as [id p key| |p|id p key|id p kd|id p| |p|p]; simpl in Hty;
    try apply PartitionID_ok_range in Hty; intros Hrun.
  - assert (Hp : is_part s p) by (by eapply valid_part_of_success).
    destruct (Heap.contains (subqueue s p) id) eqn:Hc.
    + by rewrite insert_contained in Hrun.
    + destruct (insert_spec s id p key Hwf Hp Hc) as (s'' & H & W & K & _).
      by assert (s'' = s') as -> by congruence.
  - destruct (deleteMax _ _ _ _ s) as [[[[id key] p] s'']|] eqn:Hd; [|done].
    injection Hrun as ->.
    destruct (deleteMax_inv _ _ _ _ _ _ _ _ _ Hwf Hd)
      as (ties & i & h & Hp & Hi & Hlt & Hh & Htop & Htt).
    by destruct (take_top_with_ties_spec _ _ _ _ _ _ _ Hwf Hp Hi Hlt Hh Htop Htt)
      as (W & K & _).
  - destruct (deleteMaxFromPartition _ p s) as [[[id key] s'']|] eqn:Hd; [|done].
    injection Hrun as ->.
    destruct (deleteMaxFromPartition_inv _ _ _ _ _ _ Hwf Hty Hd)
      as (i & h & Hp & Hi & Hlt & Hh & Htop & Htt).
    rewrite <- (with_ties_id s) in Htt.
    by destruct (take_top_with_ties_spec _ _ _ _ _ _ _ Hwf Hp Hi Hlt Hh Htop Htt)
      as (W & K & _).
  - destruct (updateKey_inv _ _ _ _ _ Hwf Hty Hrun) as [Hp Hc].
    destruct (updateKey_spec s id p key Hwf Hp Hc) as (s'' & H & W & K & _).
    by assert (s'' = s') as -> by congruence.
  - destruct (updateKeyBy_inv _ _ _ _ _ Hwf Hty Hrun) as [Hp Hc].
    destruct (updateKeyBy_spec s id p kd Hwf Hp Hc) as (s'' & H & W & K & _).
    by assert (s'' = s') as -> by congruence.
  - destruct (remove_inv _ _ _ _ Hwf Hty Hrun) as [Hp Hc].
    destruct (remove_spec s id p Hwf Hp Hc) as (s'' & H & W & K & _).
    by assert (s'' = s') as -> by congruence.
  - destruct (clear_spec s Hwf) as (s'' & H & W & K & _).
    by assert (s'' = s') as -> by congruence.
  - assert (Hp : is_part s p) by (by eapply valid_part_of_success).
    destruct (enablePart_spec s p Hwf Hp) as (s'' & H & W & F & _).
    assert (s'' = s') as -> by congruence. split; [done|].
    apply (frame_queues_size _ _ F).
  - assert (Hp : is_part s p) by (by eapply valid_part_of_success).
    destruct (disablePart_spec s p Hwf Hp) as (s'' & H & W & F & _).
    assert (s'' = s') as -> by congruence. split; [done|].
    apply (frame_queues_size _ _ F).
Qed.

Lemma reachable_wf s : reachable s → wf s.
Proof.
  induction 1 as [k s Hk|c s s' _ IH Hrun].
  - by eapply make_wf.
  - by destruct (run_wf c s s' IH Hrun).
Qed.

(** a call that takes an entry from the sub-queue of [p] *)
Lemma taken_spec c s s' p :
  wf s → run c s = Some s' → taken_from c s = Some p →
  is_part s p ∧
  N.succ (Heap.size (subqueue s' p)) = Heap.size (subqueue s p) ∧
  enabled s' p = enabled s p && negb (Heap.empty (subqueue s' p)) ∧
  (∀ q, is_part s q → q ≠ p →
     subqueue s' q = subqueue s q ∧ enabled s' q = enabled s q).
Proof.
  intros Hwf. unfold run, taken_from. destruct (call_typed c) eqn:Hty; [|done].
  destruct c as [id p' key| |p'|id p' key|id p' kd|id p'| |p'|p']; simpl in Hty;
    try apply PartitionID_ok_range in Hty; intros Hrun Htk; try done.
  - destruct (deleteMax _ _ _ _ s) as [[[[id key] p''] s'']|] eqn:Hd; [|done].
    injection Hrun as ->. injection Htk as ->.
    destruct (deleteMax_inv _ _ _ _ _ _ _ _ _ Hwf Hd)
      as (ties & i & h & Hp & Hi & Hlt & Hh & Htop & Htt).
    destruct (take_top_with_ties_spec _ _ _ _ _ _ _ Hwf Hp Hi Hlt Hh Htop Htt)
      as (W & K & _ & Hsub & Hen & V1 & V2).
    split; [done|]. rewrite V1, V2, !decide_True, Hsub, Hen by done.
    split_and!; [|done|].
    + apply Heap.size_pop. unfold Heap.pop. by rewrite Htop.
    + intros q Hq Hne. rewrite V1, V2, !decide_False by done. done.
  - destruct (deleteMaxFromPartition _ p' s) as [[[id key] s'']|] eqn:Hd; [|done].
    injection Hrun as ->. injection Htk as ->.
    destruct (deleteMaxFromPartition_inv _ _ _ _ _ _ Hwf Hty Hd)
      as (i & h & Hp & Hi & Hlt & Hh & Htop & Htt).
    rewrite <- (with_ties_id s) in Htt.
    destruct (take_top_with_ties_spec _ _ _ _ _ _ _ Hwf Hp Hi Hlt Hh Htop Htt)
      as (W & K & _ & Hsub & Hen & V1 & V2).
    split; [done|]. rewrite V1, V2, !decide_True, Hsub, Hen by done.
    split_and!; [|done|].
    + apply Heap.size_pop. unfold Heap.pop. by rewrite Htop.
    + intros q Hq Hne. rewrite V1, V2, !decide_False by done. done.
  - injection Htk as ->.
    destruct (remove_inv _ _ _ _ Hwf Hty Hrun) as [Hp Hc].
    destruct (remove_spec s id p Hwf Hp Hc) as (s'' & H & W & K & _ & V1 & V2).
    assert (s'' = s') as -> by congruence.
    split; [done|]. rewrite V1, V2, !decide_True by done.
    split_and!; [|done|].
    + apply (Heap.size_remove _ id). unfold Heap.remove. by rewrite Hc.
    + intros q Hq Hne. rewrite V1, V2, !decide_False by done. done.
Qed.

Lemma isEnabled_true_position s p :
  isEnabled s p = Some true →
  ∃ i, get_index s (to_size_t p) = Some i ∧ i < _num_enabled_pqs s ∧
       valid_part s p = true.
Proof.
  unfold isEnabled. intros [Hv H]%ASSERT_bind_Some.
  apply bind_Some in H as (i & Hi & [= Hlt%N.ltb_lt]). by exists i.
Qed.

(** C3. Every operation of the k-way queue keeps the invariants: (i) an
    enabled sub-queue is not empty; (ii) the stored number of entries is the
    sum of the sizes of the sub-queues (in [size_t] arithmetic, that is
    modulo 2^64, and so the sum itself as long as it is below 2^64); (iii) when an operation takes the last entry of the
    sub-queue of a part, the part is unused afterwards, and the sub-queues,
    sizes and enabled flags of all other parts are as before. *)
Theorem operations_preserve_invariants c s s' :
  reachable s → run c s = Some s' →
  (∀ p, isEnabled s' p = Some true → ∃ n, size_of s' p = Some n ∧ 0 < n) ∧
  (size s' = total s' mod 2 ^ 64 ∧ (total s' < 2 ^ 64 → size s' = total s')) ∧
  (∀ p, taken_from c s = Some p → size_of s p = Some 1 →
     isUnused s' p = Some true ∧ isEnabled s' p = Some false ∧
     ∀ q, is_part s q → q ≠ p →
       subqueue s' q = subqueue s q ∧ size_of s' q = size_of s q ∧
       isEnabled s' q = isEnabled s q).
Proof.
  intros Hwf%reachable_wf Hrun.
  destruct (run_wf c s s' Hwf Hrun) as [Hwf' Hk].
  split_and!.
  - intros p (i & Hi & Hlt & Hv)%isEnabled_true_position.
    destruct (wf_counters _ Hwf') as [Hc1 Hc2].
    destruct (wf_nonempty _ Hwf' i ltac:(lia)) as (h & Hh & Hne).
    exists (Heap.size h). split; [|by apply Heap.size_pos].
    unfold size_of. rewrite Hv, bind_ASSERT, Hi, bind_ret, Hh.
    destruct (N.ltb_spec i (_num_nonempty_pqs s')); [done|lia].
  - unfold size. by rewrite (wf_entries _ Hwf').
  - intros Hlt. unfold size. rewrite (wf_entries _ Hwf'). by apply N.mod_small.
  - intros p Htk Hsz.
    destruct (taken_spec c s s' p Hwf Hrun Htk) as (Hp & Hs & He & Hoth).
    rewrite size_of_spec in Hsz by done. injection Hsz as Hsz.
    assert (Hp' : is_part s' p) by (unfold is_part; by rewrite Hk).
    assert (Hnil : subqueue s' p = []).
    { destruct (subqueue s' p); [done|]. unfold Heap.size in *. simpl in *. lia. }
    rewrite isUnused_subqueue, isEnabled_spec, He, Hnil by done.
    split; [done|]. split; [by rewrite andb_false_r|].
    intros q Hq Hne. destruct (Hoth q Hq Hne) as [Hsq Hen].
    assert (Hq' : is_part s' q) by (unfold is_part; by rewrite Hk).
    by rewrite !size_of_spec, !isEnabled_spec, Hsq, Hen by done.
Qed.

(** C2 (as amended). In a reachable state in which some enabled sub-queue
    holds an entry whose key is greater than [MetaKey::min()] and no enabled
    sub-queue holds the key [MetaKey::max()], [deleteMax] returns an entry of
    an enabled sub-queue whose key is greater than or equal to the key of
    every entry of every enabled sub-queue, and removes that entry.  With
    random tie breaking the random numbers are assumed to lie in the
    requested range. *)
Theorem deleteMax_returns_max s :
  reachable s →
  (UseRandomTieBreaking = true → ∀ hi, getRandomInt 0 hi ≤ hi) →
  (∃ p e, is_part s p ∧ isEnabled s p = Some true ∧ e ∈ subqueue s p ∧
          (MetaKey_min < snd e)%Z) →
  (∀ p e, is_part s p → isEnabled s p = Some true → e ∈ subqueue s p →
          snd e ≠ MetaKey_max) →
  ∃ id key p s',
    deleteMax MetaKey_min MetaKey_max UseRandomTieBreaking getRandomInt s
      = Some (id, key, p, s') ∧
    is_part s p ∧ isEnabled s p = Some true ∧ (id, key) ∈ subqueue s p ∧
    (∀ q e, is_part s q → isEnabled s q = Some true → e ∈ subqueue s q →
            (snd e ≤ key)%Z) ∧
    subqueue s' p = Heap.erase (Heap.entry_eqb (id, key)) (subqueue s p) ∧
    N.succ (Heap.size (subqueue s' p)) = Heap.size (subqueue s p) ∧
    (∀ q, is_part s q → q ≠ p → subqueue s' q = subqueue s q).
Proof.
  intros Hwf%reachable_wf Hrand (p0 & e0 & Hp0 & Hen0 & He0 & Hgt0) Hmax.
  rewrite isEnabled_spec in Hen0 by done. injection Hen0 as Hen0.
  destruct (deleteMax_spec MetaKey_min MetaKey_max UseRandomTieBreaking getRandomInt s
              Hwf Hrand)
    as (id & key & p & s' & Hd & W & K & T & Hp & Hen & Htop & Hall & V1 & V2).
  { by exists p0, e0. }
  { intros q e Hq Hen He. apply (Hmax q e); [done| |done].
    by rewrite isEnabled_spec, Hen. }
  exists id, key, p, s'. split; [done|]. split; [done|].
  split; [by rewrite isEnabled_spec, Hen|].
  split; [by apply Heap.top_entry_elem|].
  split.
  { intros q e Hq Henq He. rewrite isEnabled_spec in Henq by done.
    injection Henq as Henq. by apply (Hall q e). }
  split; [by rewrite V1, decide_True|].
  split.
  { rewrite V1, decide_True by done. apply Heap.size_pop. unfold Heap.pop.
    by rewrite Htop. }
  intros q Hq Hne. by rewrite V1, decide_False.
Qed.

Definition is_toggle (c : call) : Prop :=
  match c with EnablePart _ | DisablePart _ => True | _ => False end.

(** C10. [enablePart] on a part whose sub-queue is unused changes nothing,
    and so does [disablePart] on a part that is not enabled; no sequence of
    [enablePart] and [disablePart] calls enables an unused part. *)
Theorem toggling_an_unused_part :
  (∀ s b, valid_part s b = true → isUnused s b = Some true →
          enablePart b s = Some s) ∧
  (∀ s b, isEnabled s b = Some false → disablePart b s = Some s) ∧
  (∀ s b l s', reachable s → is_part s b → isUnused s b = Some true →
     Forall is_toggle l → foldM (λ s c, run c s) s l = Some s' →
     isUnused s' b = Some true ∧ isEnabled s' b = Some false).
Proof.
  split_and!.
  - intros s b Hv Hu. unfold enablePart. by rewrite Hv, bind_ASSERT, Hu.
  - intros s b He. unfold disablePart.
    assert (valid_part s b = true) as Hv.
    { unfold isEnabled in He. by apply ASSERT_bind_Some in He as [? _]. }
    by rewrite Hv, bind_ASSERT, He.
  - intros s b l s' Hwf%reachable_wf Hb Hu Hl. revert s Hwf Hb Hu.
    induction Hl as [|c l Hc Hl IH]; intros s Hwf Hb Hu; simpl.
    + intros [= <-]. split; [done|].
      rewrite isUnused_subqueue in Hu by done. injection Hu as Hu.
      rewrite isEnabled_spec by done. f_equal.
      destruct (enabled s b) eqn:Hen; [|done].
      pose proof (enabled_nonempty s b Hwf Hb Hen). by destruct (subqueue s b).
    + intros (s1 & Hrun & Hrest)%bind_Some.
      destruct (run_wf c s s1 Hwf Hrun) as [Hwf1 Hk1].
      apply (IH s1 Hwf1); [unfold is_part; by rewrite Hk1| |done].
      rewrite isUnused_subqueue in Hu |- * by (done || unfold is_part; by rewrite Hk1).
      injection Hu as Hu. f_equal. rewrite <- Hu. f_equal.
      unfold run in Hrun. destruct (call_typed c) eqn:Hty; [|done].
      destruct c as [| | | | | | |p|p]; try done; simpl in Hty;
        apply PartitionID_ok_range in Hty.
      * assert (Hp : is_part s p) by (by eapply valid_part_of_success).
        destruct (enablePart_spec s p Hwf Hp) as (s'' & H & _ & _ & V & _).
        assert (s'' = s1) as -> by congruence. by apply V.
      * assert (Hp : is_part s p) by (by eapply valid_part_of_success).
        destruct (disablePart_spec s p Hwf Hp) as (s'' & H & _ & _ & V & _).
        assert (s'' = s1) as -> by congruence. by apply V.
Qed.

End clients.

(** *** The queue of gains of the refiners *)

(** The refiners instantiate the queue with 32-bit gains as keys, so that
    [MetaKey] is [std::numeric_limits<int32_t>], and without random tie
    breaking. *)

Definition Gain_min : Z := (- 2 ^ 31)%Z.
Definition Gain_max : Z := (2 ^ 31 - 1)%Z.
Definition first_of_range : N → N → N := λ lo _, lo.

Definition run_gain : call → t → option t :=
  run Gain_min Gain_max false first_of_range.
Definition reachable_gain : t → Prop :=
  reachable Gain_min Gain_max false first_of_range.

(** The state reached from a new queue for [k] parts by a list of calls. *)
Definition built (k : Z) (l : list call) : option t :=
  s ← make k; foldM (λ s c, run_gain c s) (initialize s) l.

Lemma foldM_reachable l s s' :
  reachable_gain s → foldM (λ s c, run_gain c s) s l = Some s' →
  reachable_gain s'.
Proof.
  revert s. induction l as [|c l IH]; intros s Hs; simpl.
  - by intros [= <-].
  - intros (s1 & Hrun & Hrest)%bind_Some. apply (IH s1); [|done].
    by apply (reachable_run _ _ _ _ c s s1).
Qed.

Lemma built_reachable k l s : built k l = Some s → reachable_gain s.
Proof.
  unfold built. intros (s0 & Hmake & Hfold)%bind_Some.
  apply (foldM_reachable l (initialize s0)); [|done].
  by apply (reachable_new _ _ _ _ k).
Qed.

(** C2, counterexample. The queue for one part in which the entry with the
    smallest key, [MetaKey::min()], was inserted and the part enabled is
    reachable, its only sub-queue is enabled and holds one entry, and
    [deleteMax] returns no entry there: [maxIndex] finds no key greater than
    [MetaKey::min()] and leaves [kInvalidIndex].  With the key
    [MetaKey::max()] in place of it, [deleteMax] stops at its assertion
    [max_key != MetaKey::max()]. *)
Lemma deleteMax_of_minimal_key :
  (∃ s, built 1 [Insert 0 0 Gain_min; EnablePart 0] = Some s ∧
        reachable_gain s ∧
        isEnabled s 0 = Some true ∧ subqueue s 0 = [(0, Gain_min)] ∧
        maxIndex Gain_min s = None ∧
        deleteMax Gain_min Gain_max false first_of_range s = None) ∧
  (∃ s, built 1 [Insert 0 0 Gain_max; EnablePart 0] = Some s ∧
        reachable_gain s ∧
        isEnabled s 0 = Some true ∧ subqueue s 0 = [(0, Gain_max)] ∧
        maxIndex Gain_min s = Some 0 ∧
        deleteMax Gain_min Gain_max false first_of_range s = None).
Proof.
  split.
  - eexists. split; [vm_compute; reflexivity|].
    split; [apply (built_reachable 1 [Insert 0 0 Gain_min; EnablePart 0]);
            vm_compute; reflexivity|].
    split_and!; vm_compute; reflexivity.
  - eexists. split; [vm_compute; reflexivity|].
    split; [apply (built_reachable 1 [Insert 0 0 Gain_max; EnablePart 0]);
            vm_compute; reflexivity|].
    split_and!; vm_compute; reflexivity.
Qed.

Lemma is_part_2 s p : k_of s = 2 → is_part s p → p = 0%Z ∨ p = 1%Z.
Proof. unfold is_part. intros ->. lia. Qed.

Lemma deleteMax_returns_max_witness :
  ∃ s, built 2 [Insert 5 1 7; Insert 6 0 9; Insert 4 0 3;
                EnablePart 1; EnablePart 0] = Some s ∧
  ∃ id key p s',
    deleteMax Gain_min Gain_max false first_of_range s = Some (id, key, p, s') ∧
    (id, key) ∈ subqueue s p ∧
    (∀ q e, is_part s q → isEnabled s q = Some true → e ∈ subqueue s q →
            (snd e ≤ key)%Z) ∧
    N.succ (Heap.size (subqueue s' p)) = Heap.size (subqueue s p).
Proof.
  eexists. split; [vm_compute; reflexivity|].
  match goal with |- context [deleteMax _ _ _ _ ?s] => set (s0 := s) end.
  assert (Hk : k_of s0 = 2) by (vm_compute; reflexivity).
  destruct (deleteMax_returns_max Gain_min Gain_max false first_of_range s0)
    as (id & key & p & s' & Hd & Hp & Hen & Hin & Hmax & Hsub & Hsz & Hoth).
  - apply (built_reachable 2 [Insert 5 1 7; Insert 6 0 9; Insert 4 0 3;
                              EnablePart 1; EnablePart 0]).
    vm_compute; reflexivity.
  - discriminate.
  - exists 0%Z, (6, 9%Z). split_and!.
    + unfold is_part. rewrite Hk. lia.
    + vm_compute; reflexivity.
    + vm_compute. repeat constructor.
    + vm_compute; reflexivity.
  - intros p e [-> | ->]%(is_part_2 _ _ Hk) _ He; vm_compute in He;
      repeat (apply elem_of_cons in He as [-> | He]; [vm_compute; discriminate|]);
      by apply elem_of_nil in He.
  - by exists id, key, p, s'.
Defined.

Lemma operations_preserve_invariants_witness :
  ∃ s, built 2 [Insert 5 1 7; Insert 6 0 9; EnablePart 1; EnablePart 0] = Some s ∧
  ∃ s', run_gain (Remove 5 1) s = Some s' ∧
    size_of s 1 = Some 1 ∧
    (∀ p, isEnabled s' p = Some true → ∃ n, size_of s' p = Some n ∧ 0 < n) ∧
    size s' = total s' mod 2 ^ 64 ∧
    isUnused s' 1 = Some true ∧ isEnabled s' 1 = Some false ∧
    subqueue s' 0 = subqueue s 0 ∧ isEnabled s' 0 = isEnabled s 0.
Proof.
  eexists. split; [vm_compute; reflexivity|].
  eexists. split; [vm_compute; reflexivity|].
  split; [vm_compute; reflexivity|].
  match goal with |- context [subqueue ?s' 0 = subqueue ?s 0] =>
    set (s0 := s); set (s1 := s') end.
  destruct (operations_preserve_invariants Gain_min Gain_max false first_of_range
              (Remove 5 1) s0 s1) as (H1 & [H2 _] & H3).
  - apply (built_reachable 2 [Insert 5 1 7; Insert 6 0 9; EnablePart 1; EnablePart 0]).
    vm_compute; reflexivity.
  - vm_compute; reflexivity.
  - destruct (H3 1%Z) as (Hu & He & Hoth); [vm_compute; reflexivity ..|].
    destruct (Hoth 0%Z) as (Hs & _ & He0).
    + unfold is_part. vm_compute. split; [discriminate|reflexivity].
    + discriminate.
    + by split_and!.
Defined.

Lemma toggling_an_unused_part_witness :
  ∃ s, built 2 [Insert 5 1 7] = Some s ∧
    enablePart 0 s = Some s ∧ disablePart 1 s = Some s ∧
    ∀ s', foldM (λ s c, run_gain c s) s
            [EnablePart 0; DisablePart 0; EnablePart 1; EnablePart 0] = Some s' →
          isUnused s' 0 = Some true ∧ isEnabled s' 0 = Some false.
Proof.
  eexists. split; [vm_compute; reflexivity|].
  match goal with |- enablePart 0 ?s = _ ∧ _ => set (s0 := s) end.
  destruct (toggling_an_unused_part Gain_min Gain_max false first_of_range)
    as (Ha & Hb & Hc).
  split_and!.
  - apply Ha; vm_compute; reflexivity.
  - apply Hb; vm_compute; reflexivity.
  - intros s'. apply Hc.
    + apply (built_reachable 2 [Insert 5 1 7]). vm_compute; reflexivity.
    + unfold is_part. vm_compute. split; [discriminate|reflexivity].
    + vm_compute; reflexivity.
    + repeat constructor.
Defined.

(** *** What the users of the queue observe *)

Lemma contains_spec s id p :
  wf s → is_part s p → contains id p s = Some (Heap.contains (subqueue s p) id).
Proof.
  intros Hwf Hp. unfold contains.
  rewrite (valid_part_true s p Hp (wf_k s Hwf)), bind_ASSERT.
  destruct (wf_position s p Hwf Hp) as (i & Hi & Hto & [(-> & Hsub & _)|(Hlt & _ & h & Hh & _ & Hsub & _)]).
  - rewrite Hto, Hi, bind_ret, Hsub.
    destruct (N.ltb_spec kInvalidIndex (_num_nonempty_pqs s)) as [Hlt|]; [|done].
    exfalso. destruct (wf_counters s Hwf) as [_ Hle]. pose proof (wf_k s Hwf).
    unfold kInvalidIndex in *. lia.
  - rewrite Hto, Hi, bind_ret, Hsub.
    destruct (N.ltb_spec i (_num_nonempty_pqs s)); [|lia]. by rewrite Hh.
Qed.

Lemma key_spec s id p :
  wf s → is_part s p → Heap.contains (subqueue s p) id = true →
  key id p s = Heap.getKey (subqueue s p) id.
Proof.
  intros Hwf Hp Hc. unfold key.
  rewrite (valid_part_true s p Hp (wf_k s Hwf)), bind_ASSERT.
  destruct (wf_position s p Hwf Hp) as (i & Hi & Hto & [(-> & Hsub & _)|(Hlt & _ & h & Hh & _ & Hsub & _)]).
  - by rewrite Hsub in Hc.
  - rewrite Hto, Hi, bind_ret.
    destruct (N.ltb_spec i (_num_nonempty_pqs s)); [|lia].
    rewrite bind_ASSERT, Hh, bind_ret, <- Hsub, Hc, bind_ASSERT. done.
Qed.

Lemma key_None s id p :
  wf s → is_part s p → Heap.contains (subqueue s p) id = false → key id p s = None.
Proof.
  intros Hwf Hp Hc. unfold key.
  rewrite (valid_part_true s p Hp (wf_k s Hwf)), bind_ASSERT.
  destruct (wf_position s p Hwf Hp) as (i & Hi & Hto & [(-> & Hsub & _)|(Hlt & _ & h & Hh & _ & Hsub & _)]).
  - rewrite Hto, Hi, bind_ret.
    destruct (N.ltb_spec kInvalidIndex (_num_nonempty_pqs s)) as [Hlt|]; [|done].
    exfalso. destruct (wf_counters s Hwf) as [_ Hle]. pose proof (wf_k s Hwf).
    unfold kInvalidIndex in *. lia.
  - rewrite Hto, Hi, bind_ret.
    destruct (N.ltb_spec i (_num_nonempty_pqs s)); [|lia].
    by rewrite bind_ASSERT, Hh, bind_ret, <- Hsub, Hc.
Qed.

(** the parts [0, ..., k-1] of the queue *)
Definition parts (s : t) : list Z := seqZ 0 (Z.of_N (k_of s)).

Lemma elem_of_parts s p : p ∈ parts s ↔ is_part s p.
Proof. unfold parts, is_part. rewrite elem_of_seqZ. lia. Qed.

Lemma NoDup_parts s : NoDup (parts s).
Proof. apply NoDup_seqZ. Qed.

(** the part stored at a position of [_mapping] *)
Definition part_at (s : t) (i : N) : Z := default 0%Z (get_part s i).

Lemma count_positions s m n (P : Z → Prop) `{∀ p, Decision (P p)} :
  linked s m → m ≤ k_of s → n ≤ m →
  (∀ p, is_part s p → P p ↔ ∃ i, get_index s (Z.to_N p) = Some i ∧ i < n) →
  N.of_nat (length (filter P (parts s))) = n.
Proof.
  intros Hl Hm Hn HP.
  assert (Hperm : filter P (parts s) ≡ₚ part_at s <$> indices n).
  { apply NoDup_Permutation.
    - apply NoDup_filter, NoDup_parts.
    - apply NoDup_fmap_2_strong; [|apply NoDup_indices].
      intros i j Hi%elem_of_indices Hj%elem_of_indices Heq. unfold part_at in Heq.
      destruct (linked_part s m Hl i ltac:(lia)) as (p & Hp & _ & Hip).
      destruct (linked_part s m Hl j ltac:(lia)) as (q & Hq & _ & Hjq).
      rewrite Hp, Hq in Heq. simpl in Heq. subst q. congruence.
    - intros p. rewrite list_elem_of_filter, elem_of_parts, list_elem_of_fmap. split.
      + intros [HPp Hp]. apply HP in HPp as (i & Hi & Hlt); [|done].
        exists i. split; [|by apply elem_of_indices].
        unfold part_at. by rewrite (linked_position s m p i Hl Hm Hp Hi ltac:(lia)).
      + intros (i & -> & Hi%elem_of_indices).
        destruct (linked_part s m Hl i ltac:(lia)) as (p & Hp & Hrange & Hip).
        unfold part_at. rewrite Hp. simpl. split; [|done].
        apply HP; [done|]. by exists i. }
  rewrite Hperm, length_fmap, length_indices. lia.
Qed.

Lemma set_queue_counters s i q s' :
  set_queue s i q = Some s' →
  _num_enabled_pqs s' = _num_enabled_pqs s ∧ _num_nonempty_pqs s' = _num_nonempty_pqs s ∧
  _num_entries s' = _num_entries s.
Proof. unfold set_queue. intros (? & _ & ->)%fmap_Some. done. Qed.

Lemma set_part_counters s i p s' :
  set_part s i p = Some s' →
  _num_enabled_pqs s' = _num_enabled_pqs s ∧ _num_nonempty_pqs s' = _num_nonempty_pqs s ∧
  _num_entries s' = _num_entries s.
Proof. unfold set_part. intros (? & _ & (? & _ & ->)%fmap_Some)%bind_Some. done. Qed.

Lemma set_index_counters s i x s' :
  set_index s i x = Some s' →
  _num_enabled_pqs s' = _num_enabled_pqs s ∧ _num_nonempty_pqs s' = _num_nonempty_pqs s ∧
  _num_entries s' = _num_entries s.
Proof. unfold set_index. intros (? & _ & (? & _ & ->)%fmap_Some)%bind_Some. done. Qed.

Lemma swap_counters a b s s' :
  swap a b s = Some s' →
  _num_enabled_pqs s' = _num_enabled_pqs s ∧ _num_nonempty_pqs s' = _num_nonempty_pqs s ∧
  _num_entries s' = _num_entries s.
Proof.
  unfold swap. intros H.
  apply bind_Some in H as (qa & _ & H). apply bind_Some in H as (qb & _ & H).
  apply bind_Some in H as (s1 & (E1 & N1 & T1)%set_queue_counters & H).
  apply bind_Some in H as (s2 & (E2 & N2 & T2)%set_queue_counters & H).
  apply bind_Some in H as (pa & _ & H). apply bind_Some in H as (pb & _ & H).
  apply bind_Some in H as (s3 & (E3 & N3 & T3)%set_part_counters & H).
  apply bind_Some in H as (s4 & (E4 & N4 & T4)%set_part_counters & H).
  apply bind_Some in H as (pa' & _ & H). apply bind_Some in H as (pb' & _ & H).
  apply bind_Some in H as (ia & _ & H). apply bind_Some in H as (ib & _ & H).
  apply bind_Some in H as (s5 & (E5 & N5 & T5)%set_index_counters & H).
  apply bind_Some in H as (s6 & (E6 & N6 & T6)%set_index_counters & H).
  apply bind_Some in H as (? & _ & H). apply bind_Some in H as (? & _ & H).
  apply bind_Some in H as (? & _ & H). apply bind_Some in H as (? & _ & H).
  apply bind_Some in H as (? & _ & [= <-]).
  split_and!; congruence.
Qed.

Lemma total_size_ge l i q : Vec.get l i = Some q → Heap.size q ≤ total_size l.
Proof.
  revert i; induction l as [|x l IH]; intros i; simpl; [done|].
  destruct (i =? 0); [intros [= ->]; lia|]. intros H%IH. lia.
Qed.

Lemma enablePart_counters s p s' :
  wf s → is_part s p → isUnused s p = Some false → isEnabled s p = Some false →
  enablePart p s = Some s' →
  _num_enabled_pqs s' = _num_enabled_pqs s + 1 ∧
  _num_nonempty_pqs s' = _num_nonempty_pqs s ∧ _num_entries s' = _num_entries s.
Proof.
  intros Hwf Hp Hu He. unfold enablePart.
  rewrite (valid_part_true s p Hp (wf_k s Hwf)), bind_ASSERT, Hu, bind_ret, He, bind_ret.
  intros (i & _ & (s1 & (E1 & N1 & T1)%swap_counters & H)%bind_Some)%bind_Some.
  apply bind_Some in H as (_ & _ & [= <-]). simpl. rewrite E1.
  destruct (wf_counters s Hwf). pose proof (wf_k s Hwf).
  rewrite size_t_inc_small by lia. done.
Qed.

Lemma disablePart_counters s p s' :
  wf s → is_part s p → isEnabled s p = Some true → disablePart p s = Some s' →
  _num_enabled_pqs s' + 1 = _num_enabled_pqs s ∧
  _num_nonempty_pqs s' = _num_nonempty_pqs s ∧ _num_entries s' = _num_entries s.
Proof.
  intros Hwf Hp He. unfold disablePart.
  rewrite (valid_part_true s p Hp (wf_k s Hwf)), bind_ASSERT, He, bind_ret.
  intros (i & _ & (E1 & N1 & T1)%swap_counters)%bind_Some. simpl in *.
  rewrite E1. split; [|done].
  rewrite isEnabled_spec in He by done. injection He as He.
  destruct (enabled_position s p Hwf Hp He) as (j & _ & _ & Hj & _).
  destruct (wf_counters s Hwf). pose proof (wf_k s Hwf).
  rewrite size_t_dec_pos by lia. lia.
Qed.

Lemma contains_map (f : Heap.entry → Heap.entry) h id :
  (∀ e, fst (f e) = fst e) → Heap.contains (map f h) id = Heap.contains h id.
Proof.
  intros Hf. unfold Heap.contains. induction h as [|e h IH]; simpl; [done|].
  by rewrite Hf, IH.
Qed.

Lemma getKey_map (f : Heap.entry → Heap.entry) h id :
  (∀ e, fst (f e) = fst e) →
  Heap.getKey (map f h) id = (λ e, snd (f e)) <$> find (λ e, fst e =? id) h.
Proof.
  intros Hf. unfold Heap.getKey. induction h as [|e h IH]; simpl; [done|].
  rewrite Hf. destruct (fst e =? id); [done|]. apply IH.
Qed.

Lemma find_id_fst (h : Heap.t) id e : find (λ e, fst e =? id) h = Some e → fst e = id.
Proof. intros [_ H%N.eqb_eq]%find_some. done. Qed.

(** the key that [key] reads in the sub-queue of a part *)
Definition key_of (s : t) (id : N) (p : Z) : option Z :=
  if Heap.contains (subqueue s p) id then Heap.getKey (subqueue s p) id else None.

Lemma key_key_of s id p : wf s → is_part s p → key id p s = key_of s id p.
Proof.
  intros Hwf Hp. unfold key_of.
  destruct (Heap.contains (subqueue s p) id) eqn:Hc; [by apply key_spec|by apply key_None].
Qed.

Lemma key_Some_contains s id p k :
  wf s → is_part s p → key id p s = Some k →
  Heap.contains (subqueue s p) id = true ∧
  ∃ e, find (λ e, fst e =? id) (subqueue s p) = Some e ∧ snd e = k.
Proof.
  intros Hwf Hp. rewrite key_key_of by done. unfold key_of.
  destruct (Heap.contains (subqueue s p) id); [|done]. unfold Heap.getKey.
  intros (e & -> & ?)%fmap_Some. split; [done|]. by exists e.
Qed.

Lemma rekeyed_keys s s' id p (g : Z → Z) :
  wf s → wf s' → k_of s' = k_of s → is_part s p →
  (∀ q, is_part s q →
     subqueue s' q =
     if decide (q = p)
     then map (λ e : Heap.entry, if fst e =? id then (id, g (snd e)) else e) (subqueue s p)
     else subqueue s q) →
  (∀ q, is_part s q → enabled s' q = enabled s q) →
  (∀ k0, key id p s = Some k0 → key id p s' = Some (g k0)) ∧
  (∀ id' q, is_part s q → (id', q) ≠ (id, p) → key id' q s' = key id' q s) ∧
  (∀ q, is_part s q →
     size_of s' q = size_of s q ∧ isEnabled s' q = isEnabled s q ∧
     ∀ id', contains id' q s' = contains id' q s).
Proof.
  intros Hwf Hwf' Hk Hp Hsub Hen.
  assert (Hpart : ∀ q, is_part s q → is_part s' q) by (intros q; unfold is_part; by rewrite Hk).
  set (f := λ e : Heap.entry, if fst e =? id then (id, g (snd e)) else e) in *.
  assert (Hf : ∀ e, fst (f e) = fst e).
  { intros e. unfold f. destruct (N.eqb_spec (fst e) id); simpl; done. }
  split_and!.
  - intros k0 (Hc & e & Hfind & <-)%key_Some_contains; [|done..].
    rewrite key_key_of by auto. unfold key_of.
    rewrite Hsub, decide_True, contains_map, Hc, getKey_map, Hfind by done. simpl.
    unfold f. apply find_id_fst in Hfind. by rewrite Hfind, N.eqb_refl.
  - intros id' q Hq Hne. rewrite !key_key_of by auto. unfold key_of.
    rewrite Hsub by done. case_decide as Hqp; [|done]. subst q.
    rewrite contains_map by done. destruct (Heap.contains (subqueue s p) id'); [|done].
    rewrite getKey_map by done. unfold Heap.getKey.
    destruct (find _ _) as [e|] eqn:Hfind; [|done]. simpl. f_equal.
    apply find_id_fst in Hfind. unfold f.
    destruct (N.eqb_spec (fst e) id) as [Heq|]; [|done]. congruence.
  - intros q Hq. split_and!.
    + rewrite !size_of_spec, Hsub by auto. case_decide; [|done]. subst q.
      unfold Heap.size. by rewrite length_map.
    + by rewrite !isEnabled_spec, Hen by auto.
    + intros id'. rewrite !contains_spec, Hsub by auto. case_decide; [|done]. subst q.
      by rewrite contains_map.
Qed.

Section observations.

Variable MetaKey_min MetaKey_max : Z.
Variable UseRandomTieBreaking : bool.
Variable getRandomInt : N → N → N.

Local Abbreviation reachable := (reachable MetaKey_min MetaKey_max UseRandomTieBreaking getRandomInt).

(** X1. [insert] stores the entry: afterwards the id is contained in the part
    with the key given, and the part holds one entry more.  It does not
    enable the part, and the other parts keep their entries. *)
Theorem insert_then_lookup s id p k :
  reachable s → is_part s p → contains id p s = Some false →
  ∃ s', insert id p k s = Some s' ∧
    contains id p s' = Some true ∧ key id p s' = Some k ∧
    size_of s' p = N.succ <$> size_of s p ∧
    (∀ q, is_part s q → isEnabled s' q = isEnabled s q) ∧
    (∀ q, is_part s q → q ≠ p →
       size_of s' q = size_of s q ∧ ∀ id', contains id' q s' = contains id' q s).
Proof.
  intros Hwf%reachable_wf Hp Hc.
  rewrite contains_spec in Hc by done. injection Hc as Hc.
  destruct (insert_spec s id p k Hwf Hp Hc) as (s' & Hins & Hwf' & Hk & _ & _ & Hsub & Hen).
  assert (Hpart : ∀ q, is_part s q → is_part s' q) by (intros q; unfold is_part; by rewrite Hk).
  exists s'. split; [done|].
  assert (Hsp : subqueue s' p = (id, k) :: subqueue s p) by (by rewrite Hsub, decide_True).
  split_and!.
  - rewrite contains_spec, Hsp by auto. simpl. by rewrite N.eqb_refl.
  - rewrite key_spec, Hsp by (auto; rewrite Hsp; simpl; by rewrite N.eqb_refl).
    unfold Heap.getKey. simpl. by rewrite N.eqb_refl.
  - rewrite !size_of_spec, Hsp by auto. simpl. f_equal. unfold Heap.size. simpl. lia.
  - intros q Hq. by rewrite !isEnabled_spec, Hen by auto.
  - intros q Hq Hne. rewrite !size_of_spec, Hsub, decide_False by auto.
    split; [done|]. intros id'. by rewrite !contains_spec, Hsub, decide_False by auto.
Qed.

(** X2. [numEnabledParts] is the number of enabled parts and [numNonEmptyParts]
    the number of parts that hold an entry. *)
Theorem counters_count_parts s :
  reachable s →
  N.of_nat (length (filter (λ p, isEnabled s p = Some true) (parts s)))
    = numEnabledParts s ∧
  N.of_nat (length (filter (λ p, isUnused s p = Some false) (parts s)))
    = numNonEmptyParts s.
Proof.
  intros Hwf%reachable_wf. destruct (wf_counters s Hwf) as [HEN HNk].
  unfold numEnabledParts, numNonEmptyParts. split.
  - apply (count_positions s (_num_nonempty_pqs s)); [apply Hwf|done|done|].
    intros p Hp. rewrite isEnabled_spec by done.
    destruct (wf_position s p Hwf Hp) as (i & Hi & _ & [(-> & _ & Hen)|(Hlt & _ & h & _ & _ & _ & Hen)]).
    + rewrite Hen. split; [done|]. intros (j & Hj & Hjlt). simplify_eq.
      pose proof (wf_k s Hwf). unfold kInvalidIndex in *. lia.
    + rewrite Hen. split.
      * intros [= Hlt'%N.ltb_lt]. by exists i.
      * intros (j & Hj & Hjlt). simplify_eq. f_equal. by apply N.ltb_lt.
  - apply (count_positions s (_num_nonempty_pqs s)); [apply Hwf|done|done|].
    intros p Hp. rewrite isUnused_subqueue by done.
    destruct (wf_position s p Hwf Hp) as (i & Hi & _ & [(-> & Hsub & _)|(Hlt & _ & h & _ & Hne & Hsub & _)]).
    + rewrite Hsub. split; [done|]. intros (j & Hj & Hjlt). simplify_eq.
      pose proof (wf_k s Hwf). unfold kInvalidIndex in *. lia.
    + rewrite Hsub. split; [by exists i|]. intros _. by destruct h.
Qed.

(** X3. [enablePart] on a part that holds entries and is not enabled enables that
    part and no other; the sub-queues stay as they are. *)
Theorem enablePart_enables s p :
  reachable s → is_part s p → isUnused s p = Some false → isEnabled s p = Some false →
  ∃ s', enablePart p s = Some s' ∧
    isEnabled s' p = Some true ∧
    numEnabledParts s' = numEnabledParts s + 1 ∧
    numNonEmptyParts s' = numNonEmptyParts s ∧ size s' = size s ∧
    (∀ q, is_part s q →
       size_of s' q = size_of s q ∧ (∀ id, contains id q s' = contains id q s) ∧
       (q ≠ p → isEnabled s' q = isEnabled s q)).
Proof.
  intros Hwf%reachable_wf Hp Hu He.
  destruct (enablePart_spec s p Hwf Hp) as (s' & Hen & Hwf' & Hfr & Hsub & Henab).
  assert (Hpart : ∀ q, is_part s q → is_part s' q).
  { intros q. unfold is_part, k_of. by rewrite (frame_queues_size _ _ Hfr). }
  destruct (enablePart_counters s p s' Hwf Hp Hu He Hen) as (HE & HN & HT).
  exists s'. split; [done|]. split_and!; try done.
  - rewrite isEnabled_spec, Henab, decide_True by auto.
    rewrite isUnused_subqueue in Hu by done. injection Hu as ->. done.
  - intros q Hq. split_and!.
    + by rewrite !size_of_spec, Hsub by auto.
    + intros id. by rewrite !contains_spec, Hsub by auto.
    + intros Hne. by rewrite !isEnabled_spec, Henab, decide_False by auto.
Qed.

(** X4. [disablePart] undoes [enablePart]: after both, every part is enabled or
    disabled as before and holds the same entries. *)
Theorem disablePart_after_enablePart s p :
  reachable s → is_part s p → isUnused s p = Some false → isEnabled s p = Some false →
  ∃ s1 s2, enablePart p s = Some s1 ∧ disablePart p s1 = Some s2 ∧
    numEnabledParts s2 = numEnabledParts s ∧
    numNonEmptyParts s2 = numNonEmptyParts s ∧ size s2 = size s ∧
    (∀ q, is_part s q →
       isEnabled s2 q = isEnabled s q ∧ size_of s2 q = size_of s q ∧
       ∀ id, contains id q s2 = contains id q s).
Proof.
  intros Hwf%reachable_wf Hp Hu He.
  destruct (enablePart_spec s p Hwf Hp) as (s1 & Hen & Hwf1 & Hfr1 & Hsub1 & Henab1).
  assert (Hpart1 : ∀ q, is_part s q → is_part s1 q).
  { intros q. unfold is_part, k_of. by rewrite (frame_queues_size _ _ Hfr1). }
  destruct (enablePart_counters s p s1 Hwf Hp Hu He Hen) as (HE1 & HN1 & HT1).
  destruct (disablePart_spec s1 p Hwf1 (Hpart1 p Hp)) as (s2 & Hdis & Hwf2 & Hfr2 & Hsub2 & Henab2).
  assert (Hpart2 : ∀ q, is_part s q → is_part s2 q).
  { intros q Hq. apply Hpart1 in Hq. revert Hq. unfold is_part, k_of.
    by rewrite (frame_queues_size _ _ Hfr2). }
  assert (He1 : isEnabled s1 p = Some true).
  { rewrite isEnabled_spec, Henab1, decide_True by auto.
    rewrite isUnused_subqueue in Hu by done. injection Hu as ->. done. }
  destruct (disablePart_counters s1 p s2 Hwf1 (Hpart1 p Hp) He1 Hdis) as (HE2 & HN2 & HT2).
  exists s1, s2. split; [done|]. split; [done|].
  unfold numEnabledParts, numNonEmptyParts, size. split_and!; [lia|congruence|congruence|].
  intros q Hq. split_and!.
  - rewrite !isEnabled_spec, Henab2, Henab1 by auto.
    case_decide; [|done]. subst q.
    rewrite isEnabled_spec in He by done. by injection He as ->.
  - by rewrite !size_of_spec, Hsub2, Hsub1 by auto.
  - intros id. by rewrite !contains_spec, Hsub2, Hsub1 by auto.
Qed.

(** X5. [deleteMaxFromPartition] takes an entry of greatest key out of the
    sub-queue of an enabled part; the other parts are not touched, and the
    part stays enabled as long as it holds an entry. *)
Theorem deleteMaxFromPartition_takes_top s p :
  reachable s → is_part s p → isEnabled s p = Some true →
  (∀ e, e ∈ subqueue s p → snd e ≠ MetaKey_max) →
  ∃ id key s', deleteMaxFromPartition MetaKey_max p s = Some (id, key, s') ∧
    (id, key) ∈ subqueue s p ∧ (∀ e, e ∈ subqueue s p → (snd e ≤ key)%Z) ∧
    N.succ <$> size_of s' p = size_of s p ∧
    isEnabled s' p = Some (negb (Heap.empty (subqueue s' p))) ∧
    (∀ q, is_part s q → q ≠ p →
       size_of s' q = size_of s q ∧ isEnabled s' q = isEnabled s q ∧
       ∀ id', contains id' q s' = contains id' q s).
Proof.
  intros Hwf%reachable_wf Hp He Hmax.
  rewrite isEnabled_spec in He by done. injection He as He.
  destruct (deleteMaxFromPartition_spec MetaKey_max s p Hwf Hp He Hmax)
    as (id & key & s' & Hd & Hwf' & Hk & _ & Htop & Hsub & Henab).
  assert (Hpart : ∀ q, is_part s q → is_part s' q) by (intros q; unfold is_part; by rewrite Hk).
  exists id, key, s'. split; [done|]. split_and!.
  - by apply Heap.top_entry_elem.
  - intros e Hin. apply (Heap.top_entry_max _ (id, key) e Htop Hin).
  - rewrite !size_of_spec, Hsub, decide_True by auto. simpl. f_equal.
    apply Heap.size_pop. unfold Heap.pop. by rewrite Htop.
  - rewrite isEnabled_spec, Henab, Hsub, !decide_True by auto. done.
  - intros q Hq Hne. split_and!.
    + by rewrite !size_of_spec, Hsub, decide_False by auto.
    + by rewrite !isEnabled_spec, Henab, decide_False by auto.
    + intros id'. by rewrite !contains_spec, Hsub, decide_False by auto.
Qed.

(** X8. As long as the number of entries fits [size_t], [empty] answers whether
    no part is enabled; entries of disabled parts do not count. *)
Theorem empty_iff_no_part_enabled s :
  reachable s → total s < 2 ^ 64 →
  (empty s = true ↔ ∀ p, is_part s p → isEnabled s p = Some false).
Proof.
  intros Hwf%reachable_wf Htot. destruct (wf_counters s Hwf) as [HEN HNk].
  assert (Hzero : _num_enabled_pqs s = 0 ↔ ∀ p, is_part s p → isEnabled s p = Some false).
  { split.
    - intros HE p Hp. rewrite isEnabled_spec, enabled_unfold by done.
      destruct (get_index s (Z.to_N p)) as [i|]; [|done]. rewrite HE. by destruct i.
    - intros Hall. destruct (N.eq_dec (_num_enabled_pqs s) 0) as [|Hne]; [done|].
      destruct (position_enabled s 0 Hwf ltac:(lia)) as (q & h & Hq & _ & _ & Hen & _).
      specialize (Hall q Hq). rewrite isEnabled_spec, Hen in Hall by done. done. }
  rewrite <- Hzero. unfold empty. rewrite orb_true_iff, !N.eqb_eq. split; [|auto].
  intros [HE|HT]; [done|].
  destruct (N.eq_dec (_num_enabled_pqs s) 0) as [|Hne]; [done|]. exfalso.
  destruct (wf_nonempty s Hwf 0 ltac:(lia)) as (h & Hh & Hnil).
  pose proof (total_size_ge _ _ _ Hh) as Hge. fold (total s) in Hge.
  rewrite (wf_entries s Hwf), N.mod_small in HT by done.
  assert (0 < Heap.size h) by (by apply Heap.size_pos). lia.
Qed.

(** X9. [clear] empties the queue: no entry, no enabled and no non-empty part
    are left, and every part is unused. *)
Theorem clear_resets s :
  reachable s →
  ∃ s', clear s = Some s' ∧
    size s' = 0 ∧ numEnabledParts s' = 0 ∧ numNonEmptyParts s' = 0 ∧
    (∀ p, is_part s p →
       isUnused s' p = Some true ∧ isEnabled s' p = Some false ∧
       size_of s' p = Some 0 ∧ ∀ id, contains id p s' = Some false).
Proof.
  intros Hwf%reachable_wf.
  destruct (clear_spec s Hwf) as (s' & Hc & Hwf' & Hk & Htot & Hsub & Hen).
  assert (Hpart : ∀ q, is_part s q → is_part s' q) by (intros q; unfold is_part; by rewrite Hk).
  exists s'. split; [done|].
  assert (Hcnt : size s' = 0 ∧ numEnabledParts s' = 0 ∧ numNonEmptyParts s' = 0).
  { unfold clear in Hc. apply bind_Some in Hc as (? & _ & [= <-]). done. }
  destruct Hcnt as (? & ? & ?). split_and!; try done.
  intros p Hp. split_and!.
  - by rewrite isUnused_subqueue, Hsub by auto.
  - by rewrite isEnabled_spec, Hen by auto.
  - by rewrite size_of_spec, Hsub by auto.
  - intros id. by rewrite contains_spec, Hsub by auto.
Qed.

(** X10. For a key, a delta and a sum of the two within the limits of the
    key type, [updateKeyBy] adds the delta to the key of the entry and changes
    no other key; the sizes and the enabled parts stay as they are. *)
Theorem updateKeyBy_adds_delta s id p key_delta k0 :
  reachable s → is_part s p → key id p s = Some k0 →
  (MetaKey_min ≤ k0 ≤ MetaKey_max)%Z →
  (MetaKey_min ≤ key_delta ≤ MetaKey_max)%Z →
  (MetaKey_min ≤ k0 + key_delta ≤ MetaKey_max)%Z →
  ∃ s', updateKeyBy id p key_delta s = Some s' ∧
    key id p s' = Some (k0 + key_delta)%Z ∧
    (∀ id' q, is_part s q → (id', q) ≠ (id, p) → key id' q s' = key id' q s) ∧
    (∀ q, is_part s q →
       size_of s' q = size_of s q ∧ isEnabled s' q = isEnabled s q ∧
       ∀ id', contains id' q s' = contains id' q s).
Proof.
  intros Hwf%reachable_wf Hp Hkey _ _ _.
  destruct (key_Some_contains s id p k0 Hwf Hp Hkey) as [Hc _].
  destruct (updateKeyBy_spec s id p key_delta Hwf Hp Hc)
    as (s' & Hup & Hwf' & Hk & _ & Hsub & Hen).
  destruct (rekeyed_keys s s' id p (λ k, (k + key_delta)%Z) Hwf Hwf' Hk Hp Hsub Hen)
    as (H1 & H2 & H3).
  exists s'. split; [done|]. split; [by apply H1|]. done.
Qed.

(** X11. [updateKey] sets the key of the entry and changes no other key; the sizes
    and the enabled parts stay as they are. *)
Theorem updateKey_sets_key s id p k k0 :
  reachable s → is_part s p → key id p s = Some k0 →
  ∃ s', updateKey id p k s = Some s' ∧
    key id p s' = Some k ∧
    (∀ id' q, is_part s q → (id', q) ≠ (id, p) → key id' q s' = key id' q s) ∧
    (∀ q, is_part s q →
       size_of s' q = size_of s q ∧ isEnabled s' q = isEnabled s q ∧
       ∀ id', contains id' q s' = contains id' q s).
Proof.
  intros Hwf%reachable_wf Hp Hkey.
  destruct (key_Some_contains s id p k0 Hwf Hp Hkey) as [Hc _].
  destruct (updateKey_spec s id p k Hwf Hp Hc)
    as (s' & Hup & Hwf' & Hk & _ & Hsub & Hen).
  destruct (rekeyed_keys s s' id p (λ _, k) Hwf Hwf' Hk Hp Hsub Hen)
    as (H1 & H2 & H3).
  exists s'. split; [done|]. split; [by apply (H1 k0)|]. done.
Qed.

(** X13. [remove] takes the entry out of the part: the part holds one entry less
    and, unless this was its last entry, is enabled or disabled as before;
    the other parts are not touched. *)
Theorem remove_takes_entry s id p :
  reachable s → is_part s p → contains id p s = Some true →
  ∃ s', remove id p s = Some s' ∧
    N.succ <$> size_of s' p = size_of s p ∧
    (size_of s p ≠ Some 1 → isEnabled s' p = isEnabled s p) ∧
    (∀ q, is_part s q → q ≠ p →
       size_of s' q = size_of s q ∧ isEnabled s' q = isEnabled s q ∧
       ∀ id', contains id' q s' = contains id' q s).
Proof.
  intros Hwf%reachable_wf Hp Hc.
  rewrite contains_spec in Hc by done. injection Hc as Hc.
  destruct (remove_spec s id p Hwf Hp Hc) as (s' & Hrm & Hwf' & Hk & _ & Hsub & Hen).
  assert (Hpart : ∀ q, is_part s q → is_part s' q) by (intros q; unfold is_part; by rewrite Hk).
  assert (Hsize : N.succ (Heap.size (Heap.erase (λ e, fst e =? id) (subqueue s p)))
                  = Heap.size (subqueue s p)).
  { apply Heap.size_remove with (id := id). unfold Heap.remove. by rewrite Hc. }
  exists s'. split; [done|]. split_and!.
  - rewrite !size_of_spec, Hsub, decide_True by auto. simpl. by rewrite Hsize.
  - rewrite !size_of_spec, !isEnabled_spec, Hen, decide_True by auto. intros Hne.
    destruct (Heap.erase _ _) eqn:He; [|by rewrite andb_true_r].
    exfalso. apply Hne. f_equal. rewrite <- Hsize. done.
  - intros q Hq Hne. split_and!.
    + by rewrite !size_of_spec, Hsub, decide_False by auto.
    + by rewrite !isEnabled_spec, Hen, decide_False by auto.
    + intros id'. by rewrite !contains_spec, Hsub, decide_False by auto.
Qed.

End observations.

(** Runs of the queue of gains that exercise the theorems above. *)


Ltac is_part_computed := unfold is_part; vm_compute; split; [discriminate|reflexivity].

Lemma insert_then_lookup_witness :
  ∃ s, built 2 [Insert 5 1 7] = Some s ∧
  ∃ s', insert 6 1 9 s = Some s' ∧ contains 6 1 s' = Some true ∧
        key 6 1 s' = Some 9%Z ∧ isEnabled s' 1 = isEnabled s 1.
Proof.
  eexists. split; [vm_compute; reflexivity|].
  match goal with |- context [insert 6 1 9 ?s] => set (s0 := s) end.
  destruct (insert_then_lookup Gain_min Gain_max false first_of_range s0 6 1 9)
    as (s' & Hi & Hc & Hk & _ & He & _).
  - apply (built_reachable 2 [Insert 5 1 7]); vm_compute; reflexivity.
  - is_part_computed.
  - vm_compute; reflexivity.
  - exists s'. split_and!; try done. apply He. is_part_computed.
Defined.

Lemma counters_count_parts_witness :
  ∃ s, built 3 [Insert 5 1 7; Insert 6 0 9; EnablePart 1] = Some s ∧
    numEnabledParts s = 1 ∧ numNonEmptyParts s = 2.
Proof.
  eexists. split; [vm_compute; reflexivity|].
  match goal with |- numEnabledParts ?s = _ ∧ _ => set (s0 := s) end.
  destruct (counters_count_parts Gain_min Gain_max false first_of_range s0) as [<- <-].
  - apply (built_reachable 3 [Insert 5 1 7; Insert 6 0 9; EnablePart 1]);
      vm_compute; reflexivity.
  - split; vm_compute; reflexivity.
Defined.

Lemma enablePart_enables_witness :
  ∃ s, built 2 [Insert 5 1 7; Insert 6 0 9] = Some s ∧
  ∃ s', enablePart 1 s = Some s' ∧ isEnabled s' 1 = Some true ∧
        numEnabledParts s' = numEnabledParts s + 1.
Proof.
  eexists. split; [vm_compute; reflexivity|].
  match goal with |- context [enablePart 1 ?s] => set (s0 := s) end.
  destruct (enablePart_enables Gain_min Gain_max false first_of_range s0 1)
    as (s' & Hen & He & HE & _).
  - apply (built_reachable 2 [Insert 5 1 7; Insert 6 0 9]); vm_compute; reflexivity.
  - is_part_computed.
  - vm_compute; reflexivity.
  - vm_compute; reflexivity.
  - by exists s'.
Defined.

Lemma disablePart_after_enablePart_witness :
  ∃ s, built 2 [Insert 5 1 7; Insert 6 0 9; EnablePart 0] = Some s ∧
  ∃ s1 s2, enablePart 1 s = Some s1 ∧ disablePart 1 s1 = Some s2 ∧
    isEnabled s2 0 = isEnabled s 0 ∧ isEnabled s2 1 = isEnabled s 1 ∧
    numEnabledParts s2 = numEnabledParts s.
Proof.
  eexists. split; [vm_compute; reflexivity|].
  match goal with |- context [enablePart 1 ?s] => set (s0 := s) end.
  destruct (disablePart_after_enablePart Gain_min Gain_max false first_of_range s0 1)
    as (s1 & s2 & Hen & Hdis & HE & _ & _ & Hall).
  - apply (built_reachable 2 [Insert 5 1 7; Insert 6 0 9; EnablePart 0]);
      vm_compute; reflexivity.
  - is_part_computed.
  - vm_compute; reflexivity.
  - vm_compute; reflexivity.
  - exists s1, s2. split_and!; try done.
    + apply Hall. is_part_computed.
    + apply Hall. is_part_computed.
Defined.

Lemma deleteMaxFromPartition_takes_top_witness :
  ∃ s, built 2 [Insert 5 1 7; Insert 6 1 9; Insert 4 0 3; EnablePart 1] = Some s ∧
  ∃ id key s', deleteMaxFromPartition Gain_max 1 s = Some (id, key, s') ∧
    (∀ e, e ∈ subqueue s 1 → (snd e ≤ key)%Z) ∧
    isEnabled s' 1 = Some (negb (Heap.empty (subqueue s' 1))).
Proof.
  eexists. split; [vm_compute; reflexivity|].
  match goal with |- context [deleteMaxFromPartition _ 1 ?s] => set (s0 := s) end.
  destruct (deleteMaxFromPartition_takes_top Gain_min Gain_max false first_of_range s0 1)
    as (id & key & s' & Hd & _ & Hmax & _ & He & _).
  - apply (built_reachable 2 [Insert 5 1 7; Insert 6 1 9; Insert 4 0 3; EnablePart 1]);
      vm_compute; reflexivity.
  - is_part_computed.
  - vm_compute; reflexivity.
  - intros e He. vm_compute in He.
    repeat (apply elem_of_cons in He as [-> | He]; [vm_compute; discriminate|]).
    by apply elem_of_nil in He.
  - by exists id, key, s'.
Defined.

Lemma empty_iff_no_part_enabled_witness :
  ∃ s, built 2 [Insert 5 1 7; Insert 6 0 9] = Some s ∧ size s = 2 ∧ empty s = true.
Proof.
  eexists. split; [vm_compute; reflexivity|]. split; [vm_compute; reflexivity|].
  match goal with |- empty ?s = _ => set (s0 := s) end.
  apply (empty_iff_no_part_enabled Gain_min Gain_max false first_of_range s0).
  - apply (built_reachable 2 [Insert 5 1 7; Insert 6 0 9]); vm_compute; reflexivity.
  - vm_compute; reflexivity.
  - assert (Hk : k_of s0 = 2) by (vm_compute; reflexivity).
    intros p [-> | ->]%(is_part_2 _ _ Hk); vm_compute; reflexivity.
Defined.

Lemma clear_resets_witness :
  ∃ s, built 2 [Insert 5 1 7; Insert 6 0 9; EnablePart 0] = Some s ∧
  ∃ s', clear s = Some s' ∧ size s' = 0 ∧ isUnused s' 0 = Some true ∧
        isUnused s' 1 = Some true.
Proof.
  eexists. split; [vm_compute; reflexivity|].
  match goal with |- context [clear ?s] => set (s0 := s) end.
  destruct (clear_resets Gain_min Gain_max false first_of_range s0)
    as (s' & Hc & Hs & _ & _ & Hall).
  - apply (built_reachable 2 [Insert 5 1 7; Insert 6 0 9; EnablePart 0]);
      vm_compute; reflexivity.
  - exists s'. split_and!; try done.
    + apply Hall. is_part_computed.
    + apply Hall. is_part_computed.
Defined.

Lemma updateKeyBy_adds_delta_witness :
  ∃ s, built 2 [Insert 5 1 7; Insert 6 1 9] = Some s ∧
  ∃ s', updateKeyBy 5 1 (-10) s = Some s' ∧
        key 5 1 s' = Some (-3)%Z ∧ key 6 1 s' = Some 9%Z.
Proof.
  eexists. split; [vm_compute; reflexivity|].
  match goal with |- context [updateKeyBy 5 1 _ ?s] => set (s0 := s) end.
  destruct (updateKeyBy_adds_delta Gain_min Gain_max false first_of_range s0 5 1 (-10) 7)
    as (s' & Hup & Hk & Hoth & _).
  - apply (built_reachable 2 [Insert 5 1 7; Insert 6 1 9]); vm_compute; reflexivity.
  - is_part_computed.
  - vm_compute; reflexivity.
  - unfold Gain_min, Gain_max. lia.
  - unfold Gain_min, Gain_max. lia.
  - unfold Gain_min, Gain_max. lia.
  - exists s'. split_and!; try done. rewrite Hoth; [vm_compute; reflexivity| |].
    + is_part_computed.
    + intros [= ?].
Defined.

Lemma updateKey_sets_key_witness :
  ∃ s, built 2 [Insert 5 1 7; Insert 6 1 9] = Some s ∧
  ∃ s', updateKey 5 1 12 s = Some s' ∧
        key 5 1 s' = Some 12%Z ∧ key 6 1 s' = Some 9%Z.
Proof.
  eexists. split; [vm_compute; reflexivity|].
  match goal with |- context [updateKey 5 1 _ ?s] => set (s0 := s) end.
  destruct (updateKey_sets_key Gain_min Gain_max false first_of_range s0 5 1 12 7)
    as (s' & Hup & Hk & Hoth & _).
  - apply (built_reachable 2 [Insert 5 1 7; Insert 6 1 9]); vm_compute; reflexivity.
  - is_part_computed.
  - vm_compute; reflexivity.
  - exists s'. split_and!; try done. rewrite Hoth; [vm_compute; reflexivity| |].
    + is_part_computed.
    + intros [= ?].
Defined.

Lemma remove_takes_entry_witness :
  ∃ s, built 2 [Insert 5 1 7; Insert 6 1 9; EnablePart 1] = Some s ∧
  ∃ s', remove 5 1 s = Some s' ∧ size_of s' 1 = Some 1 ∧ isEnabled s' 1 = Some true.
Proof.
  eexists. split; [vm_compute; reflexivity|].
  match goal with |- context [remove 5 1 ?s] => set (s0 := s) end.
  destruct (remove_takes_entry Gain_min Gain_max false first_of_range s0 5 1)
    as (s' & Hrm & Hsz & He & _).
  - apply (built_reachable 2 [Insert 5 1 7; Insert 6 1 9; EnablePart 1]);
      vm_compute; reflexivity.
  - is_part_computed.
  - vm_compute; reflexivity.
  - exists s'. split; [done|].
    assert (Hs0 : size_of s0 1 = Some 2) by (vm_compute; reflexivity).
    rewrite Hs0 in Hsz, He. split.
    + destruct (size_of s' 1) as [n|]; [|done]. simpl in Hsz. f_equal.
      injection Hsz as Hsz. lia.
    + rewrite He by done. vm_compute; reflexivity.
Defined.

End KWayPriorityQueue.

(** ** The two-way flow refiner *)

(** [HyperedgeWeight] and [Flow] are [int32_t]; overflow of a signed
    addition or subtraction is undefined behaviour and a failure here. *)
Definition int32 (z : Z) : option Z :=
  if ((- 2 ^ 31 <=? z) && (z <? 2 ^ 31))%Z then Some z else None.

(** [double] values are rationals: the refiner only compares imbalances and
    multiplies or divides alpha by 2 and 4, which is exact on doubles as long
    as alpha stays in the range of normal numbers. *)
Definition Qlt_bool (x y : Q) : bool := negb (Qle_bool y x).

Module Hypergraph.

(** Modelled from the spec: the class [Hypergraph] is not among the sources.
    Of a hypergraph the refiner reads the block of a hypernode, the weight of
    a hyperedge and the current and initial number of hypernodes, and it
    changes the block of a hypernode with [changeNodePart(v, from, to)],
    which updates part(v). *)
Record t := {
  _part_ids : list Z;
  _edge_weights : list Z;
  _current_num_hypernodes : N;
  _num_hypernodes : N
}.

Definition with_part_ids (hg : t) (ps : list Z) : t :=
  {| _part_ids := ps; _edge_weights := _edge_weights hg;
     _current_num_hypernodes := _current_num_hypernodes hg;
     _num_hypernodes := _num_hypernodes hg |}.

Definition partID (hg : t) (hn : N) : option Z := Vec.get (_part_ids hg) hn.
Definition edgeWeight (hg : t) (he : N) : option Z := Vec.get (_edge_weights hg) he.
Definition currentNumNodes (hg : t) : N := _current_num_hypernodes hg.
Definition initialNumNodes (hg : t) : N := _num_hypernodes hg.

Definition changeNodePart (hn : N) (from to : Z) (hg : t) : option t :=
  ps ← Vec.set (_part_ids hg) hn to;
  Some (with_part_ids hg ps).

End Hypergraph.

Module TwoWayFlowRefiner.

(** Modelled from the spec: [INFTY] is [std::numeric_limits<Flow>::max()]. *)
Definition INFTY : Z := (2 ^ 31 - 1)%Z.

(** The part of [Context] that [refineImpl] and [minimumSTCut] read. *)
Record Context := {
  alpha : Q;                                  (* local_search.flow.alpha, a double *)
  epsilon : Q;                                (* partition.epsilon *)
  ignore_small_hyperedge_cut : bool;
  use_adaptive_alpha_stopping_rule : bool;
  use_most_balanced_minimum_cut : bool
}.

(** [Metrics], read through [getMetric(objective)] and [imbalance]. *)
Record Metrics := { metric : Z; imbalance : Q }.

(** What the components outside of the sources answer during one iteration
    of the loop of [refineImpl]: the quotient graph
    ([blockPairCutHyperedges]), the flow network built for the current alpha
    ([hypernodes], [isTrivialFlow], [build]), the solver ([maximumFlow]), the
    assignment of the hypernodes to the two sides of the minimum cut (the
    calls of [moveHypernode] made by [mostBalancedMinimumCut] or
    [bfs<true>]), and [metrics::objective] and [metrics::imbalance] on the
    hypergraph after that assignment. *)
Record FlowProblem := {
  blockPairCutHyperedges : list N;
  hypernodes : list N;
  isTrivialFlow : bool;
  build : Z;
  maximumFlow : Z;
  assignment : list (N * Z);
  objective_after : Z;
  imbalance_after : Q
}.

(** The hypergraph is shared by the refiner and its [MaximumFlow] object;
    [best_metrics] is the caller's, passed by reference. *)
Record state := {
  _hg : Hypergraph.t;
  _originalPartID : list Z;
  best_metrics : Metrics
}.

Definition with_hg (st : state) (hg : Hypergraph.t) : state :=
  {| _hg := hg; _originalPartID := _originalPartID st;
     best_metrics := best_metrics st |}.
Definition with_originalPartID (st : state) (o : list Z) : state :=
  {| _hg := _hg st; _originalPartID := o; best_metrics := best_metrics st |}.
Definition with_best_metrics (st : state) (m : Metrics) : state :=
  {| _hg := _hg st; _originalPartID := _originalPartID st; best_metrics := m |}.

(** *** [MaximumFlow] *)

Definition moveHypernode (hn : N) (to : Z) (st : state) : option state :=
  from ← Hypergraph.partID (_hg st) hn;
  ASSERT (negb (from =? -1)%Z);;
  if negb (from =? to)%Z
  then hg ← Hypergraph.changeNodePart hn from to (_hg st); Some (with_hg st hg)
  else Some st.

Definition minimumSTCut (ctx : Context) (pr : FlowProblem) (block_0 block_1 : Z)
    (st : state) : option (Z * state) :=
  if isTrivialFlow pr then Some (INFTY, st)
  else
    let defaultPart := if use_most_balanced_minimum_cut ctx then block_0 else block_1 in
    st ← foldM (λ st hn,
                  p ← Hypergraph.partID (_hg st) hn;
                  o ← Vec.set (_originalPartID st) hn p;
                  moveHypernode hn defaultPart (with_originalPartID st o))
               st (hypernodes pr);
    let cut := maximumFlow pr in
    st ← foldM (λ st m, moveHypernode (fst m) (snd m) st) st (assignment pr);
    Some (cut, st).

Definition rollback (storePartID : bool) (pr : FlowProblem) (st : state) : option state :=
  foldM (λ st hn,
           from ← Hypergraph.partID (_hg st) hn;
           o ← Vec.get (_originalPartID st) hn;
           st ← moveHypernode hn o st;
           if storePartID
           then o' ← Vec.set (_originalPartID st) hn from;
                Some (with_originalPartID st o')
           else Some st)
        st (hypernodes pr).

Definition getOriginalPartition (st : state) (hn : N) : option Z :=
  Vec.get (_originalPartID st) hn.

(** *** [QuotientGraphBlockScheduler] *)

(** Modelled from the spec: the scheduler is not among the sources.  Its
    [changeNodePart(hn, from, to)] changes the block of the hypernode in the
    hypergraph and keeps the sets of cut hyperedges of the block pairs up to
    date; these sets are read back as [blockPairCutHyperedges]. *)
Definition quotient_graph_changeNodePart (hn : N) (from to : Z) (st : state)
    : option state :=
  hg ← Hypergraph.changeNodePart hn from to (_hg st); Some (with_hg st hg).

(** *** [TwoWayFlowRefiner] *)

(** the variables of [refineImpl] that live across iterations *)
Record locals := { improvement : bool; loop_alpha : Q }.

(** how the body of the loop was left *)
Inductive outcome :=
  | SmallCut                  (* [return false] of heuristic 1 *)
  | ZeroCut                   (* [break]: no cut hyperedge *)
  | TrivialCut                (* [break]: the flow is INFTY *)
  | Stopped                   (* [break] of heuristic 2 *)
  | Finished (current_improvement : bool).   (* end of the body *)

Definition isRefinementOnLastLevel (st : state) : bool :=
  Hypergraph.currentNumNodes (_hg st) =? Hypergraph.initialNumNodes (_hg st).

Definition cut_weight_of (hg : Hypergraph.t) (cut_hes : list N) : option Z :=
  foldM (λ w he, we ← Hypergraph.edgeWeight hg he; int32 (w + we)) 0%Z cut_hes.

(** the alpha of the pass: [alpha /= 2.0] at the head of the body *)
Definition pass_alpha (loc : locals) : Q := loop_alpha loc / 2.

Definition accepted (ctx : Context) (best : Metrics) (current_metric : Z)
    (current_imbalance : Q) : bool :=
  let equal_metric := (current_metric =? metric best)%Z in
  let improved_metric := (current_metric <? metric best)%Z in
  let improved_imbalance := Qlt_bool current_imbalance (imbalance best) in
  let is_feasible_partition := Qle_bool current_imbalance (epsilon ctx) in
  (improved_metric && (is_feasible_partition || improved_imbalance))
  || (equal_metric && improved_imbalance).

Definition body (ctx : Context) (_block0 _block1 : Z) (pr : FlowProblem)
    (loc : locals) (st : state) : option (outcome * locals * state) :=
  let alpha_ := pass_alpha loc in
  let loc := {| improvement := improvement loc; loop_alpha := alpha_ |} in
  let cut_hes := blockPairCutHyperedges pr in
  cut_weight ← cut_weight_of (_hg st) cut_hes;
  if ignore_small_hyperedge_cut ctx && (cut_weight <=? 10)%Z
     && negb (isRefinementOnLastLevel st)
  then Some (SmallCut, loc, st)
  else if (length cut_hes =? 0)%nat then Some (ZeroCut, loc, st)
  else
    let cut_flow_network_before := build pr in
    r ← minimumSTCut ctx pr _block0 _block1 st;
    let cut_flow_network_after := fst r in
    let st := snd r in
    if (cut_flow_network_after =? INFTY)%Z then Some (TrivialCut, loc, st)
    else
      delta ← int32 (cut_flow_network_before - cut_flow_network_after);
      ASSERT (cut_flow_network_after <=? cut_flow_network_before)%Z;;
      expected ← int32 (metric (best_metrics st) - delta);
      ASSERT (expected =? objective_after pr)%Z;;
      let current_imbalance := imbalance_after pr in
      let old_metric := metric (best_metrics st) in
      current_metric ← int32 (old_metric - delta);
      let current_improvement := accepted ctx (best_metrics st) current_metric current_imbalance in
      let st :=
        if current_improvement
        then with_best_metrics st {| metric := current_metric; imbalance := current_imbalance |}
        else st in
      let loc :=
        if current_improvement
        then {| improvement := true;
                loop_alpha := alpha_ * (if Qeq_bool alpha_ (alpha ctx) then 2 else 4) |}
        else loc in
      st ← rollback current_improvement pr st;
      st ← (if current_improvement
            then foldM (λ st hn,
                          from ← Hypergraph.partID (_hg st) hn;
                          to ← getOriginalPartition st hn;
                          if negb (from =? to)%Z
                          then quotient_graph_changeNodePart hn from to st
                          else Some st)
                       st (hypernodes pr)
            else Some st);
      if use_adaptive_alpha_stopping_rule ctx && negb (improvement loc)
         && (cut_flow_network_before =? cut_flow_network_after)%Z
      then Some (Stopped, loc, st)
      else Some (Finished current_improvement, loc, st).

(** the [do ... while (alpha > 1.0)] loop; every iteration takes the answers
    of the outside components from the list *)
Fixpoint do_while (ctx : Context) (_block0 _block1 : Z) (prs : list FlowProblem)
    (loc : locals) (st : state) : option (bool * state) :=
  match prs with
  | [] => None
  | pr :: prs =>
      r ← body ctx _block0 _block1 pr loc st;
      let '(o, loc, st) := r in
      match o with
      | SmallCut => Some (false, st)
      | ZeroCut | TrivialCut | Stopped => Some (improvement loc, st)
      | Finished _ =>
          if Qlt_bool 1 (loop_alpha loc)
          then do_while ctx _block0 _block1 prs loc st
          else Some (improvement loc, st)
      end
  end.

(** [bool improvement = false; double alpha = flow.alpha * 2.0]: the product
    is the one of the doubles for a configured alpha of magnitude at most
    2^1022 ([exact_alpha] below), above which it overflows. *)
Definition entry (ctx : Context) : locals :=
  {| improvement := false; loop_alpha := alpha ctx * 2 |}.

(** [executeFlow] is the answer of the flow execution policy for the current
    level. *)
Definition refineImpl (ctx : Context) (_block0 _block1 : Z)
    (executeFlow _ignore_flow_execution_policy : bool)
    (prs : list FlowProblem) (st : state) : option (bool * state) :=
  if negb executeFlow && negb _ignore_flow_execution_policy then Some (false, st)
  else do_while ctx _block0 _block1 prs (entry ctx) st.

(** *** Loops that touch one hypernode per iteration *)

(** the fields that no loop of the refiner over the hypernodes touches *)
Definition others (st st' : state) : Prop :=
  best_metrics st' = best_metrics st ∧
  Hypergraph._edge_weights (_hg st') = Hypergraph._edge_weights (_hg st) ∧
  Hypergraph._current_num_hypernodes (_hg st') = Hypergraph._current_num_hypernodes (_hg st) ∧
  Hypergraph._num_hypernodes (_hg st') = Hypergraph._num_hypernodes (_hg st).

Definition part_of (st : state) (hn : N) : option Z := Hypergraph.partID (_hg st) hn.
Definition orig_of (st : state) (hn : N) : option Z := Vec.get (_originalPartID st) hn.

Lemma others_refl st : others st st.
Proof. by repeat split. Qed.

Lemma others_trans st1 st2 st3 : others st1 st2 → others st2 st3 → others st1 st3.
Proof. unfold others. intros (?&?&?&?) (?&?&?&?). split_and!; congruence. Qed.

Lemma state_ext st st' :
  Hypergraph._edge_weights (_hg st') = Hypergraph._edge_weights (_hg st) →
  Hypergraph._current_num_hypernodes (_hg st') = Hypergraph._current_num_hypernodes (_hg st) →
  Hypergraph._num_hypernodes (_hg st') = Hypergraph._num_hypernodes (_hg st) →
  (∀ hn, part_of st' hn = part_of st hn) → _hg st' = _hg st.
Proof.
  intros He Hc Hn Hp. destruct st as [[P E C M] O B], st' as [[P' E' C' M'] O' B'].
  simpl in *. subst. f_equal. apply Vec.ext, Hp.
Qed.

Lemma moveHypernode_spec hn to st p :
  part_of st hn = Some p → p ≠ (-1)%Z →
  ∃ st', moveHypernode hn to st = Some st' ∧ others st st' ∧
         _originalPartID st' = _originalPartID st ∧
         ∀ j, part_of st' j = if decide (j = hn) then Some to else part_of st j.
Proof.
  unfold part_of, moveHypernode. intros Hp Hne. rewrite Hp. simpl.
  destruct (Z.eqb_spec p (-1)) as [|_]; [done|]. simpl.
  destruct (Z.eqb_spec p to) as [->|Hpt]; simpl.
  - exists st. split_and!; [done|apply others_refl|done|].
    intros j. case_decide; [by subst|done].
  - unfold Hypergraph.changeNodePart, Hypergraph.partID in *.
    destruct (Vec.set_lt_is_Some (Hypergraph._part_ids (_hg st)) hn to) as [ps Hps].
    { by eapply Vec.get_Some_lt. }
    rewrite Hps. simpl. eexists. split; [done|]. split; [by repeat split|].
    split; [done|]. intros j. simpl. rewrite (Vec.get_set _ _ _ _ _ Hps).
    repeat case_decide; congruence.
Qed.

(** A step that rewrites the block and the saved block of one hypernode from
    their old values [p] and [o] to [g p o]. *)
Definition rewrites (g : Z → Z → Z * Z) (f : state → N → option state) : Prop :=
  ∀ st hn p o, part_of st hn = Some p → orig_of st hn = Some o → p ≠ (-1)%Z →
    ∃ st', f st hn = Some st' ∧ others st st' ∧
      (∀ j, part_of st' j = if decide (j = hn) then Some (g p o).1 else part_of st j) ∧
      (∀ j, orig_of st' j = if decide (j = hn) then Some (g p o).2 else orig_of st j).

Lemma foldM_rewrites g f l :
  rewrites g f → NoDup l → ∀ st,
  (∀ hn, hn ∈ l → ∃ p o, part_of st hn = Some p ∧ orig_of st hn = Some o ∧ p ≠ (-1)%Z) →
  ∃ st', foldM f st l = Some st' ∧ others st st' ∧
    (∀ hn, hn ∉ l → part_of st' hn = part_of st hn ∧ orig_of st' hn = orig_of st hn) ∧
    (∀ hn p o, hn ∈ l → part_of st hn = Some p → orig_of st hn = Some o →
       part_of st' hn = Some (g p o).1 ∧ orig_of st' hn = Some (g p o).2).
Proof.
  intros Hf. induction 1 as [|x l Hx Hl IH]; intros st Hst; simpl.
  - exists st. split_and!; [done|apply others_refl|done|]. by intros ??? ?%elem_of_nil.
  - destruct (Hst x) as (p & o & Hp & Ho & Hne); [by left|].
    destruct (Hf st x p o Hp Ho Hne) as (st1 & Hstep & Hoth & HP & HO).
    rewrite Hstep. simpl.
    destruct (IH st1) as (st' & Hfold & Hoth' & Hout & Hin).
    { intros hn Hhn. destruct (Hst hn) as (p' & o' & ? & ? & ?); [by right|].
      exists p', o'. rewrite HP, HO. case_decide; [by subst|done]. }
    exists st'. split; [done|]. split; [by eapply others_trans|]. split.
    + intros hn Hhn. apply not_elem_of_cons in Hhn as [Hne' Hhn].
      destruct (Hout hn Hhn) as [-> ->]. rewrite HP, HO. by rewrite !decide_False by done.
    + intros hn p' o' Hhn Hp' Ho'. apply elem_of_cons in Hhn as [Heq|Hhn].
      * subst hn. destruct (Hout x Hx) as [-> ->]. rewrite HP, HO.
        rewrite !decide_True by done. by simplify_eq.
      * apply Hin; [done| |]; rewrite ?HP, ?HO; rewrite decide_False; done || by intros ->.
Qed.

Lemma orig_set st hn p o :
  Vec.set (_originalPartID st) hn p = Some o →
  others st (with_originalPartID st o) ∧
  (∀ j, part_of (with_originalPartID st o) j = part_of st j) ∧
  (∀ j, orig_of (with_originalPartID st o) j
        = if decide (j = hn) then Some p else orig_of st j).
Proof.
  intros Hset. split; [by repeat split|]. split; [done|].
  intros j. unfold orig_of. simpl. rewrite (Vec.get_set _ _ _ _ _ Hset).
  repeat case_decide; congruence.
Qed.

Lemma orig_set_is_Some st hn p o0 :
  orig_of st hn = Some o0 → ∃ o, Vec.set (_originalPartID st) hn p = Some o.
Proof.
  intros H. apply Vec.get_Some_lt in H.
  by destruct (Vec.set_lt_is_Some (_originalPartID st) hn p H) as [o Ho]; exists o.
Qed.

(** the first loop of [minimumSTCut] *)
Lemma save_and_move_rewrites d :
  rewrites (λ p _, (d, p))
    (λ st hn, p ← Hypergraph.partID (_hg st) hn;
              o ← Vec.set (_originalPartID st) hn p;
              moveHypernode hn d (with_originalPartID st o)).
Proof.
  intros st hn p o Hp Ho Hne. change (Hypergraph.partID (_hg st) hn) with (part_of st hn).
  rewrite Hp. simpl.
  destruct (orig_set_is_Some st hn p o Ho) as [o' Hset]. rewrite Hset. simpl.
  destruct (orig_set st hn p o' Hset) as (Hoth & HP & HO).
  destruct (moveHypernode_spec hn d (with_originalPartID st o') p) as (st' & Hm & Hoth' & Ho' & HP');
    [by rewrite HP|done|].
  exists st'. split; [done|]. split; [by eapply others_trans|]. split.
  - intros j. rewrite HP', HP. done.
  - intros j. unfold orig_of at 1. rewrite Ho'. apply HO.
Qed.

(** the loop of [rollback] *)
Lemma rollback_rewrites (storePartID : bool) :
  rewrites (λ p o, (o, if storePartID then p else o))
    (λ st hn, from ← Hypergraph.partID (_hg st) hn;
              o ← Vec.get (_originalPartID st) hn;
              st ← moveHypernode hn o st;
              if storePartID
              then o' ← Vec.set (_originalPartID st) hn from;
                   Some (with_originalPartID st o')
              else Some st).
Proof.
  intros st hn p o Hp Ho Hne. change (Hypergraph.partID (_hg st) hn) with (part_of st hn).
  change (Vec.get (_originalPartID st) hn) with (orig_of st hn).
  rewrite Hp, Ho. simpl.
  destruct (moveHypernode_spec hn o st p Hp Hne) as (st1 & Hm & Hoth & Ho1 & HP1).
  rewrite Hm. simpl. destruct storePartID.
  - destruct (orig_set_is_Some st1 hn p o) as [o' Hset].
    { unfold orig_of. by rewrite Ho1. }
    rewrite Hset. simpl. destruct (orig_set st1 hn p o' Hset) as (Hoth' & HP & HO).
    eexists. split; [done|]. split; [by eapply others_trans|]. split.
    + intros j. by rewrite HP, HP1.
    + intros j. rewrite HO. unfold orig_of. by rewrite Ho1.
  - exists st1. split; [done|]. split; [done|]. split; [done|].
    intros j. unfold orig_of. rewrite Ho1. case_decide; [by subst|done].
Qed.

(** the loop of [refineImpl] that replays the moves in the quotient graph *)
Lemma replay_rewrites :
  rewrites (λ _ o, (o, o))
    (λ st hn, from ← Hypergraph.partID (_hg st) hn;
              to ← getOriginalPartition st hn;
              if negb (from =? to)%Z
              then quotient_graph_changeNodePart hn from to st
              else Some st).
Proof.
  intros st hn p o Hp Ho Hne. change (Hypergraph.partID (_hg st) hn) with (part_of st hn).
  change (getOriginalPartition st hn) with (orig_of st hn).
  rewrite Hp, Ho. simpl.
  destruct (Z.eqb_spec p o) as [->|Hpo]; simpl.
  - exists st. split; [done|]. split; [apply others_refl|].
    split; intros j; case_decide; by subst.
  - unfold quotient_graph_changeNodePart, Hypergraph.changeNodePart.
    destruct (Vec.set_lt_is_Some (Hypergraph._part_ids (_hg st)) hn o) as [ps Hps].
    { by eapply Vec.get_Some_lt. }
    rewrite Hps. simpl. eexists. split; [done|]. split; [by repeat split|]. split.
    + intros j. unfold part_of, Hypergraph.partID. simpl.
      rewrite (Vec.get_set _ _ _ _ _ Hps). repeat case_decide; congruence.
    + intros j. unfold orig_of. simpl. case_decide; by subst.
Qed.

(** the moves of the assignment to the sides of the cut *)
Lemma assignment_spec (hns : list N) (ms : list (N * Z)) :
  (∀ m, m ∈ ms → m.1 ∈ hns ∧ m.2 ≠ (-1)%Z) → ∀ st,
  (∀ hn, hn ∈ hns → ∃ p, part_of st hn = Some p ∧ p ≠ (-1)%Z) →
  ∃ st', foldM (λ st m, moveHypernode m.1 m.2 st) st ms = Some st' ∧
    others st st' ∧ _originalPartID st' = _originalPartID st ∧
    (∀ hn, hn ∉ hns → part_of st' hn = part_of st hn) ∧
    (∀ hn, hn ∈ hns → ∃ p, part_of st' hn = Some p ∧ p ≠ (-1)%Z).
Proof.
  induction ms as [|[hn to] ms IH]; intros Hms st Hst; simpl.
  - exists st. split_and!; [done|apply others_refl|done|done|done].
  - destruct (Hms (hn, to)) as [Hin Hto]; [by left|]. simpl in Hin, Hto.
    destruct (Hst hn Hin) as (p & Hp & Hne).
    destruct (moveHypernode_spec hn to st p Hp Hne) as (st1 & Hm & Hoth & Ho & HP).
    rewrite Hm. simpl.
    destruct (IH ltac:(intros m Hm'; apply Hms; by right) st1)
      as (st' & Hfold & Hoth' & Ho' & Hout & Hins).
    { intros j Hj. rewrite HP. case_decide; [by exists to|by apply Hst]. }
    exists st'. split; [done|]. split; [by eapply others_trans|].
    split; [congruence|]. split; [|done].
    intros j Hj. rewrite Hout, HP by done. by rewrite decide_False by (by intros ->).
Qed.

(** What [minimumSTCut] and [rollback] expect of the flow network: its
    hypernodes are distinct hypernodes of the hypergraph that are assigned to
    a block, and only they are moved, to one of the blocks. *)
Record ready (block_0 block_1 : Z) (pr : FlowProblem) (st : state) : Prop := {
  ready_blocks : block_0 ≠ (-1)%Z ∧ block_1 ≠ (-1)%Z;
  ready_NoDup : NoDup (hypernodes pr);
  ready_parts : ∀ hn, hn ∈ hypernodes pr →
      ∃ p o, part_of st hn = Some p ∧ orig_of st hn = Some o ∧ p ≠ (-1)%Z;
  ready_moves : ∀ m, m ∈ assignment pr → m.1 ∈ hypernodes pr ∧ m.2 ≠ (-1)%Z
}.

Lemma minimumSTCut_spec ctx pr b0 b1 st :
  ready b0 b1 pr st → isTrivialFlow pr = false →
  ∃ st1, minimumSTCut ctx pr b0 b1 st = Some (maximumFlow pr, st1) ∧
    others st st1 ∧
    (∀ hn, hn ∉ hypernodes pr →
       part_of st1 hn = part_of st hn ∧ orig_of st1 hn = orig_of st hn) ∧
    (∀ hn, hn ∈ hypernodes pr →
       orig_of st1 hn = part_of st hn ∧ ∃ p, part_of st1 hn = Some p ∧ p ≠ (-1)%Z).
Proof.
  intros [[Hb0 Hb1] Hnd Hparts Hmoves] Htriv. unfold minimumSTCut. rewrite Htriv.
  set (d := if use_most_balanced_minimum_cut ctx then b0 else b1).
  assert (Hd : d ≠ (-1)%Z) by (unfold d; by destruct use_most_balanced_minimum_cut).
  destruct (foldM_rewrites _ _ (hypernodes pr) (save_and_move_rewrites d) Hnd st Hparts)
    as (sta & Hfa & Hotha & Houta & Hina).
  rewrite Hfa. simpl.
  destruct (assignment_spec (hypernodes pr) (assignment pr) Hmoves sta)
    as (stb & Hfb & Hothb & Hob & Houtb & Hinb).
  { intros hn Hhn. destruct (Hparts hn Hhn) as (p & o & Hp & Ho & _).
    destruct (Hina hn p o Hhn Hp Ho) as [-> _]. by exists d. }
  rewrite Hfb. simpl. exists stb. split; [done|]. split; [by eapply others_trans|]. split.
  - intros hn Hhn. destruct (Houta hn Hhn) as [<- <-]. split; [by apply Houtb|].
    unfold orig_of. by rewrite Hob.
  - intros hn Hhn. split; [|by apply Hinb].
    destruct (Hparts hn Hhn) as (p & o & Hp & Ho & _).
    destruct (Hina hn p o Hhn Hp Ho) as [_ Horig]. unfold orig_of in *.
    by rewrite Hob, Horig, Hp.
Qed.

(** [rollback(false)] puts every hypernode back; [rollback(true)] followed by
    the replay in the quotient graph leaves every hypernode where the
    minimum cut has put it. *)
Lemma rollback_spec (storePartID : bool) pr st0 st :
  NoDup (hypernodes pr) →
  (∀ hn, hn ∉ hypernodes pr → part_of st hn = part_of st0 hn) →
  (∀ hn, hn ∈ hypernodes pr →
     orig_of st hn = part_of st0 hn ∧ ∃ p, part_of st hn = Some p ∧ p ≠ (-1)%Z) →
  (∀ hn, hn ∈ hypernodes pr → ∃ p, part_of st0 hn = Some p ∧ p ≠ (-1)%Z) →
  ∃ st1, rollback storePartID pr st = Some st1 ∧ others st st1 ∧
    (∀ hn, part_of st1 hn = part_of st0 hn) ∧
    (∀ hn, hn ∈ hypernodes pr →
       orig_of st1 hn = if storePartID then part_of st hn else part_of st0 hn) ∧
    (∀ hn, hn ∉ hypernodes pr → orig_of st1 hn = orig_of st hn).
Proof.
  intros Hnd Hout Hin H0. unfold rollback.
  destruct (foldM_rewrites _ _ (hypernodes pr) (rollback_rewrites storePartID) Hnd st)
    as (st1 & Hf & Hoth1 & Hout1 & Hin1).
  { intros hn Hhn. destruct (Hin hn Hhn) as (Ho & p & Hp & Hne).
    destruct (H0 hn Hhn) as (p0 & Hp0 & _). exists p, p0. by rewrite Ho. }
  exists st1. split; [done|]. split; [done|]. split_and!.
  - intros hn. destruct (decide (hn ∈ hypernodes pr)) as [Hhn|Hhn].
    + destruct (Hin hn Hhn) as (Ho & p & Hp & Hne). destruct (H0 hn Hhn) as (p0 & Hp0 & _).
      destruct (Hin1 hn p p0 Hhn Hp) as [-> _]; [by rewrite Ho|]. done.
    + destruct (Hout1 hn Hhn) as [-> _]. by apply Hout.
  - intros hn Hhn.
    destruct (Hin hn Hhn) as (Ho & p & Hp & Hne). destruct (H0 hn Hhn) as (p0 & Hp0 & _).
    destruct (Hin1 hn p p0 Hhn Hp) as [_ ->]; [by rewrite Ho|].
    simpl. rewrite Hp, Hp0. by destruct storePartID.
  - intros hn Hhn. by destruct (Hout1 hn Hhn) as [_ ->].
Qed.

Lemma replay_spec pr st_cut st :
  NoDup (hypernodes pr) →
  (∀ hn, hn ∉ hypernodes pr → part_of st hn = part_of st_cut hn) →
  (∀ hn, hn ∈ hypernodes pr →
     orig_of st hn = part_of st_cut hn ∧
     (∃ p, part_of st hn = Some p ∧ p ≠ (-1)%Z) ∧ is_Some (part_of st_cut hn)) →
  ∃ st1, foldM (λ st hn, from ← Hypergraph.partID (_hg st) hn;
                         to ← getOriginalPartition st hn;
                         if negb (from =? to)%Z
                         then quotient_graph_changeNodePart hn from to st
                         else Some st) st (hypernodes pr) = Some st1 ∧
    others st st1 ∧ ∀ hn, part_of st1 hn = part_of st_cut hn.
Proof.
  intros Hnd Hout Hin.
  destruct (foldM_rewrites _ _ (hypernodes pr) replay_rewrites Hnd st)
    as (st1 & Hf & Hoth1 & Hout1 & Hin1).
  { intros hn Hhn. destruct (Hin hn Hhn) as (Ho & (p & Hp & Hne) & [q Hq]).
    exists p, q. by rewrite Ho. }
  exists st1. split; [done|]. split; [done|].
  intros hn. destruct (decide (hn ∈ hypernodes pr)) as [Hhn|Hhn].
  - destruct (Hin hn Hhn) as (Ho & (p & Hp & Hne) & [q Hq]).
    destruct (Hin1 hn p q Hhn Hp) as [-> _]; [by rewrite Ho|]. done.
  - destruct (Hout1 hn Hhn) as [-> _]. by apply Hout.
Qed.

Lemma int32_Some z r : int32 z = Some r → r = z.
Proof. unfold int32. case_match; [by intros [= <-]|done]. Qed.

(** the variables of the loop after a pass that ran to the decision *)
Definition decided (ctx : Context) (loc : locals) (current_improvement : bool) : locals :=
  if current_improvement
  then {| improvement := true;
          loop_alpha := pass_alpha loc
                        * (if Qeq_bool (pass_alpha loc) (alpha ctx) then 2 else 4) |}
  else {| improvement := improvement loc; loop_alpha := pass_alpha loc |}.

(** The hypotheses under which the body of the loop runs up to the decision
    on the new assignment. *)
Record runs (ctx : Context) (pr : FlowProblem) (st : state) (delta current : Z) : Prop := {
  runs_weight : ∃ w, cut_weight_of (_hg st) (blockPairCutHyperedges pr) = Some w ∧
      ignore_small_hyperedge_cut ctx && (w <=? 10)%Z && negb (isRefinementOnLastLevel st) = false;
  runs_cut : blockPairCutHyperedges pr ≠ [];
  runs_flow : isTrivialFlow pr = false ∧ maximumFlow pr ≠ INFTY ∧
      (maximumFlow pr ≤ build pr)%Z;
  runs_delta : int32 (build pr - maximumFlow pr) = Some delta;
  runs_metric : int32 (metric (best_metrics st) - delta) = Some current ∧
      current = objective_after pr
}.

Lemma body_decision ctx b0 b1 pr loc st delta current :
  ready b0 b1 pr st → runs ctx pr st delta current →
  let ci := accepted ctx (best_metrics st) current (imbalance_after pr) in
  let loc' := decided ctx loc ci in
  ∃ st_cut st',
    minimumSTCut ctx pr b0 b1 st = Some (maximumFlow pr, st_cut) ∧
    body ctx b0 b1 pr loc st =
      Some (if use_adaptive_alpha_stopping_rule ctx && negb (improvement loc')
               && (build pr =? maximumFlow pr)%Z
            then Stopped else Finished ci, loc', st') ∧
    _hg st' = (if ci then _hg st_cut else _hg st) ∧
    best_metrics st' =
      (if ci then {| metric := current; imbalance := imbalance_after pr |}
       else best_metrics st).
Proof.
  intros Hready [(w & Hw & Hsmall) Hcut (Htriv & Hinf & Hle) Hdelta [Hcur Hobj]] ci loc'.
  assert (Hci : accepted ctx (best_metrics st) current (imbalance_after pr) = ci) by done.
  subst loc'. clearbody ci.
  destruct (minimumSTCut_spec ctx pr b0 b1 st Hready Htriv)
    as (st_cut & Hmin & Hoth & Hout & Hin).
  destruct Hready as [_ Hnd Hparts _].
  assert (H0 : ∀ hn, hn ∈ hypernodes pr → ∃ p, part_of st hn = Some p ∧ p ≠ (-1)%Z).
  { intros hn Hhn. destruct (Hparts hn Hhn) as (p & _ & Hp & _ & Hne). by exists p. }
  assert (Hbest : best_metrics st_cut = best_metrics st) by apply Hoth.
  set (st_m := if ci then with_best_metrics st_cut
                      {| metric := current; imbalance := imbalance_after pr |}
               else st_cut).
  assert (Hm_part : ∀ hn, part_of st_m hn = part_of st_cut hn)
    by (intros hn; unfold st_m; by destruct ci).
  assert (Hm_orig : ∀ hn, orig_of st_m hn = orig_of st_cut hn)
    by (intros hn; unfold st_m; by destruct ci).
  assert (Hm_oth : ∀ s, others st_m s →
            Hypergraph._edge_weights (_hg s) = Hypergraph._edge_weights (_hg st) ∧
            Hypergraph._current_num_hypernodes (_hg s) = Hypergraph._current_num_hypernodes (_hg st) ∧
            Hypergraph._num_hypernodes (_hg s) = Hypergraph._num_hypernodes (_hg st) ∧
            best_metrics s = if ci then {| metric := current; imbalance := imbalance_after pr |}
                             else best_metrics st).
  { intros s (Hb & He & Hc & Hn). destruct Hoth as (Hb' & He' & Hc' & Hn').
    rewrite Hb, He, Hc, Hn. unfold st_m. destruct ci; simpl; split_and!; congruence. }
  destruct (rollback_spec ci pr st st_m Hnd) as (st_r & Hroll & Hoth_r & HPr & HOin & HOout).
  { intros hn Hhn. rewrite Hm_part. by apply Hout. }
  { intros hn Hhn. rewrite Hm_part, Hm_orig. by apply Hin. }
  { done. }
  assert (∃ st',
    (if ci
     then foldM (λ st hn, from ← Hypergraph.partID (_hg st) hn;
                          to ← getOriginalPartition st hn;
                          if negb (from =? to)%Z
                          then quotient_graph_changeNodePart hn from to st
                          else Some st) st_r (hypernodes pr)
     else Some st_r) = Some st' ∧ others st_m st' ∧
    ∀ hn, part_of st' hn = if ci then part_of st_cut hn else part_of st hn)
    as (st' & Hreplay & Hoth' & HP').
  { destruct ci.
    - destruct (replay_spec pr st_cut st_r Hnd) as (st' & Hf & Hoth' & HP').
      + intros hn Hhn. rewrite HPr. symmetry. by apply Hout.
      + intros hn Hhn. rewrite HOin, Hm_part, HPr by done.
        destruct (Hin hn Hhn) as (_ & p & Hp & Hne). split; [done|].
        split; [by apply H0|by rewrite Hp].
      + exists st'. split; [done|]. split; [by eapply others_trans|done].
    - exists st_r. split; [done|]. split; [done|]. done. }
  destruct (Hm_oth st' Hoth') as (He' & Hc' & Hn' & Hb').
  exists st_cut, st'. split; [done|]. split; [|split; [|done]].
  - unfold body. rewrite Hw. simpl. rewrite Hsmall.
    destruct (blockPairCutHyperedges pr) as [|he hes] eqn:Hhes; [done|]. simpl.
    rewrite Hmin. simpl.
    destruct (Z.eqb_spec (maximumFlow pr) INFTY) as [|_]; [done|].
    rewrite Hdelta. simpl.
    destruct (Z.leb_spec (maximumFlow pr) (build pr)) as [_|]; [|lia]. simpl.
    rewrite Hbest, Hcur. simpl.
    destruct (Z.eqb_spec current (objective_after pr)) as [_|]; [|done]. simpl.
    rewrite Hci. fold st_m. rewrite Hroll. simpl. rewrite Hreplay. simpl.
    unfold decided. by repeat case_match.
  - destruct Hoth as (_ & ? & ? & ?).
    destruct ci; apply state_ext; congruence.
Qed.

Lemma Qlt_bool_iff x y : Qlt_bool x y = true ↔ (x < y)%Q.
Proof.
  unfold Qlt_bool. rewrite negb_true_iff, <- not_true_iff_false, Qle_bool_iff.
  split; [apply Qnot_le_lt|apply Qlt_not_le].
Qed.

(** the condition under which a pass keeps the new assignment *)
Definition commits (ctx : Context) (best : Metrics) (current_metric : Z)
    (current_imbalance : Q) : Prop :=
  ((current_metric < metric best)%Z ∧
   ((current_imbalance <= epsilon ctx)%Q ∨ (current_imbalance < imbalance best)%Q))
  ∨ (current_metric = metric best ∧ (current_imbalance < imbalance best)%Q).

Lemma accepted_spec ctx best current_metric current_imbalance :
  accepted ctx best current_metric current_imbalance = true
  ↔ commits ctx best current_metric current_imbalance.
Proof.
  unfold accepted, commits.
  rewrite orb_true_iff, !andb_true_iff, orb_true_iff, Z.ltb_lt, Z.eqb_eq,
    Qlt_bool_iff, Qle_bool_iff. done.
Qed.

(** C4 (as amended). A pass of the two-way flow refiner that runs to the
    decision keeps the assignment of the minimum cut, and records its
    objective and imbalance as the best ones, when the objective is strictly
    smaller than the best recorded one and the imbalance is at most epsilon
    or strictly smaller than the best recorded one, or when the objective is
    equal and the imbalance strictly smaller; in every other case the
    hypergraph and the best metrics are as before the pass. *)
Theorem pass_commits_or_rolls_back ctx b0 b1 pr loc st delta current :
  ready b0 b1 pr st → runs ctx pr st delta current →
  ∃ st_cut o loc' st',
    minimumSTCut ctx pr b0 b1 st = Some (maximumFlow pr, st_cut) ∧
    body ctx b0 b1 pr loc st = Some (o, loc', st') ∧
    (commits ctx (best_metrics st) current (imbalance_after pr) →
       _hg st' = _hg st_cut ∧
       best_metrics st' = {| metric := current; imbalance := imbalance_after pr |}) ∧
    (¬ commits ctx (best_metrics st) current (imbalance_after pr) →
       _hg st' = _hg st ∧ best_metrics st' = best_metrics st).
Proof.
  intros Hready Hruns.
  destruct (body_decision ctx b0 b1 pr loc st delta current Hready Hruns)
    as (st_cut & st' & Hmin & Hbody & Hhg & Hbest).
  exists st_cut. eexists _, _, st'. split; [done|]. split; [exact Hbody|].
  rewrite <- accepted_spec.
  destruct (accepted ctx (best_metrics st) current (imbalance_after pr)); split; done.
Qed.

(** *** A refinement on four hypernodes *)

(** Two blocks with the hypernodes 0, 1 and 2, 3; the cut hyperedges 0 and 1
    weigh 2 and 3; the flow network holds the hypernodes 1 and 2, and the
    minimum cut of weight 3 puts both of them on the side of block 0. *)
Definition example_context : Context :=
  {| alpha := 16; epsilon := 3 # 100;
     ignore_small_hyperedge_cut := true;
     use_adaptive_alpha_stopping_rule := true;
     use_most_balanced_minimum_cut := false |}.

Definition example_hypergraph (current_num_hypernodes : N) : Hypergraph.t :=
  {| Hypergraph._part_ids := [0; 0; 1; 1]%Z;
     Hypergraph._edge_weights := [2; 3]%Z;
     Hypergraph._current_num_hypernodes := current_num_hypernodes;
     Hypergraph._num_hypernodes := 4 |}.

Definition example_state (current_num_hypernodes : N) : state :=
  {| _hg := example_hypergraph current_num_hypernodes;
     _originalPartID := [0; 0; 0; 0]%Z;
     best_metrics := {| metric := 5; imbalance := 1 # 50 |} |}.

Definition example_pass (imbalance_after : Q) : FlowProblem :=
  {| blockPairCutHyperedges := [0; 1];
     hypernodes := [1; 2];
     isTrivialFlow := false;
     build := 5;
     maximumFlow := 3;
     assignment := [(1, 0%Z); (2, 0%Z)];
     objective_after := 3;
     imbalance_after := imbalance_after |}.

(** a later pass on the result, which finds the cut it started from *)
Definition idle_pass : FlowProblem :=
  {| blockPairCutHyperedges := [1];
     hypernodes := [1; 2];
     isTrivialFlow := false;
     build := 3;
     maximumFlow := 3;
     assignment := [(1, 0%Z); (2, 0%Z)];
     objective_after := 3;
     imbalance_after := 1 # 100 |}.

Lemma example_ready imb n : ready 0 1 (example_pass imb) (example_state n).
Proof.
  split.
  - done.
  - apply (bool_decide_unpack _). vm_compute. reflexivity.
  - intros hn Hhn. simpl in Hhn.
    apply elem_of_cons in Hhn as [->|Hhn]; [by exists 0%Z, 0%Z|].
    apply elem_of_cons in Hhn as [->|Hhn]; [by exists 1%Z, 0%Z|].
    by apply elem_of_nil in Hhn.
  - intros m Hm. simpl in Hm.
    apply elem_of_cons in Hm as [->|Hm]; [split; [by left|done]|].
    apply elem_of_cons in Hm as [->|Hm]; [split; [by right; left|done]|].
    by apply elem_of_nil in Hm.
Qed.

Lemma example_runs imb : runs example_context (example_pass imb) (example_state 4) 2 3.
Proof.
  split.
  - exists 5%Z. split; vm_compute; reflexivity.
  - done.
  - split_and!; [done|done|simpl; lia].
  - vm_compute; reflexivity.
  - split; vm_compute; reflexivity.
Qed.

(** C4, counterexample. The minimum cut lowers the objective from 5 to 3 and
    moves hypernode 2 to block 0, but its imbalance 1/2 is above epsilon and
    above the best recorded imbalance: the pass puts hypernode 2 back and
    keeps the best metrics. *)
Lemma smaller_objective_rolled_back :
  ∃ st_cut loc' st',
    minimumSTCut example_context (example_pass (1 # 2)) 0 1 (example_state 4)
      = Some (3%Z, st_cut) ∧
    Hypergraph._part_ids (_hg st_cut) = [0; 0; 0; 1]%Z ∧
    (3 < metric (best_metrics (example_state 4)))%Z ∧
    body example_context 0 1 (example_pass (1 # 2))
         (entry example_context) (example_state 4)
      = Some (Finished false, loc', st') ∧
    Hypergraph._part_ids (_hg st') = [0; 0; 1; 1]%Z ∧
    best_metrics st' = best_metrics (example_state 4).
Proof.
  eexists _, _, _. split; [vm_compute; reflexivity|]. split; [reflexivity|].
  split; [simpl; lia|]. split; [vm_compute; reflexivity|]. split; reflexivity.
Qed.

Lemma pass_commits_or_rolls_back_witness :
  ∃ o loc' st',
    body example_context 0 1 (example_pass (1 # 100))
         (entry example_context) (example_state 4) = Some (o, loc', st') ∧
    Hypergraph._part_ids (_hg st') = [0; 0; 0; 1]%Z ∧
    best_metrics st' = {| metric := 3; imbalance := 1 # 100 |}.
Proof.
  destruct (pass_commits_or_rolls_back example_context 0 1 (example_pass (1 # 100))
              (entry example_context) (example_state 4) 2 3
              (example_ready _ _) (example_runs _))
    as (st_cut & o & loc' & st' & Hcut & Hbody & Hyes & _).
  exists o, loc', st'. split; [done|].
  destruct Hyes as [-> ->].
  { left. split; [simpl; lia|]. left. simpl. lra. }
  split; [|done]. vm_compute in Hcut. by injection Hcut as <-.
Defined.

(** C5, counterexample. With the configured alpha 16 the first pass improves
    the solution, and the second pass runs at 16 again, not at 32; the second
    pass does not improve the solution and finds the cut unchanged, and with
    the stopping rule enabled the loop still goes on, to a pass at 8. *)
Lemma improved_pass_keeps_alpha_and_rule_is_skipped :
  ∃ loc1 st1 loc2 st2,
    body example_context 0 1 (example_pass (1 # 100))
         (entry example_context) (example_state 4)
      = Some (Finished true, loc1, st1) ∧
    Qlt_bool 1 (loop_alpha loc1) = true ∧
    Qeq_bool (pass_alpha loc1) 16 = true ∧ Qeq_bool (pass_alpha loc1) 32 = false ∧
    use_adaptive_alpha_stopping_rule example_context = true ∧
    build idle_pass = maximumFlow idle_pass ∧
    accepted example_context (best_metrics st1) 3 (imbalance_after idle_pass) = false ∧
    body example_context 0 1 idle_pass loc1 st1 = Some (Finished false, loc2, st2) ∧
    Qlt_bool 1 (loop_alpha loc2) = true ∧ Qeq_bool (pass_alpha loc2) 8 = true.
Proof.
  eexists _, _, _, _. split; [vm_compute; reflexivity|].
  split; [vm_compute; reflexivity|]. split; [vm_compute; reflexivity|].
  split; [vm_compute; reflexivity|]. split; [reflexivity|]. split; [reflexivity|].
  split; [vm_compute; reflexivity|]. split; [vm_compute; reflexivity|].
  split; vm_compute; reflexivity.
Qed.

(** *** Round trips of [minimumSTCut] and [rollback] *)

(** X20. [rollback(false)] after [minimumSTCut] puts every hypernode back into its
    block: the hypergraph is as before the cut was computed. *)
Theorem rollback_restores_hypergraph ctx pr b0 b1 st :
  ready b0 b1 pr st → isTrivialFlow pr = false →
  ∃ st_cut st', minimumSTCut ctx pr b0 b1 st = Some (maximumFlow pr, st_cut) ∧
    rollback false pr st_cut = Some st' ∧
    _hg st' = _hg st ∧ best_metrics st' = best_metrics st.
Proof.
  intros Hready Htriv.
  destruct (minimumSTCut_spec ctx pr b0 b1 st Hready Htriv) as (st1 & Hmin & Hoth & Hout & Hin).
  destruct Hready as [_ Hnd Hparts _].
  assert (H0 : ∀ hn, hn ∈ hypernodes pr → ∃ p, part_of st hn = Some p ∧ p ≠ (-1)%Z).
  { intros hn Hhn. destruct (Hparts hn Hhn) as (p & _ & Hp & _ & Hne). by exists p. }
  destruct (rollback_spec false pr st st1 Hnd) as (st2 & Hroll & Hoth2 & HP & _).
  { intros hn Hhn. by apply Hout. }
  { done. }
  { done. }
  exists st1, st2. split; [done|]. split; [done|].
  destruct Hoth as (Hb & He & Hc & Hn). destruct Hoth2 as (Hb2 & He2 & Hc2 & Hn2).
  split; [apply state_ext; congruence|congruence].
Qed.

(** X21. [rollback(true)] after [minimumSTCut] puts every hypernode back and keeps
    the assignment of the cut in [_originalPartID]; a second [rollback(true)]
    brings the assignment of the cut back into the hypergraph. *)
Theorem rollback_stores_assignment ctx pr b0 b1 st :
  ready b0 b1 pr st → isTrivialFlow pr = false →
  ∃ st_cut st1 st2, minimumSTCut ctx pr b0 b1 st = Some (maximumFlow pr, st_cut) ∧
    rollback true pr st_cut = Some st1 ∧ _hg st1 = _hg st ∧
    (∀ hn, hn ∈ hypernodes pr →
       getOriginalPartition st1 hn = Hypergraph.partID (_hg st_cut) hn) ∧
    rollback true pr st1 = Some st2 ∧ _hg st2 = _hg st_cut ∧
    (∀ hn, hn ∈ hypernodes pr →
       getOriginalPartition st2 hn = Hypergraph.partID (_hg st) hn).
Proof.
  intros Hready Htriv.
  destruct (minimumSTCut_spec ctx pr b0 b1 st Hready Htriv) as (st1 & Hmin & Hoth & Hout & Hin).
  destruct Hready as [_ Hnd Hparts _].
  assert (H0 : ∀ hn, hn ∈ hypernodes pr → ∃ p, part_of st hn = Some p ∧ p ≠ (-1)%Z).
  { intros hn Hhn. destruct (Hparts hn Hhn) as (p & _ & Hp & _ & Hne). by exists p. }
  destruct (rollback_spec true pr st st1 Hnd) as (st2 & Hroll & Hoth2 & HP & HO & _).
  { intros hn Hhn. by apply Hout. }
  { done. }
  { done. }
  destruct (rollback_spec true pr st1 st2 Hnd) as (st3 & Hroll3 & Hoth3 & HP3 & HO3 & _).
  { intros hn Hhn. rewrite HP. symmetry. by apply Hout. }
  { intros hn Hhn. rewrite HO, HP by done. split; [done|]. by apply H0. }
  { intros hn Hhn. by apply Hin. }
  exists st1, st2, st3. split; [done|]. split; [done|].
  destruct Hoth as (Hb & He & Hc & Hn). destruct Hoth2 as (Hb2 & He2 & Hc2 & Hn2).
  destruct Hoth3 as (Hb3 & He3 & Hc3 & Hn3).
  split; [apply state_ext; congruence|]. split; [by apply HO|]. split; [done|].
  split; [apply state_ext; congruence|].
  intros hn Hhn. unfold getOriginalPartition. fold (orig_of st3 hn).
  rewrite HO3, HP by done. done.
Qed.

(** *** What a pass leaves alone *)

(** [changes_only hns st st']: from [st] to [st'] only the blocks and saved blocks
    of the hypernodes in [hns] may have changed. *)
Definition changes_only (hns : list N) (st st' : state) : Prop :=
  others st st' ∧ ∀ j, j ∉ hns → part_of st' j = part_of st j.

Lemma changes_only_refl hns st : changes_only hns st st.
Proof. split; [apply others_refl|done]. Qed.

Lemma changes_only_trans hns st1 st2 st3 :
  changes_only hns st1 st2 → changes_only hns st2 st3 → changes_only hns st1 st3.
Proof.
  intros [Ho1 Hp1] [Ho2 Hp2]. split; [by eapply others_trans|].
  intros j Hj. by rewrite Hp2, Hp1.
Qed.

Lemma changes_only_mono hns hns' st st' :
  (∀ j, j ∈ hns → j ∈ hns') → changes_only hns st st' → changes_only hns' st st'.
Proof. intros Hsub [Ho Hp]. split; [done|]. intros j Hj. apply Hp. naive_solver. Qed.

Lemma changeNodePart_frame hn from to st hg :
  Hypergraph.changeNodePart hn from to (_hg st) = Some hg →
  changes_only [hn] st (with_hg st hg).
Proof.
  unfold Hypergraph.changeNodePart. intros (ps & Hps & [= <-])%KWayPriorityQueue.bind_Some.
  split; [by repeat split|]. intros j Hj. unfold part_of, Hypergraph.partID. simpl.
  rewrite (Vec.get_set _ _ _ _ _ Hps). rewrite decide_False; [done|].
  intros ->. apply Hj. by left.
Qed.

Lemma moveHypernode_frame hn to st st' :
  moveHypernode hn to st = Some st' → changes_only [hn] st st'.
Proof.
  unfold moveHypernode. intros (from & _ & H)%KWayPriorityQueue.bind_Some.
  apply KWayPriorityQueue.bind_Some in H as (_ & _ & H).
  destruct (negb _).
  - apply KWayPriorityQueue.bind_Some in H as (hg & Hhg & [= <-]).
    by eapply changeNodePart_frame.
  - injection H as <-. apply changes_only_refl.
Qed.

Lemma with_originalPartID_frame hns st o : changes_only hns st (with_originalPartID st o).
Proof. split; [by repeat split|done]. Qed.

Lemma foldM_frame {A} (g : A → N) (f : state → A → option state) hns l :
  (∀ st x st', f st x = Some st' → changes_only [g x] st st') →
  (∀ x, x ∈ l → g x ∈ hns) →
  ∀ st st', foldM f st l = Some st' → changes_only hns st st'.
Proof.
  intros Hf. induction l as [|x l IH]; intros Hl st st'; simpl.
  - intros [= <-]. apply changes_only_refl.
  - intros (st1 & Hstep & Hfold)%KWayPriorityQueue.bind_Some.
    eapply changes_only_trans; [|apply (IH ltac:(intros y Hy; apply Hl; by right) _ _ Hfold)].
    eapply changes_only_mono; [|by apply Hf].
    intros j Hj. apply elem_of_cons in Hj as [->|Hj]; [|by apply elem_of_nil in Hj].
    apply Hl. by left.
Qed.

Lemma foldM_frame_in {A} (g : A → N) (f : state → A → option state) hns l :
  (∀ st x st', f st x = Some st' → changes_only [g x] st st') →
  Forall (λ x, g x ∈ hns) l →
  ∀ st st', foldM f st l = Some st' → changes_only hns st st'.
Proof. intros Hf Hl. apply (foldM_frame g); [done|]. by apply Forall_forall. Qed.

Lemma minimumSTCut_frame ctx pr b0 b1 st cut st' hns :
  (∀ j, j ∈ hypernodes pr → j ∈ hns) →
  (∀ m, m ∈ assignment pr → m.1 ∈ hns) →
  minimumSTCut ctx pr b0 b1 st = Some (cut, st') → changes_only hns st st'.
Proof.
  intros Hhns Hms. unfold minimumSTCut. destruct (isTrivialFlow pr).
  { intros [= _ <-]. apply changes_only_refl. }
  intros (st1 & H1 & H)%KWayPriorityQueue.bind_Some.
  apply KWayPriorityQueue.bind_Some in H as (st2 & H2 & [= _ <-]).
  eapply changes_only_trans.
  - refine (foldM_frame id _ _ _ _ Hhns _ _ H1).
    intros s x s' (p & _ & Hs)%KWayPriorityQueue.bind_Some.
    apply KWayPriorityQueue.bind_Some in Hs as (o & _ & Hs).
    eapply changes_only_trans; [apply with_originalPartID_frame|by eapply moveHypernode_frame].
  - refine (foldM_frame fst _ _ _ _ Hms _ _ H2).
    intros s m s' Hm. by eapply moveHypernode_frame.
Qed.

Lemma rollback_frame b pr st st' :
  rollback b pr st = Some st' → changes_only (hypernodes pr) st st'.
Proof.
  unfold rollback. refine (foldM_frame id _ _ _ _ _ _ _); [|by intros x Hx].
  intros s x s' (p & _ & Hs)%KWayPriorityQueue.bind_Some.
  apply KWayPriorityQueue.bind_Some in Hs as (o & _ & Hs).
  apply KWayPriorityQueue.bind_Some in Hs as (s1 & Hm & Hs).
  eapply changes_only_trans; [by eapply moveHypernode_frame|].
  destruct b.
  - apply KWayPriorityQueue.bind_Some in Hs as (o' & _ & [= <-]).
    apply with_originalPartID_frame.
  - injection Hs as <-. apply changes_only_refl.
Qed.

Lemma replay_frame hns st st' :
  foldM (λ st hn, from ← Hypergraph.partID (_hg st) hn;
                  to ← getOriginalPartition st hn;
                  if negb (from =? to)%Z
                  then quotient_graph_changeNodePart hn from to st
                  else Some st) st hns = Some st' →
  changes_only hns st st'.
Proof.
  refine (foldM_frame id _ _ _ _ _ _ _); [|by intros x Hx].
  intros s x s' (p & _ & Hs)%KWayPriorityQueue.bind_Some.
  apply KWayPriorityQueue.bind_Some in Hs as (o & _ & Hs).
  destruct (negb _).
  - unfold quotient_graph_changeNodePart in Hs.
    apply KWayPriorityQueue.bind_Some in Hs as (hg & Hhg & [= <-]).
    by eapply changeNodePart_frame.
  - injection Hs as <-. apply changes_only_refl.
Qed.

(** the hypergraph of [st'] is the one of [st] up to the blocks of [hns] *)
Definition hg_frame (hns : list N) (st st' : state) : Prop :=
  Hypergraph._edge_weights (_hg st') = Hypergraph._edge_weights (_hg st) ∧
  Hypergraph.currentNumNodes (_hg st') = Hypergraph.currentNumNodes (_hg st) ∧
  Hypergraph.initialNumNodes (_hg st') = Hypergraph.initialNumNodes (_hg st) ∧
  ∀ j, j ∉ hns → Hypergraph.partID (_hg st') j = Hypergraph.partID (_hg st) j.

Lemma changes_only_hg_frame hns st st' : changes_only hns st st' → hg_frame hns st st'.
Proof. intros [(_ & ? & ? & ?) ?]. by repeat split. Qed.

(** [m'] is better than [m]: a smaller objective, or the same objective with
    a smaller imbalance *)
Definition better (m' m : Metrics) : Prop :=
  (metric m' < metric m)%Z ∨ (metric m' = metric m ∧ (imbalance m' < imbalance m)%Q).

Lemma better_trans m1 m2 m3 : better m3 m2 → better m2 m1 → better m3 m1.
Proof.
  unfold better. intros [H|[H H']] [H0|[H0 H0']]; try (left; lia).
  right. split; [lia|]. by eapply Qlt_trans.
Qed.

Lemma accepted_better ctx best cur imb :
  accepted ctx best cur imb = true →
  better {| metric := cur; imbalance := imb |} best.
Proof.
  unfold accepted, better. simpl.
  intros [[H _]%andb_true_iff|[H H']%andb_true_iff]%orb_true_iff.
  - left. by apply Z.ltb_lt.
  - right. split; [by apply Z.eqb_eq|]. by apply Qlt_bool_iff.
Qed.

Lemma accepted_balance ctx best cur imb :
  accepted ctx best cur imb = true →
  (imb <= epsilon ctx)%Q ∨ (imb < imbalance best)%Q.
Proof.
  unfold accepted.
  intros [[_ [H|H]%orb_true_iff]%andb_true_iff|[_ H]%andb_true_iff]%orb_true_iff.
  - left. by apply Qle_bool_iff.
  - right. by apply Qlt_bool_iff.
  - right. by apply Qlt_bool_iff.
Qed.

(** One pass: what is left alone, and what happens to the best metrics. *)
Lemma body_inv ctx b0 b1 pr loc st o loc' st' :
  body ctx b0 b1 pr loc st = Some (o, loc', st') →
  ((∀ m, m ∈ assignment pr → m.1 ∈ hypernodes pr) → hg_frame (hypernodes pr) st st') ∧
  ((best_metrics st' = best_metrics st ∧ improvement loc' = improvement loc) ∨
   (accepted ctx (best_metrics st) (metric (best_metrics st'))
             (imbalance (best_metrics st')) = true ∧ improvement loc' = true)).
Proof.
  unfold body. intros Hbody.
  apply KWayPriorityQueue.bind_Some in Hbody as (w & _ & Hbody).
  destruct (_ && _ && negb (isRefinementOnLastLevel st)).
  { injection Hbody as <- <- <-. split; [intros _; apply changes_only_hg_frame, changes_only_refl|by left]. }
  destruct (length _ =? 0)%nat.
  { injection Hbody as <- <- <-. split; [intros _; apply changes_only_hg_frame, changes_only_refl|by left]. }
  apply KWayPriorityQueue.bind_Some in Hbody as ([cut st1] & Hmin & Hbody). simpl in Hbody.
  assert (Hbest1 : best_metrics st1 = best_metrics st).
  { apply (minimumSTCut_frame ctx pr b0 b1 st cut st1
             (hypernodes pr ++ (fst <$> assignment pr))) in Hmin as [(? & _) _]; [done| |].
    - intros j Hj. apply elem_of_app. by left.
    - intros m Hm. apply elem_of_app. right. by apply list_elem_of_fmap_2. }
  assert (Hfr1 : (∀ m, m ∈ assignment pr → m.1 ∈ hypernodes pr) →
                 changes_only (hypernodes pr) st st1).
  { intros Hms. by apply (minimumSTCut_frame ctx pr b0 b1 st cut st1 (hypernodes pr)) in Hmin. }
  destruct (cut =? INFTY)%Z.
  { injection Hbody as <- <- <-. split; [intros Hms; by apply changes_only_hg_frame, Hfr1|by left]. }
  apply KWayPriorityQueue.bind_Some in Hbody as (delta & _ & Hbody).
  apply KWayPriorityQueue.bind_Some in Hbody as (_ & _ & Hbody).
  apply KWayPriorityQueue.bind_Some in Hbody as (expected & _ & Hbody).
  apply KWayPriorityQueue.bind_Some in Hbody as (_ & _ & Hbody).
  apply KWayPriorityQueue.bind_Some in Hbody as (cur & _ & Hbody).
  apply KWayPriorityQueue.bind_Some in Hbody as (st2 & Hroll & Hbody).
  apply KWayPriorityQueue.bind_Some in Hbody as (st3 & Hreplay & Hbody).
  apply rollback_frame in Hroll.
  destruct (accepted ctx (best_metrics st1) cur (imbalance_after pr)) eqn:Hacc.
  - apply replay_frame in Hreplay.
    assert (Hfr : changes_only (hypernodes pr) (with_best_metrics st1
              {| metric := cur; imbalance := imbalance_after pr |}) st3)
      by (by eapply changes_only_trans).
    assert (Hst' : st' = st3 ∧ improvement loc' = true).
    { destruct (_ && _ && _); by injection Hbody as <- <- <-. }
    destruct Hst' as [-> Himp]. split.
    + intros Hms. apply changes_only_hg_frame in Hfr. apply Hfr1, changes_only_hg_frame in Hms.
      destruct Hfr as (? & ? & ? & Hp), Hms as (? & ? & ? & Hp').
      simpl in *. split_and!; try congruence. intros j Hj. rewrite Hp by done. by apply Hp'.
    + right. split; [|done]. destruct Hfr as [(-> & _) _]. simpl.
      by rewrite <- Hbest1.
  - injection Hreplay as <-.
    assert (Hst' : st' = st2 ∧ improvement loc' = improvement loc).
    { destruct (_ && _ && _); by injection Hbody as <- <- <-. }
    destruct Hst' as [-> Himp]. split.
    + intros Hms. apply changes_only_hg_frame. eapply changes_only_trans; [by apply Hfr1|done].
    + left. split; [|done]. destruct Hroll as [(-> & _) _]. done.
Qed.

(** what a call of [refineImpl] may have done to the best metrics *)
Definition not_worse (m' m : Metrics) : Prop := m' = m ∨ better m' m.

Lemma step_not_worse ctx m m' :
  m' = m ∨ accepted ctx m (metric m') (imbalance m') = true → not_worse m' m.
Proof.
  intros [->|H]; [by left|right].
  apply accepted_better in H. by destruct m'.
Qed.

Lemma not_worse_trans m1 m2 m3 : not_worse m3 m2 → not_worse m2 m1 → not_worse m3 m1.
Proof.
  intros [->|H] [->|H0]; [by left|by right|by right|right; by eapply better_trans].
Qed.

Lemma better_not_worse m1 m2 m3 : not_worse m3 m2 → better m2 m1 → better m3 m1.
Proof. intros [->|H] H0; [done|by eapply better_trans]. Qed.

Lemma step_feasible ctx m m' :
  m' = m ∨ accepted ctx m (metric m') (imbalance m') = true →
  (imbalance m <= epsilon ctx)%Q → (imbalance m' <= epsilon ctx)%Q.
Proof.
  intros [->|H] Hm; [done|].
  apply accepted_balance in H as [H|H]; [done|]. lra.
Qed.

Lemma do_while_inv ctx b0 b1 prs : ∀ loc st b st',
  do_while ctx b0 b1 prs loc st = Some (b, st') →
  ((∀ pr m, pr ∈ prs → m ∈ assignment pr → m.1 ∈ hypernodes pr) →
   hg_frame (mjoin (hypernodes <$> prs)) st st') ∧
  not_worse (best_metrics st') (best_metrics st) ∧
  (b = true → improvement loc = true ∨ better (best_metrics st') (best_metrics st)) ∧
  ((imbalance (best_metrics st) <= epsilon ctx)%Q →
   (imbalance (best_metrics st') <= epsilon ctx)%Q).
Proof.
  induction prs as [|pr prs IH]; intros loc st b st'; simpl; [done|].
  intros ([[o loc1] st1] & Hbody & Hrest)%KWayPriorityQueue.bind_Some.
  apply body_inv in Hbody as [Hfr Hstep].
  assert (Hhere : ((∀ pr' m, pr' ∈ pr :: prs → m ∈ assignment pr' → m.1 ∈ hypernodes pr') →
                   hg_frame (hypernodes pr ++ mjoin (hypernodes <$> prs)) st st1) ∧
                  not_worse (best_metrics st1) (best_metrics st) ∧
                  (improvement loc1 = true →
                   improvement loc = true ∨ better (best_metrics st1) (best_metrics st)) ∧
                  ((imbalance (best_metrics st) <= epsilon ctx)%Q →
                   (imbalance (best_metrics st1) <= epsilon ctx)%Q)).
  { split.
    { intros Hms. destruct Hfr as (? & ? & ? & Hp); [intros m; apply Hms; by left|].
      split_and!; try done. intros j Hj. apply Hp. intros Hin. apply Hj, elem_of_app. by left. }
    split; [apply (step_not_worse ctx); destruct Hstep as [[? _]|[? _]]; auto|].
    split; [|apply step_feasible; destruct Hstep as [[? _]|[? _]]; auto].
    destruct Hstep as [[Hb Hi]|[Hacc _]]; [rewrite Hi; auto|].
    intros _. right. apply accepted_better in Hacc. by destruct (best_metrics st1). }
  assert (Hdone : ∀ b', Some (b', st1) = Some (b, st') → (b' = true → improvement loc1 = true) →
            ((∀ pr' m, pr' ∈ pr :: prs → m ∈ assignment pr' → m.1 ∈ hypernodes pr') →
             hg_frame (hypernodes pr ++ mjoin (hypernodes <$> prs)) st st') ∧
            not_worse (best_metrics st') (best_metrics st) ∧
            (b = true → improvement loc = true ∨ better (best_metrics st') (best_metrics st)) ∧
            ((imbalance (best_metrics st) <= epsilon ctx)%Q →
             (imbalance (best_metrics st') <= epsilon ctx)%Q)).
  { intros b' [= -> ->] Hb. destruct Hhere as (? & ? & Himp & ?). split_and!; auto. }
  destruct o; try (by apply (Hdone _ Hrest)).
  destruct (Qlt_bool 1 (loop_alpha loc1)); [|by apply (Hdone _ Hrest)].
  apply IH in Hrest as (Hfr' & Hnw' & Himp' & Hfeas').
  destruct Hhere as (Hfr1 & Hnw & Himp & Hfeas). split_and!.
  - intros Hms. destruct (Hfr1 Hms) as (? & ? & ? & Hp).
    destruct Hfr' as (? & ? & ? & Hp'); [intros pr' m Hpr'; apply Hms; by right|].
    split_and!; try congruence. intros j Hj. rewrite Hp', Hp; [done|done|].
    intros Hin. apply Hj, elem_of_app. by right.
  - by eapply not_worse_trans.
  - intros Hb. destruct (Himp' Hb) as [Hi|Hbt].
    + destruct (Himp Hi) as [?|Hbt]; [by left|right]. by eapply better_not_worse.
    + right. destruct Hnw as [Heq|Hbt0]; [by rewrite <- Heq|by eapply better_trans].
  - auto.
Qed.

(** X22. A call of [refineImpl] that returns never leaves worse best metrics
    behind: they are the ones of before the call, or have a smaller objective,
    or the same objective and a smaller imbalance; when the call returns
    [true] they are strictly better. *)
Theorem refineImpl_never_worsens ctx b0 b1 ef ign prs st b st' :
  refineImpl ctx b0 b1 ef ign prs st = Some (b, st') →
  (best_metrics st' = best_metrics st ∨ better (best_metrics st') (best_metrics st)) ∧
  (b = true → better (best_metrics st') (best_metrics st)).
Proof.
  unfold refineImpl. destruct (negb ef && negb ign).
  { intros [= <- <-]. split; [by left|done]. }
  intros (_ & Hnw & Himp & _)%do_while_inv. split; [done|].
  intros Hb. by destruct (Himp Hb).
Qed.

(** X23. When the best recorded imbalance is at most epsilon before a call of
    [refineImpl], it is at most epsilon after the call. *)
Theorem refineImpl_keeps_balance ctx b0 b1 ef ign prs st b st' :
  refineImpl ctx b0 b1 ef ign prs st = Some (b, st') →
  (imbalance (best_metrics st) <= epsilon ctx)%Q →
  (imbalance (best_metrics st') <= epsilon ctx)%Q.
Proof.
  unfold refineImpl. destruct (negb ef && negb ign).
  { by intros [= <- <-]. }
  by intros (_ & _ & _ & Hfeas)%do_while_inv.
Qed.

(** X24. When the assignments of the minimum cuts move hypernodes of their flow
    networks only, a call of [refineImpl] changes the block of no hypernode
    outside of the flow networks of its passes, and changes neither the
    weights of the hyperedges nor the numbers of hypernodes. *)
Theorem refineImpl_touches_flow_networks_only ctx b0 b1 ef ign prs st b st' :
  refineImpl ctx b0 b1 ef ign prs st = Some (b, st') →
  (∀ pr m, pr ∈ prs → m ∈ assignment pr → m.1 ∈ hypernodes pr) →
  (∀ he, Hypergraph.edgeWeight (_hg st') he = Hypergraph.edgeWeight (_hg st) he) ∧
  Hypergraph.currentNumNodes (_hg st') = Hypergraph.currentNumNodes (_hg st) ∧
  Hypergraph.initialNumNodes (_hg st') = Hypergraph.initialNumNodes (_hg st) ∧
  ∀ hn, (∀ pr, pr ∈ prs → hn ∉ hypernodes pr) →
    Hypergraph.partID (_hg st') hn = Hypergraph.partID (_hg st) hn.
Proof.
  unfold refineImpl. destruct (negb ef && negb ign).
  { by intros [= <- <-]. }
  intros (Hfr & _)%do_while_inv Hms. destruct (Hfr Hms) as (Hw & ? & ? & Hp).
  split_and!; try done.
  - intros he. unfold Hypergraph.edgeWeight. by rewrite Hw.
  - intros hn Hhn. apply Hp. intros (l & Hin & (pr & -> & Hpr)%list_elem_of_fmap)%list_elem_of_join.
    by apply (Hhn pr).
Qed.

(** the alpha at the end of a pass *)
Lemma body_alpha ctx b0 b1 pr loc st o loc' st' :
  body ctx b0 b1 pr loc st = Some (o, loc', st') →
  loop_alpha loc' = pass_alpha loc ∨
  loop_alpha loc'
  = (pass_alpha loc * (if Qeq_bool (pass_alpha loc) (alpha ctx) then 2 else 4))%Q.
Proof.
  unfold body. intros H.
  repeat match type of H with
         | (if ?c then _ else _) = Some _ => destruct c
         | _ ≫= _ = Some _ => apply KWayPriorityQueue.bind_Some in H as (? & _ & H)
         end;
    injection H as <- <- <-; simpl; auto;
    match goal with |- context [accepted ?a ?b ?c ?d] => destruct (accepted a b c d) end;
    simpl; auto.
Qed.

Definition halvings (j : nat) : Q := inject_Z (2 ^ Z.of_nat j).

Lemma halvings_S j : (halvings (S j) == 2 * halvings j)%Q.
Proof.
  unfold halvings. rewrite Nat2Z.inj_succ, Z.pow_succ_r by lia.
  by rewrite inject_Z_mult.
Qed.

Lemma halvings_ge_1 j : (1 <= halvings j)%Q.
Proof.
  unfold halvings. change 1%Q with (inject_Z 1). rewrite <- Zle_Qle.
  pose proof (Z.pow_pos_nonneg 2 (Z.of_nat j)). lia.
Qed.

(** a call of six passes: the first one improves the solution, the later
    ones find the cut they started from, until alpha is 1 *)
Definition example_call : list FlowProblem :=
  example_pass (1 # 100) :: replicate 5 idle_pass.

Lemma rollback_restores_hypergraph_witness :
  ∃ st_cut st',
    minimumSTCut example_context (example_pass (1 # 2)) 0 1 (example_state 4)
      = Some (3%Z, st_cut) ∧
    Hypergraph._part_ids (_hg st_cut) = [0; 0; 0; 1]%Z ∧
    rollback false (example_pass (1 # 2)) st_cut = Some st' ∧
    _hg st' = _hg (example_state 4).
Proof.
  destruct (rollback_restores_hypergraph example_context (example_pass (1 # 2)) 0 1
              (example_state 4) (example_ready _ _) eq_refl)
    as (st_cut & st' & Hcut & Hroll & Hhg & _).
  exists st_cut, st'. split; [done|]. split; [|done].
  vm_compute in Hcut. by injection Hcut as <-.
Defined.

Lemma rollback_stores_assignment_witness :
  ∃ st_cut st1 st2,
    minimumSTCut example_context (example_pass (1 # 2)) 0 1 (example_state 4)
      = Some (3%Z, st_cut) ∧
    rollback true (example_pass (1 # 2)) st_cut = Some st1 ∧
    _hg st1 = _hg (example_state 4) ∧
    getOriginalPartition st1 2 = Some 0%Z ∧
    rollback true (example_pass (1 # 2)) st1 = Some st2 ∧
    _hg st2 = _hg st_cut ∧ getOriginalPartition st2 2 = Some 1%Z.
Proof.
  destruct (rollback_stores_assignment example_context (example_pass (1 # 2)) 0 1
              (example_state 4) (example_ready _ _) eq_refl)
    as (st_cut & st1 & st2 & Hcut & Hroll & Hhg & Ho & Hroll' & Hhg' & Ho').
  exists st_cut, st1, st2. split_and!; try done.
  - rewrite Ho by (right; left). vm_compute in Hcut. by injection Hcut as <-.
  - rewrite Ho' by (right; left). reflexivity.
Defined.

Lemma refineImpl_never_worsens_witness :
  ∃ st', refineImpl example_context 0 1 true false example_call (example_state 4)
         = Some (true, st') ∧
    better (best_metrics st') (best_metrics (example_state 4)).
Proof.
  eexists. split; [vm_compute; reflexivity|].
  eapply (refineImpl_never_worsens example_context 0 1 true false example_call
            (example_state 4) true); [vm_compute; reflexivity|reflexivity].
Defined.

Lemma refineImpl_keeps_balance_witness :
  ∃ st', refineImpl example_context 0 1 true false example_call (example_state 4)
         = Some (true, st') ∧
    (imbalance (best_metrics st') <= 3 # 100)%Q.
Proof.
  eexists. split; [vm_compute; reflexivity|].
  eapply (refineImpl_keeps_balance example_context 0 1 true false example_call
            (example_state 4) true); [vm_compute; reflexivity|vm_compute; discriminate].
Defined.

Lemma refineImpl_touches_flow_networks_only_witness :
  ∃ st', refineImpl example_context 0 1 true false example_call (example_state 4)
         = Some (true, st') ∧
    Hypergraph.partID (_hg st') 3 = Some 1%Z.
Proof.
  eexists. split; [vm_compute; reflexivity|].
  eapply (refineImpl_touches_flow_networks_only example_context 0 1 true false
            example_call (example_state 4) true); [vm_compute; reflexivity| |].
  - intros pr m Hpr Hm.
    assert (Hnet : hypernodes pr = [1; 2] ∧ assignment pr = [(1, 0%Z); (2, 0%Z)]).
    { unfold example_call in Hpr. simpl in Hpr.
      repeat (apply elem_of_cons in Hpr as [->|Hpr]; [done|]). by apply elem_of_nil in Hpr. }
    destruct Hnet as [-> Ha]. rewrite Ha in Hm.
    apply elem_of_cons in Hm as [->|Hm]; [by left|].
    apply elem_of_cons in Hm as [->|Hm]; [by right; left|]. by apply elem_of_nil in Hm.
  - intros pr Hpr.
    assert (Hnet : hypernodes pr = [1; 2]).
    { unfold example_call in Hpr. simpl in Hpr.
      repeat (apply elem_of_cons in Hpr as [->|Hpr]; [done|]). by apply elem_of_nil in Hpr. }
    rewrite Hnet. intros Hin.
    apply elem_of_cons in Hin as [?|Hin]; [done|].
    apply elem_of_cons in Hin as [?|Hin]; [done|]. by apply elem_of_nil in Hin.
Defined.

(** the state after the first pass of [example_call] *)
Definition improved_state : state :=
  {| _hg := {| Hypergraph._part_ids := [0; 0; 0; 1]%Z;
               Hypergraph._edge_weights := [2; 3]%Z;
               Hypergraph._current_num_hypernodes := 4;
               Hypergraph._num_hypernodes := 4 |};
     _originalPartID := [0; 0; 0; 0]%Z;
     best_metrics := {| metric := 3; imbalance := 1 # 100 |} |}.

(** *** The passes of one call *)

(** [alpha] is a [double].  The loop doubles, quadruples and halves it; on
    doubles of magnitude at most 2^1022 none of these overflows or rounds,
    and the rationals of the model are the doubles of the code.  The theorems
    about alpha are stated for this range. *)
Definition exact_alpha (ctx : Context) : Prop :=
  (- inject_Z (2 ^ 1022) <= alpha ctx <= inject_Z (2 ^ 1022))%Q.

(** The heads of the iterations of the loop of a call of [refineImpl] that
    starts with the answers [prs0] in the state [st0]: the first one, and the
    one after a body that ran to its end with alpha above 1. *)
Inductive loop_head (ctx : Context) (b0 b1 : Z) (prs0 : list FlowProblem) (st0 : state)
    : list FlowProblem → locals → state → Prop :=
  | head_first : loop_head ctx b0 b1 prs0 st0 prs0 (entry ctx) st0
  | head_next pr prs loc st b loc' st' :
      loop_head ctx b0 b1 prs0 st0 (pr :: prs) loc st →
      body ctx b0 b1 pr loc st = Some (Finished b, loc', st') →
      Qlt_bool 1 (loop_alpha loc') = true →
      loop_head ctx b0 b1 prs0 st0 prs loc' st'.


(** the variables of the loop after a pass that ended before the decision *)
Definition halved (loc : locals) : locals :=
  {| improvement := improvement loc; loop_alpha := pass_alpha loc |}.

Lemma body_small ctx b0 b1 pr loc st w :
  cut_weight_of (_hg st) (blockPairCutHyperedges pr) = Some w →
  ignore_small_hyperedge_cut ctx && (w <=? 10)%Z && negb (isRefinementOnLastLevel st) = true →
  body ctx b0 b1 pr loc st = Some (SmallCut, halved loc, st).
Proof. intros Hw Hs. unfold body. rewrite Hw. simpl. by rewrite Hs. Qed.

Lemma body_no_flow ctx b0 b1 pr loc st w :
  cut_weight_of (_hg st) (blockPairCutHyperedges pr) = Some w →
  ignore_small_hyperedge_cut ctx && (w <=? 10)%Z && negb (isRefinementOnLastLevel st) = false →
  blockPairCutHyperedges pr = [] ∨ isTrivialFlow pr = true →
  ∃ o, body ctx b0 b1 pr loc st = Some (o, halved loc, st) ∧ (o = ZeroCut ∨ o = TrivialCut).
Proof.
  intros Hw Hs Hno. unfold body. rewrite Hw. simpl. rewrite Hs.
  destruct (blockPairCutHyperedges pr) as [|he hes] eqn:Hhes; simpl.
  { exists ZeroCut. by split; [|left]. }
  destruct Hno as [?|Htriv]; [done|].
  unfold minimumSTCut. rewrite Htriv. simpl. exists TrivialCut. by split; [|right].
Qed.




(** X25. For a configured alpha in the range where the doubles are exact,
    every pass of a call of [refineImpl] runs at the configured alpha divided
    by a power of two, hence, for a configured alpha that is not negative, at
    no more than the configured alpha. *)
Theorem every_pass_alpha ctx b0 b1 prs0 st0 prs loc st :
  exact_alpha ctx →
  loop_head ctx b0 b1 prs0 st0 prs loc st →
  (∃ j : nat, pass_alpha loc == alpha ctx / halvings j)%Q ∧
  (0 <= alpha ctx → pass_alpha loc <= alpha ctx)%Q.
Proof.
  intros _ Hhead.
  assert (H : ∃ j : nat, (pass_alpha loc == alpha ctx / halvings j)%Q).
  { induction Hhead as [|pr prs loc st b loc' st' _ [j IH] Hbody _].
    - exists 0%nat. unfold pass_alpha, entry, halvings.
      change (inject_Z (2 ^ Z.of_nat 0)) with 1%Q. cbn [loop_alpha]. field.
    - pose proof (halvings_ge_1 j) as Hj.
      apply body_alpha in Hbody. unfold pass_alpha at 1.
      destruct Hbody as [->| ->].
      + exists (S j). setoid_rewrite halvings_S. setoid_rewrite IH. field. lra.
      + destruct (Qeq_bool (pass_alpha loc) (alpha ctx)) eqn:Heq.
        * exists j. setoid_rewrite <- IH. field.
        * destruct j as [|j].
          { exfalso. apply Qeq_bool_neq in Heq. apply Heq. rewrite IH.
            unfold halvings. change (inject_Z (2 ^ Z.of_nat 0)) with 1%Q. field. }
          exists j. pose proof (halvings_ge_1 j) as Hj'.
          setoid_rewrite IH. setoid_rewrite halvings_S. field. lra. }
  split; [done|]. destruct H as [j ->]. intros Ha.
  pose proof (halvings_ge_1 j) as Hj.
  apply Qle_shift_div_r; [lra|]. nra.
Qed.

(** C5 (as amended). For a configured alpha in the range where the doubles are
    exact, the first pass of [refineImpl] runs at the configured alpha.  A
    pass ends the loop before the decision, whatever the stopping rule says:
    with result [false] when the small-cut heuristic fires, and with the
    result of the earlier passes when the block pair has no cut hyperedge or
    the flow is trivial.  After a pass that reached the decision and improved
    the solution the next pass runs at twice the alpha of this pass, unless
    this pass ran at the configured alpha, which is then used again.  After a
    pass that reached the decision and did not improve the solution the loop
    stops if the stopping rule is enabled, no earlier pass of the call
    improved the solution and the cut is unchanged; otherwise the next pass
    runs at half the alpha.  A next pass is run only if twice its alpha is
    greater than 1. *)
Theorem adaptive_alpha_schedule ctx b0 b1 pr loc st w :
  exact_alpha ctx →
  cut_weight_of (_hg st) (blockPairCutHyperedges pr) = Some w →
  let small := ignore_small_hyperedge_cut ctx && (w <=? 10)%Z
               && negb (isRefinementOnLastLevel st) in
  (pass_alpha (entry ctx) == alpha ctx)%Q ∧
  (∀ ign prs st0, refineImpl ctx b0 b1 true ign prs st0
                  = do_while ctx b0 b1 prs (entry ctx) st0) ∧
  (small = true → ∀ prs, do_while ctx b0 b1 (pr :: prs) loc st = Some (false, st)) ∧
  (small = false → blockPairCutHyperedges pr = [] ∨ isTrivialFlow pr = true →
     ∀ prs, do_while ctx b0 b1 (pr :: prs) loc st = Some (improvement loc, st)) ∧
  ∀ delta current, ready b0 b1 pr st → runs ctx pr st delta current →
  ∃ o loc' st',
    body ctx b0 b1 pr loc st = Some (o, loc', st') ∧
    let continue prs :=
      if Qlt_bool 1 (2 * pass_alpha loc') then do_while ctx b0 b1 prs loc' st'
      else Some (improvement loc', st') in
    if accepted ctx (best_metrics st) current (imbalance_after pr)
    then o = Finished true ∧ improvement loc' = true ∧
         (pass_alpha loc' ==
            if Qeq_bool (pass_alpha loc) (alpha ctx) then pass_alpha loc
            else 2 * pass_alpha loc)%Q ∧
         ∀ prs, do_while ctx b0 b1 (pr :: prs) loc st = continue prs
    else improvement loc' = improvement loc ∧
         (pass_alpha loc' == pass_alpha loc / 2)%Q ∧
         if use_adaptive_alpha_stopping_rule ctx && negb (improvement loc)
            && (build pr =? maximumFlow pr)%Z
         then o = Stopped ∧
              ∀ prs, do_while ctx b0 b1 (pr :: prs) loc st = Some (false, st')
         else o = Finished false ∧
              ∀ prs, do_while ctx b0 b1 (pr :: prs) loc st = continue prs.
Proof.
  intros _ Hw small. split; [unfold pass_alpha, entry; simpl; field|].
  split; [done|]. split.
  { intros Hs prs. simpl. by rewrite (body_small ctx b0 b1 pr loc st w Hw Hs). }
  split.
  { intros Hs Hno prs.
    destruct (body_no_flow ctx b0 b1 pr loc st w Hw Hs Hno) as (o & Hbody & [-> | ->]);
      simpl; by rewrite Hbody. }
  intros delta current Hready Hruns.
  destruct (body_decision ctx b0 b1 pr loc st delta current Hready Hruns)
    as (st_cut & st' & _ & Hbody & _ & _).
  eexists _, _, st'. split; [exact Hbody|]. simpl.
  assert (Hlt : ∀ l, Qlt_bool 1 (2 * pass_alpha l) = Qlt_bool 1 (loop_alpha l)).
  { intros l. apply eq_true_iff_eq. rewrite !Qlt_bool_iff. unfold pass_alpha.
    split; intros H; [|]; field_simplify in H; field_simplify; lra. }
  rewrite Hlt.
  destruct (accepted ctx (best_metrics st) current (imbalance_after pr)); simpl.
  - rewrite andb_false_r. simpl. split; [done|]. split; [done|]. split.
    + unfold pass_alpha at 1. simpl.
      destruct (Qeq_bool (pass_alpha loc) (alpha ctx)); field.
    + intros prs. simpl. rewrite Hbody. simpl. by rewrite andb_false_r.
  - split; [done|]. split; [done|].
    destruct (use_adaptive_alpha_stopping_rule ctx && negb (improvement loc)
              && (build pr =? maximumFlow pr)%Z) eqn:Hstop.
    + split; [done|]. intros prs. simpl. rewrite Hbody. simpl. rewrite Hstop.
      apply andb_true_iff in Hstop as [[_ Hi%negb_true_iff]%andb_true_iff _].
      by rewrite Hi.
    + split; [done|]. intros prs. simpl. rewrite Hbody. simpl. by rewrite Hstop.
Qed.


(** *** A call that ends in the small-cut return *)





Lemma example_exact_alpha : exact_alpha example_context.
Proof. split; vm_compute; discriminate. Qed.


Lemma adaptive_alpha_schedule_witness :
  (pass_alpha (entry example_context) == 16)%Q ∧
  ∃ loc' st',
    body example_context 0 1 (example_pass (1 # 100))
         (entry example_context) (example_state 4)
      = Some (Finished true, loc', st') ∧
    (pass_alpha loc' == 16)%Q.
Proof.
  destruct (adaptive_alpha_schedule example_context 0 1 (example_pass (1 # 100))
              (entry example_context) (example_state 4) 5 example_exact_alpha)
    as (Hfirst & _ & _ & _ & Hdecision); [vm_compute; reflexivity|].
  destruct (Hdecision 2%Z 3%Z (example_ready _ _) (example_runs _))
    as (o & loc' & st' & Hbody & Hnext).
  split; [exact Hfirst|]. exists loc', st'.
  assert (Hacc : accepted example_context (best_metrics (example_state 4)) 3
                   (imbalance_after (example_pass (1 # 100))) = true)
    by (vm_compute; reflexivity).
  cbv zeta in Hnext. rewrite Hacc in Hnext. destruct Hnext as (-> & _ & Halpha & _).
  split; [exact Hbody|]. rewrite Halpha. vm_compute. reflexivity.
Defined.

Lemma every_pass_alpha_witness :
  loop_head example_context 0 1 [example_pass (1 # 100); idle_pass; idle_pass]
            (example_state 4) [idle_pass]
            {| improvement := true; loop_alpha := 64 # 4 |} improved_state ∧
  (pass_alpha {| improvement := true; loop_alpha := 64 # 4 |} <= 16)%Q.
Proof.
  assert (H : loop_head example_context 0 1 [example_pass (1 # 100); idle_pass; idle_pass]
                (example_state 4) [idle_pass]
                {| improvement := true; loop_alpha := 64 # 4 |} improved_state).
  { apply (head_next _ _ _ _ _ idle_pass [idle_pass]
             {| improvement := true; loop_alpha := 64 # 2 |} improved_state false).
    - apply (head_next _ _ _ _ _ (example_pass (1 # 100)) [idle_pass; idle_pass]
               (entry example_context) (example_state 4) true).
      + apply head_first.
      + vm_compute. reflexivity.
      + vm_compute. reflexivity.
    - vm_compute. reflexivity.
    - vm_compute. reflexivity. }
  split; [exact H|].
  apply (every_pass_alpha example_context 0 1 _ _ [idle_pass] _ improved_state
           example_exact_alpha H).
  vm_compute. discriminate.
Defined.

End TwoWayFlowRefiner.

(** ** Gains of the two-way FM refiner *)

Module TwoWayFMRefiner.

Module PQ := KWayPriorityQueue.

(** Modelled from the spec: the class [Hypergraph] used by the refiner is not
    among the sources.  A hypergraph has the pins of every hyperedge, the
    weight of every hyperedge and the block of every hypernode;
    pinCountInPart(e, b) is the number of pins of e in block b; the cut
    objective is the weight of the hyperedges with pins in both blocks;
    ChangeNodePart(v, from, to) updates part(v). *)
Record Hypergraph := {
  pins : list (list N);
  edgeWeight : list Z;
  partID : list Z
}.

Definition pinCountInPart (hg : Hypergraph) (e : list N) (b : Z) : Z :=
  Z.of_nat (length (filter (λ v, Vec.get (partID hg) v = Some b) e)).

Definition is_cut (hg : Hypergraph) (e : list N) : bool :=
  (0 <? pinCountInPart hg e 0)%Z && (0 <? pinCountInPart hg e 1)%Z.

Definition hyperedgeCut (hg : Hypergraph) : Z :=
  foldr (λ ew acc, ((if is_cut hg ew.1 then ew.2 else 0) + acc)%Z) 0%Z
        (zip (pins hg) (edgeWeight hg)).

Definition changeNodePart (hn : N) (from to : Z) (hg : Hypergraph) : option Hypergraph :=
  ps ← Vec.set (partID hg) hn to;
  Some {| pins := pins hg; edgeWeight := edgeWeight hg; partID := ps |}.

(** Modelled from the spec: the refiner [TwoWayFMRefiner] is not among the
    sources, only its test is.  The gain of a hypernode is the amount by
    which its one possible move, to the other block, lowers the cut
    objective.  After a move from p to q the keys of the unlocked pins of
    every hyperedge of the moved hypernode are updated by the transitions of
    the pin counts: in p, 2 to 1 raises the key of the pin left in p and 1 to
    0 lowers the keys of the pins in q; in q, 0 to 1 raises the keys of the
    pins in p and 1 to 2 lowers the key of the other pin in q; each by the
    weight of the hyperedge, which makes the keys equal to the recomputed
    gains.  A hypernode that is not in the queue and is on the border is
    then inserted with a freshly computed gain, one in the queue that has
    left the border is removed. *)
Record t := {
  _hg : Hypergraph;
  _pq : PQ.t;
  _marked : list bool
}.

Definition with_hg (r : t) (hg : Hypergraph) : t :=
  {| _hg := hg; _pq := _pq r; _marked := _marked r |}.
Definition with_pq (r : t) (pq : PQ.t) : t :=
  {| _hg := _hg r; _pq := pq; _marked := _marked r |}.
Definition with_marked (r : t) (m : list bool) : t :=
  {| _hg := _hg r; _pq := _pq r; _marked := m |}.

(** the block of the one possible move of a hypernode of block [p] *)
Definition other (p : Z) : Z := if (p =? 0)%Z then 1%Z else 0%Z.

Definition computeGain (hg : Hypergraph) (hn : N) : option Z :=
  p ← Vec.get (partID hg) hn;
  hg' ← changeNodePart hn p (other p) hg;
  Some (hyperedgeCut hg - hyperedgeCut hg')%Z.

Definition isBorderNode (hg : Hypergraph) (hn : N) : bool :=
  existsb (λ e, bool_decide (hn ∈ e) && is_cut hg e) (pins hg).

Definition initialize (hg : Hypergraph) : option t :=
  pq ← PQ.make 2;
  Some {| _hg := hg; _pq := PQ.initialize pq;
          _marked := replicate (length (partID hg)) false |}.

(** the change of the key of the pin [u] of the hyperedge [e] of weight [w],
    read off the pin counts after the move from [from] to [to] *)
Definition delta_gain (hg : Hypergraph) (e : list N) (w : Z) (from to : Z) (u : N)
    : option Z :=
  p ← Vec.get (partID hg) u;
  let now_from := pinCountInPart hg e from in
  let now_to := pinCountInPart hg e to in
  Some (if (p =? from)%Z
        then (if (now_from =? 1)%Z then w else 0) + (if (now_to =? 1)%Z then w else 0)
        else (if (now_from =? 0)%Z then - w else 0) + (if (now_to =? 2)%Z then - w else 0))%Z.

(** the unlocked pins, other than the moved hypernode, of its hyperedges *)
Definition neighbours (r : t) (moved : N) : option (list (list N * Z * N)) :=
  foldM (λ acc ew,
           if bool_decide (moved ∈ ew.1)
           then us ← foldM (λ us u,
                              m ← Vec.get (_marked r) u;
                              Some (if negb (u =? moved) && negb m
                                    then us ++ [(ew.1, ew.2, u)] else us))
                           [] ew.1;
                Some (acc ++ us)
           else Some acc)
        [] (zip (pins (_hg r)) (edgeWeight (_hg r))).

Definition updateNeighbours (moved : N) (from to : Z) (r : t) : option t :=
  ns ← neighbours r moved;
  r ← foldM (λ r n,
               let '(e, w, u) := n in
               p ← Vec.get (partID (_hg r)) u;
               c ← PQ.contains u (other p) (_pq r);
               if (c : bool)
               then d ← delta_gain (_hg r) e w from to u;
                    pq ← PQ.updateKeyBy u (other p) d (_pq r);
                    Some (with_pq r pq)
               else Some r)
            r ns;
  foldM (λ r n,
           let u := n.2 in
           p ← Vec.get (partID (_hg r)) u;
           c ← PQ.contains u (other p) (_pq r);
           if (c : bool) && negb (isBorderNode (_hg r) u)
           then pq ← PQ.remove u (other p) (_pq r); Some (with_pq r pq)
           else if negb c && isBorderNode (_hg r) u
           then g ← computeGain (_hg r) u;
                pq ← PQ.insert u (other p) g (_pq r);
                Some (with_pq r pq)
           else Some r)
        r ns.

(** The steps of the tests of the gain update: the hypernodes [seeds] are
    inserted with their gains, by-passing the activation, and the parts
    [enabled] are enabled; then [moved] changes its block, is marked, and its
    neighbours are updated. *)
Definition seeded (hg : Hypergraph) (seeds : list N) (enabled : list Z) : option t :=
  r ← initialize hg;
  r ← foldM (λ r hn,
               p ← Vec.get (partID (_hg r)) hn;
               g ← computeGain (_hg r) hn;
               pq ← PQ.insert hn (other p) g (_pq r);
               Some (with_pq r pq))
            r seeds;
  foldM (λ r p, pq ← PQ.enablePart p (_pq r); Some (with_pq r pq)) r enabled.

Definition after_move (moved : N) (r : t) : option t :=
  p ← Vec.get (partID (_hg r)) moved;
  hg ← changeNodePart moved p (other p) (_hg r);
  m ← Vec.set (_marked r) moved true;
  updateNeighbours moved p (other p) (with_marked (with_hg r hg) m).

Definition unit_weights (es : list (list N)) (ps : list Z) : Hypergraph :=
  {| pins := es; edgeWeight := replicate (length es) 1%Z; partID := ps |}.

(** the gain is the decrease of the cut, whatever the weight of the hyperedge *)
Lemma computeGain_size2 w hn :
  hn = 0 ∨ hn = 1 →
  computeGain {| pins := [[0; 1]]; edgeWeight := [w]; partID := [0; 0]%Z |} hn
  = Some (- w)%Z.
Proof. intros [-> | ->]; lazy -[Z.add Z.sub Z.opp]; f_equal; lia. Qed.

(** C9. In the hypergraph with the two hypernodes 0 and 1 of block 0 and the
    one hyperedge {0, 1}, the gain of moving either hypernode to block 1 is
    -1, and these are their keys for block 1 in the queue; after hypernode 1
    has moved to block 1 and is marked, the update of its neighbours sets the
    key of hypernode 0 for block 1 to +1 and leaves the key of hypernode 1 at
    -1. *)
Theorem size2_gain_update :
  let hg := unit_weights [[0; 1]] [0; 0]%Z in
  computeGain hg 0 = Some (-1)%Z ∧ computeGain hg 1 = Some (-1)%Z ∧
  ∃ before after,
    seeded hg [0; 1] [1%Z] = Some before ∧
    PQ.key 0 1 (_pq before) = Some (-1)%Z ∧
    PQ.key 1 1 (_pq before) = Some (-1)%Z ∧
    after_move 1 before = Some after ∧
    partID (_hg after) = [0; 1]%Z ∧
    PQ.key 0 1 (_pq after) = Some 1%Z ∧
    PQ.key 1 1 (_pq after) = Some (-1)%Z.
Proof.
  intros hg. split; [by apply (computeGain_size2 1); left|].
  split; [by apply (computeGain_size2 1); right|].
  destruct (seeded hg [0; 1] [1%Z]) as [before|] eqn:Hbefore; [|by vm_compute in Hbefore].
  destruct (after_move 1 before) as [after|] eqn:Hafter.
  - exists before, after. vm_compute in Hbefore. injection Hbefore as <-.
    vm_compute in Hafter. injection Hafter as <-.
    split_and!; vm_compute; reflexivity.
  - vm_compute in Hbefore. injection Hbefore as <-. by vm_compute in Hafter.
Qed.

(** The other tests of the gain update, on hyperedges of unit weight. *)

Example RespectsNegativeGainUpdateSpecialCaseForHyperedgesOfSize2 :
  (r ← seeded (unit_weights [[0; 1]; [0; 2]] [0; 1; 1]%Z) [0; 1] [0; 1]%Z;
   r' ← after_move 1 r;
   k0 ← PQ.key 0 1 (_pq r); k1 ← PQ.key 1 0 (_pq r); k0' ← PQ.key 0 1 (_pq r');
   Some (k0, k1, k0')) = Some (2, 1, 0)%Z.
Proof. vm_compute. reflexivity. Qed.

Example HandlesCase0To1 :
  (r ← seeded (unit_weights [[0; 1; 2; 3]] [0; 0; 0; 0]%Z) [0; 1; 2; 3] [1%Z];
   r' ← after_move 3 r;
   mapM (λ hn, PQ.key hn 1 (_pq r')) [0; 1; 2]) = Some [0; 0; 0]%Z.
Proof. vm_compute. reflexivity. Qed.

Example HandlesCase1To0 :
  (r ← seeded (unit_weights [[0; 1; 2; 3]; [0; 1; 2; 4]] [0; 0; 0; 1; 1]%Z)
              [0; 1; 2; 3; 4] [];
   r' ← after_move 3 r;
   mapM (λ hn, PQ.key hn 1 (_pq r')) [0; 1; 2]) = Some [-1; -1; -1]%Z.
Proof. vm_compute. reflexivity. Qed.

Example HandlesCase2To1 :
  (r ← seeded (unit_weights [[0; 1; 2; 3]] [0; 0; 1; 1]%Z) [0; 1; 2; 3] [];
   r' ← after_move 3 r;
   k0 ← PQ.key 0 1 (_pq r'); k1 ← PQ.key 1 1 (_pq r'); k2 ← PQ.key 2 0 (_pq r');
   Some (k0, k1, k2)) = Some (0, 0, 1)%Z.
Proof. vm_compute. reflexivity. Qed.

Example HandlesCase1To2 :
  (r ← seeded (unit_weights [[0; 1; 2; 3]] [0; 0; 0; 1]%Z) [0; 1; 2; 3] [];
   r' ← after_move 2 r;
   k0 ← PQ.key 0 1 (_pq r'); k1 ← PQ.key 1 1 (_pq r'); k3 ← PQ.key 3 0 (_pq r');
   Some (k0, k1, k3)) = Some (0, 0, 0)%Z.
Proof. vm_compute. reflexivity. Qed.

Example HandlesSpecialCaseOfHyperedgeWith3Pins :
  (r ← seeded (unit_weights [[0; 1; 2]] [0; 0; 1]%Z) [0; 1; 2] [];
   r' ← after_move 1 r;
   k0 ← PQ.key 0 1 (_pq r'); k2 ← PQ.key 2 0 (_pq r');
   Some (k0, k2)) = Some (1, 0)%Z.
Proof. vm_compute. reflexivity. Qed.

Example ActivatesUnmarkedNeighbors :
  (r ← seeded (unit_weights [[0; 1; 2]] [0; 0; 0]%Z) [0; 1] [1%Z];
   r' ← after_move 1 r;
   c ← PQ.contains 2 1 (_pq r);
   k0 ← PQ.key 0 1 (_pq r'); k1 ← PQ.key 1 1 (_pq r'); k2 ← PQ.key 2 1 (_pq r');
   Some (c, k0, k1, k2)) = Some (false, 0, -1, 0)%Z.
Proof. vm_compute. reflexivity. Qed.

Example RemovesNonBorderNodesFromPQ :
  (r ← seeded (unit_weights [[0; 1; 2]] [0; 1; 0]%Z) [0; 1] [];
   r' ← after_move 1 r;
   k1 ← PQ.key 1 0 (_pq r');
   c0 ← PQ.contains_anywhere 0 (_pq r'); c2 ← PQ.contains_anywhere 2 (_pq r');
   Some (k1, c0, c2)) = Some (1%Z, false, false).
Proof. vm_compute. reflexivity. Qed.

End TwoWayFMRefiner.

(** ** The hypergraph of the interface test *)

Module InterfaceTest.

Import TwoWayFMRefiner.

(** [hyperedge_indices], [hyperedges] and [hyperedge_weights] of the test
    [KaHyPar.CanBeCalledViaInterface], with the pins split per hyperedge *)
Definition hypergraph (partition : list Z) : Hypergraph :=
  {| pins := [[0; 2]; [0; 1; 3; 4]; [3; 4; 6]; [2; 5; 6]];
     edgeWeight := [1; 1000; 1; 1000]%Z;
     partID := partition |}.

Definition correct_solution : list Z := [0; 0; 1; 0; 0; 1; 1]%Z.

(** all assignments of [n] hypernodes to the blocks 0 and 1 *)
Fixpoint bipartitions (n : nat) : list (list Z) :=
  match n with
  | O => [[]]
  | S n => ps ← bipartitions n; [0%Z :: ps; 1%Z :: ps]
  end.

Definition partWeight (partition : list Z) (b : Z) : nat :=
  length (filter (λ p, p = b) partition).

(** with unit weights, 7 hypernodes, k = 2 and epsilon = 0.03 a block may
    hold floor (1.03 * ceil (7 / 2)) = 4 hypernodes *)
Definition balanced (partition : list Z) : bool :=
  bool_decide (partWeight partition 0 ≤ 4)%nat && bool_decide (partWeight partition 1 ≤ 4)%nat.

Lemma correct_solution_cut :
  hyperedgeCut (hypergraph correct_solution) = 2%Z ∧ balanced correct_solution = true.
Proof. split; vm_compute; reflexivity. Qed.

(** No balanced bipartition has a smaller cut, and the only other one with
    cut 2 is the same bipartition with the names of the blocks exchanged. *)
Lemma correct_solution_optimal (partition : list Z) :
  partition ∈ bipartitions 7 → balanced partition = true →
  (2 ≤ hyperedgeCut (hypergraph partition))%Z ∧
  (hyperedgeCut (hypergraph partition) = 2%Z →
   partition = correct_solution ∨ partition = [1; 1; 0; 1; 1; 0; 0]%Z).
Proof.
  intros Hin Hbal.
  assert (Hall : forallb (λ ps, implb (balanced ps)
            ((2 <=? hyperedgeCut (hypergraph ps))%Z &&
             implb (hyperedgeCut (hypergraph ps) =? 2)%Z
                   (bool_decide (ps = correct_solution)
                    || bool_decide (ps = [1; 1; 0; 1; 1; 0; 0]%Z))))
            (bipartitions 7) = true) by (vm_compute; reflexivity).
  rewrite forallb_forall in Hall. apply list_elem_of_In in Hin.
  specialize (Hall partition Hin). rewrite Hbal in Hall. simpl in Hall.
  apply andb_true_iff in Hall as [Hle%Z.leb_le Hopt]. split; [done|].
  intros Heq%Z.eqb_eq. rewrite Heq in Hopt. simpl in Hopt.
  apply orb_true_iff in Hopt as [H%bool_decide_eq_true|H%bool_decide_eq_true]; auto.
Qed.

End InterfaceTest.

(** ** The command-line driver *)

Module Application.

(** Modelled from the spec: [kahypar::Mode] is declared outside of the
    sources; the mode of a run is recursive bisection or direct k-way. *)
Inductive Mode := recursive_bisection | direct_kway.

Definition Mode_eqb (a b : Mode) : bool :=
  match a, b with
  | recursive_bisection, recursive_bisection | direct_kway, direct_kway => true
  | _, _ => false
  end.

(** The fields of [Context] that [main] reads; [global_search_iterations] is
    the [uint32_t] set by the option [vcycles]. *)
Record PartitioningParameters := {
  mode : Mode;
  global_search_iterations : N;
  quiet_mode : bool;
  seed : Z;
  k : Z;
  graph_filename : string;
  graph_partition_filename : string;
  sp_process_output : bool
}.

Record Context := {
  partition : PartitioningParameters;
  time_limit_seconds : Q        (* evolutionary.time_limit_seconds *)
}.

(** What a run of [main] does to the outside, in order. *)
Inductive event :=
  | printBanner
  | cerr (message : string)
  | setSeed (seed : Z)
  | createHypergraphFromFile (filename : string) (k : Z)
  | partition_hypergraph            (* [partitioner.partition] *)
  | serializeEvolutionary
  | reset
  | printPartitioningResults
  | writePartitionFile (filename : string)
  | serialize.

(** The loop that partitions until the time limit is used up.  The time that
    each call of the partitioner takes comes from the clock: [durations]
    lists the measured times, and the run is not described ([None]) when the
    list ends before the limit is reached.

    Modelled from the spec: [Timer] is not among the sources.  Its
    [total_evolutionary] starts at 0 and [add] adds the measured time to it;
    it is a [double], and the rational sum of the model is the sum of the
    code where the doubles add without rounding. *)
Fixpoint partition_until (limit total : Q) (durations : list Q) : option (list event) :=
  if Qle_bool limit total then Some []
  else match durations with
       | [] => None
       | d :: durations =>
           rest ← partition_until limit (total + d) durations;
           Some ([partition_hypergraph; serializeEvolutionary; reset] ++ rest)
       end.

(** [main], from the point where [processCommandLineInput] and [sanityCheck]
    have returned with [context]; the result is the list of events and the
    argument of [std::exit] or of [return]. *)
Definition main (context : Context) (durations : list Q) : option (list event * Z) :=
  let banner := if negb (quiet_mode (partition context)) then [printBanner] else [] in
  if negb (global_search_iterations (partition context) =? 0)
     && Mode_eqb (mode (partition context)) recursive_bisection
  then Some (banner ++ [cerr "V-Cycles are not supported in recursive bisection mode."],
             (-1)%Z)
  else
    rounds ← partition_until (time_limit_seconds context) 0 durations;
    Some (banner
          ++ [setSeed (seed (partition context));
              createHypergraphFromFile (graph_filename (partition context))
                                       (k (partition context))]
          ++ rounds
          ++ (if negb (quiet_mode (partition context)) then [printPartitioningResults] else [])
          ++ [writePartitionFile (graph_partition_filename (partition context))]
          ++ (if sp_process_output (partition context) then [serialize] else []),
          0%Z).

(** the exit status that the parent process sees *)
Definition exit_status (code : Z) : Z := (code mod 256)%Z.

Definition is_work (e : event) : bool :=
  match e with
  | printBanner | cerr _ => false
  | _ => true
  end.

Definition sum_durations (durations : list Q) : Q := foldr Qplus 0%Q durations.

Lemma partition_until_is_Some limit total durations :
  (limit <= total + sum_durations durations)%Q →
  is_Some (partition_until limit total durations).
Proof.
  revert total. induction durations as [|d ds IH]; intros total Hsum; simpl in *.
  - destruct (Qle_bool limit total) eqn:Hle; [done|].
    exfalso. apply not_true_iff_false in Hle. apply Hle, Qle_bool_iff. lra.
  - destruct (Qle_bool limit total) eqn:Hle; [done|].
    destruct (IH (total + d)%Q) as [rest ->]; [lra|]. done.
Qed.

(** C8. When the configuration asks for v-cycles in recursive-bisection mode,
    [main] prints at most the banner and the error message and leaves through
    [std::exit(-1)], a non-zero exit status, before the seed is set, the
    hypergraph is read or the partitioner is called.  With [vcycles = 0] or
    with direct k-way mode the check lets the run pass: it goes on to set the
    seed, read the hypergraph and partition, and returns 0. *)
Theorem vcycles_in_recursive_bisection_rejected (context : Context) (durations : list Q) :
  (0 < global_search_iterations (partition context) ∧
   mode (partition context) = recursive_bisection →
   ∃ trace, main context durations = Some (trace, (-1)%Z) ∧
            exit_status (-1) ≠ 0%Z ∧
            Forall (λ e, is_work e = false) trace) ∧
  (global_search_iterations (partition context) = 0 ∨
   mode (partition context) = direct_kway →
   (time_limit_seconds context <= sum_durations durations)%Q →
   ∃ trace, main context durations = Some (trace, 0%Z) ∧
            setSeed (seed (partition context)) ∈ trace ∧
            (∀ message, cerr message ∉ trace)).
Proof.
  split.
  - intros [Hv Hm]. unfold main. rewrite Hm. simpl.
    destruct (N.eqb_spec (global_search_iterations (partition context)) 0) as [|_]; [lia|].
    simpl. eexists. split; [done|]. split; [done|].
    destruct (quiet_mode (partition context)); simpl; repeat constructor.
  - intros Hok Hlimit. unfold main.
    assert (negb (global_search_iterations (partition context) =? 0)
            && Mode_eqb (mode (partition context)) recursive_bisection = false) as ->.
    { destruct Hok as [-> | ->]; [done|]. by rewrite andb_false_r. }
    destruct (partition_until_is_Some (time_limit_seconds context) 0 durations) as [rounds Hr].
    { lra. }
    rewrite Hr. simpl. eexists. split; [done|]. split.
    + apply elem_of_app. right. by left.
    + intros message Hin.
      assert (Hrounds : ∀ limit total ds r, partition_until limit total ds = Some r →
                cerr message ∉ r).
      { clear. intros limit total ds. revert total.
        induction ds as [|d ds IH]; intros total r; simpl.
        - destruct (Qle_bool limit total); [|done]. intros [= <-]. by intros ?%elem_of_nil.
        - destruct (Qle_bool limit total); [intros [= <-]; by intros ?%elem_of_nil|].
          intros (rest & Hrest & [= <-])%KWayPriorityQueue.bind_Some.
          intros Hin. repeat (apply elem_of_cons in Hin as [Hin|Hin]; [discriminate Hin|]).
          by apply (IH _ _ Hrest). }
      specialize (Hrounds _ _ _ _ Hr).
      repeat match type of Hin with
             | _ ∈ _ ++ _ => apply elem_of_app in Hin as [Hin|Hin]
             | _ ∈ _ :: _ => apply elem_of_cons in Hin as [Hin|Hin]; [discriminate Hin|]
             | _ ∈ [] => by apply elem_of_nil in Hin
             | _ ∈ (if ?c then _ else _) => destruct c
             end; done.
Qed.

Definition example_run (m : Mode) (vcycles : N) : Context :=
  {| partition := {| mode := m; global_search_iterations := vcycles;
                     quiet_mode := true; seed := 42; k := 2;
                     graph_filename := "test.hgr";
                     graph_partition_filename := "test.hgr.part2.epsilon0.03.seed42.KaHyPar";
                     sp_process_output := false |};
     time_limit_seconds := 5 |}.

Lemma vcycles_in_recursive_bisection_rejected_witness :
  main (example_run recursive_bisection 3) [2; 4]%Q
    = Some ([cerr "V-Cycles are not supported in recursive bisection mode."], (-1)%Z) ∧
  ∃ trace, main (example_run direct_kway 3) [2; 4]%Q = Some (trace, 0%Z) ∧
           setSeed 42 ∈ trace.
Proof.
  split.
  - destruct (vcycles_in_recursive_bisection_rejected
                (example_run recursive_bisection 3) [2; 4]%Q) as [Hrej _].
    destruct Hrej as (trace & Hmain & _); [split; [simpl; lia|reflexivity]|].
    rewrite Hmain. vm_compute in Hmain. by injection Hmain as <-.
  - destruct (vcycles_in_recursive_bisection_rejected
                (example_run direct_kway 3) [2; 4]%Q) as [_ Hok].
    destruct Hok as (trace & Hmain & Hseed & _);
      [by right|vm_compute; discriminate|].
    by exists trace.
Defined.

(** *** How often the partitioner is called *)

(** one iteration of the loop of [main] *)
Definition round : list event := [partition_hypergraph; serializeEvolutionary; reset].

Lemma partition_until_rounds limit (n : nat) : ∀ durations total,
  (n ≤ length durations)%nat →
  (∀ m, (m < n)%nat → (total + sum_durations (take m durations) < limit)%Q) →
  (limit <= total + sum_durations (take n durations))%Q →
  partition_until limit total durations = Some (mjoin (replicate n round)).
Proof.
  induction n as [|n IH]; intros ds total Hlen Hbelow Hreach.
  - assert (Hle : Qle_bool limit total = true).
    { apply Qle_bool_iff. rewrite take_0 in Hreach. simpl in Hreach. lra. }
    destruct ds; simpl; by rewrite Hle.
  - destruct ds as [|d ds]; [simpl in Hlen; lia|].
    assert (Hlt : Qle_bool limit total = false).
    { apply not_true_iff_false. intros Hle%Qle_bool_iff.
      specialize (Hbelow 0%nat ltac:(lia)). simpl in Hbelow. lra. }
    simpl. rewrite Hlt. rewrite (IH ds (total + d)%Q); [done| | |].
    + simpl in Hlen. lia.
    + intros m Hm. specialize (Hbelow (S m) ltac:(lia)). simpl in Hbelow. lra.
    + simpl in Hreach. lra.
Qed.

(** Measured times for which the [double] sums of [Timer::add] are exact:
    multiples of 2^-20 seconds, given by their numbers of ticks, that add up
    to less than 2^53 ticks. *)
Definition seconds (ticks : N) : Q := inject_Z (Z.of_N ticks) / inject_Z (2 ^ 20).

Definition sum_ticks (ticks : list N) : N := foldr N.add 0 ticks.

Lemma sum_durations_seconds ticks :
  (sum_durations (seconds <$> ticks) == seconds (sum_ticks ticks))%Q.
Proof.
  induction ticks as [|t ticks IH]; simpl.
  - unfold seconds. simpl. reflexivity.
  - unfold sum_durations in IH. rewrite IH. unfold seconds.
    rewrite N2Z.inj_add, inject_Z_plus. field. discriminate.
Qed.

(** X26. For measured times on which the [double] sums are exact, when the
    check of the v-cycles lets the run pass, [main] calls the partitioner
    exactly [n] times, where [n] is the first number of calls whose measured
    times add up to the time limit or more; each call is followed by
    [serializeEvolutionary] and [reset], and the partition file is written
    after the last of them.  With a time limit of 0 or less the partitioner
    is not called at all, and the partition file is still written. *)
Theorem partitions_until_time_limit (context : Context) (ticks : list N) (n : nat) :
  global_search_iterations (partition context) = 0 ∨
  mode (partition context) = direct_kway →
  sum_ticks ticks < 2 ^ 53 →
  (n ≤ length ticks)%nat →
  (∀ m, (m < n)%nat → (seconds (sum_ticks (take m ticks)) < time_limit_seconds context)%Q) →
  (time_limit_seconds context <= seconds (sum_ticks (take n ticks)))%Q →
  main context (seconds <$> ticks)
  = Some ((if quiet_mode (partition context) then [] else [printBanner])
          ++ [setSeed (seed (partition context));
              createHypergraphFromFile (graph_filename (partition context))
                                       (k (partition context))]
          ++ mjoin (replicate n round)
          ++ (if quiet_mode (partition context) then [] else [printPartitioningResults])
          ++ [writePartitionFile (graph_partition_filename (partition context))]
          ++ (if sp_process_output (partition context) then [serialize] else []),
          0%Z).
Proof.
  intros Hok _ Hlen Hbelow Hreach. unfold main.
  assert (negb (global_search_iterations (partition context) =? 0)
          && Mode_eqb (mode (partition context)) recursive_bisection = false) as ->.
  { destruct Hok as [-> | ->]; [done|]. by rewrite andb_false_r. }
  rewrite (partition_until_rounds _ n).
  - simpl. by destruct (quiet_mode (partition context)).
  - by rewrite length_fmap.
  - intros m Hm. specialize (Hbelow m Hm).
    rewrite <- fmap_take, sum_durations_seconds. lra.
  - rewrite <- fmap_take, sum_durations_seconds. lra.
Qed.

Lemma partitions_until_time_limit_witness :
  main (example_run direct_kway 3) (seconds <$> [2097152; 4194304; 1048576])
  = Some ([setSeed 42; createHypergraphFromFile "test.hgr" 2;
           partition_hypergraph; serializeEvolutionary; reset;
           partition_hypergraph; serializeEvolutionary; reset;
           writePartitionFile "test.hgr.part2.epsilon0.03.seed42.KaHyPar"], 0%Z).
Proof.
  rewrite (partitions_until_time_limit (example_run direct_kway 3)
             [2097152; 4194304; 1048576] 2).
  - reflexivity.
  - by right.
  - vm_compute. reflexivity.
  - simpl. lia.
  - intros m Hm. destruct m as [|[|m]]; [vm_compute; reflexivity|vm_compute; reflexivity|lia].
  - vm_compute. discriminate.
Defined.

End Application.

(** ** The flow execution policies *)

Module FlowExecutionPolicy.

(** The policy keeps [_flowExecutionLevels], a vector of numbers of
    hypernodes; the levels are [size_t]. *)
Definition size_t_add (a b : N) : N := (a + b) mod 2 ^ 64.

(** [HypernodeID] is [uint32_t]: a sum of numbers of hypernodes wraps at
    2^32 before it is stored in a [size_t]. *)
Definition HypernodeID_add (a b : N) : N := (a + b) mod 2 ^ 32.

(** [std::pow(2, i)] and the other [double]s are rationals: on numbers of
    hypernodes below 2^32 the sums with and the quotients by powers of two
    that the loops compute are exact. *)
Definition pow2 (i : N) : Q := inject_Z (2 ^ Z.of_N i).
Definition to_double (n : N) : Q := inject_Z (Z.of_N n).
(** the conversion of a non-negative [double] to [size_t] *)
Definition double_to_size_t (x : Q) : N := Z.to_N (Qfloor x).

Definition executeFlow (hg : Hypergraph.t) (_flowExecutionLevels : list N)
    : option (bool * list N) :=
  if Vec.size _flowExecutionLevels =? 0 then Some (false, _flowExecutionLevels)
  else
    let cur_idx := size_t_dec (Vec.size _flowExecutionLevels) in
    level ← Vec.get _flowExecutionLevels cur_idx;
    if level <=? Hypergraph.currentNumNodes hg
    then Some (true, removelast _flowExecutionLevels)   (* pop_back *)
    else Some (false, _flowExecutionLevels).

(** The loops of the three [initialize] functions; [fuel] bounds the number
    of iterations. *)
Fixpoint constant_loop (fuel : nat) (initial beta cur_execution_level : N)
    (tmpFlowExecutionLevels : list N) : option (list N) :=
  match fuel with
  | O => None
  | S fuel =>
      if cur_execution_level <? initial
      then constant_loop fuel initial beta (size_t_add cur_execution_level beta)
                         (tmpFlowExecutionLevels ++ [cur_execution_level])
      else Some tmpFlowExecutionLevels
  end.

Fixpoint multilevel_loop (fuel : nat) (current initial i : N)
    (tmpFlowExecutionLevels : list N) : option (list N) :=
  match fuel with
  | O => None
  | S fuel =>
      let level := (to_double initial / pow2 i)%Q in
      if Qle_bool (to_double current) level
      then multilevel_loop fuel current initial (size_t_inc i)
                           (tmpFlowExecutionLevels ++ [double_to_size_t level])
      else Some tmpFlowExecutionLevels
  end.

Fixpoint exponential_loop (fuel : nat) (current initial i : N)
    (tmpFlowExecutionLevels : list N) : option (list N) :=
  match fuel with
  | O => None
  | S fuel =>
      let level := (to_double current + pow2 i)%Q in
      if Qlt_bool level (to_double initial)
      then exponential_loop fuel current initial (size_t_inc i)
                            (tmpFlowExecutionLevels ++ [double_to_size_t level])
      else Some tmpFlowExecutionLevels
  end.

(** the classes derived from [FlowExecutionPolicy] *)
Inductive policy := ConstantFlowExecution | MultilevelFlowExecution | ExponentialFlowExecution.

(** [initialize(hg, context)]; [beta] is [context.local_search.flow.beta] *)
Definition initialize (p : policy) (fuel : nat) (hg : Hypergraph.t) (beta : N)
    (_flowExecutionLevels : list N) : option (list N) :=
  let current := Hypergraph.currentNumNodes hg in
  let initial := Hypergraph.initialNumNodes hg in
  match p with
  | ConstantFlowExecution =>
      tmp ← constant_loop fuel initial beta (HypernodeID_add current 1) [];
      Some (_flowExecutionLevels ++ reverse (tmp ++ [initial]))
  | MultilevelFlowExecution =>
      tmp ← multilevel_loop fuel current initial 0 [];
      Some (_flowExecutionLevels ++ tmp)
  | ExponentialFlowExecution =>
      tmp ← exponential_loop fuel current initial 0 [];
      Some (_flowExecutionLevels ++ reverse (tmp ++ [initial]))
  end.

(** a hypergraph of which only the numbers of hypernodes matter *)
Definition with_num_nodes (current initial : N) : Hypergraph.t :=
  {| Hypergraph._part_ids := []; Hypergraph._edge_weights := [];
     Hypergraph._current_num_hypernodes := current;
     Hypergraph._num_hypernodes := initial |}.

(** *** Facts about the doubles *)

Lemma pow2_pos i : (0 < 2 ^ Z.of_N i)%Z.
Proof. apply Z.pow_pos_nonneg; lia. Qed.

Lemma to_double_plus_pow2 n i :
  (to_double n + pow2 i == inject_Z (Z.of_N (n + 2 ^ i)))%Q.
Proof.
  unfold to_double, pow2. rewrite <- inject_Z_plus. apply inject_Z_injective.
  rewrite N2Z.inj_add, N2Z.inj_pow. done.
Qed.

Lemma floor_to_double n : double_to_size_t (inject_Z (Z.of_N n)) = n.
Proof. unfold double_to_size_t. rewrite Qfloor_Z. lia. Qed.

Lemma double_to_size_t_comp x y : (x == y)%Q → double_to_size_t x = double_to_size_t y.
Proof. intros H. unfold double_to_size_t. by rewrite (Qfloor_comp _ _ H). Qed.

Lemma Qlt_bool_to_double a b :
  Qlt_bool (inject_Z (Z.of_N a)) (inject_Z (Z.of_N b)) = (a <? b).
Proof.
  apply eq_true_iff_eq. unfold Qlt_bool.
  rewrite negb_true_iff, <- not_true_iff_false, Qle_bool_iff, <- Zle_Qle, N.ltb_lt. lia.
Qed.

Lemma exponential_cond current initial i :
  Qlt_bool (to_double current + pow2 i) (to_double initial) = (current + 2 ^ i <? initial).
Proof.
  rewrite <- Qlt_bool_to_double. unfold Qlt_bool, to_double. f_equal.
  apply eq_true_iff_eq. rewrite !Qle_bool_iff. by setoid_rewrite to_double_plus_pow2.
Qed.

Lemma exponential_level current i :
  double_to_size_t (to_double current + pow2 i) = current + 2 ^ i.
Proof. rewrite (double_to_size_t_comp _ _ (to_double_plus_pow2 current i)). apply floor_to_double. Qed.

Lemma multilevel_cond current initial i :
  Qle_bool (to_double current) (to_double initial / pow2 i) = (current * 2 ^ i <=? initial).
Proof.
  assert (Hpos : (0 < pow2 i)%Q).
  { unfold pow2. replace 0%Q with (inject_Z 0) by done. rewrite <- Zlt_Qlt. apply pow2_pos. }
  assert (Hmul : (to_double current * pow2 i == inject_Z (Z.of_N (current * 2 ^ i)))%Q).
  { unfold to_double, pow2. rewrite <- inject_Z_mult. apply inject_Z_injective.
    rewrite N2Z.inj_mul, N2Z.inj_pow. done. }
  apply eq_true_iff_eq. rewrite Qle_bool_iff, N.leb_le. split.
  - intros H. apply (Qmult_le_compat_r _ _ (pow2 i)) in H; [|by apply Qlt_le_weak].
    setoid_rewrite Hmul in H. unfold Qdiv in H.
    setoid_rewrite <- Qmult_assoc in H. setoid_rewrite (Qmult_comm (/ pow2 i)) in H.
    setoid_rewrite Qmult_inv_r in H;
      [|intros Heq; setoid_rewrite Heq in Hpos; by apply Qlt_irrefl in Hpos].
    setoid_rewrite Qmult_1_r in H.
    unfold to_double in H. rewrite <- Zle_Qle in H. lia.
  - intros H. apply Qle_shift_div_l; [done|]. setoid_rewrite Hmul. unfold to_double.
    rewrite <- Zle_Qle. lia.
Qed.

Lemma multilevel_level initial i :
  double_to_size_t (to_double initial / pow2 i) = initial / 2 ^ i.
Proof.
  unfold double_to_size_t, to_double, pow2. pose proof (pow2_pos i) as Hpos.
  rewrite <- (N2Z.id (initial / 2 ^ i)), N2Z.inj_div, N2Z.inj_pow. simpl (Z.of_N 2).
  destruct (2 ^ Z.of_N i)%Z as [|c|c] eqn:Hc; [lia| |lia].
  unfold Qdiv, Qinv, Qmult, inject_Z, Qfloor. simpl.
  by rewrite Z.mul_1_r.
Qed.

(** *** The levels that [initialize] computes *)

Lemma size_t_add_small a b : a + b < 2 ^ 64 → size_t_add a b = a + b.
Proof. intros H. unfold size_t_add. by apply N.mod_small. Qed.

Lemma HypernodeID_add_small a b : a + b < 2 ^ 32 → HypernodeID_add a b = a + b.
Proof. intros H. unfold HypernodeID_add. by apply N.mod_small. Qed.

Lemma HypernodeID_add_bound a b :
  HypernodeID_add a b ≤ a + b ∧ HypernodeID_add a b < 2 ^ 64.
Proof.
  unfold HypernodeID_add. split; [by apply N.Div0.mod_le|].
  eapply N.lt_trans; [by apply N.mod_lt|by vm_compute].
Qed.

Lemma fmap_seq_shift {A} (f : nat → A) n :
  f <$> seq 0 (S n) = f 0%nat :: ((λ j, f (S j)) <$> seq 0 n).
Proof. simpl. f_equal. by rewrite <- fmap_S_seq, <- list_fmap_compose. Qed.

Lemma constant_loop_spec initial beta n :
  ∀ fuel level tmp,
  level + N.of_nat n * beta < 2 ^ 64 →
  (∀ j, (j < n)%nat → level + N.of_nat j * beta < initial) →
  initial ≤ level + N.of_nat n * beta →
  (n < fuel)%nat →
  constant_loop fuel initial beta level tmp
  = Some (tmp ++ ((λ j, level + N.of_nat j * beta) <$> seq 0 n)).
Proof.
  induction n as [|n IH]; intros fuel level tmp Hwrap Hlt Hge Hfuel;
    (destruct fuel as [|fuel]; [lia|]); simpl constant_loop.
  - destruct (N.ltb_spec level initial); [lia|]. simpl. by rewrite app_nil_r.
  - specialize (Hlt 0%nat ltac:(lia)) as Hlt0.
    destruct (N.ltb_spec level initial); [|lia].
    rewrite size_t_add_small by lia.
    rewrite (IH fuel (level + beta) (tmp ++ [level])); try lia.
    + rewrite fmap_seq_shift, <- app_assoc. simpl. do 3 f_equal; [lia|].
      apply list_fmap_ext. intros _ j _. lia.
    + intros j Hj. specialize (Hlt (S j) ltac:(lia)). lia.
Qed.

Lemma exponential_loop_spec current initial n :
  ∀ fuel i tmp,
  i + N.of_nat n < 2 ^ 64 →
  (∀ j, (j < n)%nat → current + 2 ^ (i + N.of_nat j) < initial) →
  initial ≤ current + 2 ^ (i + N.of_nat n) →
  (n < fuel)%nat →
  exponential_loop fuel current initial i tmp
  = Some (tmp ++ ((λ j, current + 2 ^ (i + N.of_nat j)) <$> seq 0 n)).
Proof.
  induction n as [|n IH]; intros fuel i tmp Hwrap Hlt Hge Hfuel;
    (destruct fuel as [|fuel]; [lia|]); simpl exponential_loop;
    rewrite exponential_cond, exponential_level.
  - rewrite N.add_0_r in Hge. destruct (N.ltb_spec (current + 2 ^ i) initial); [lia|].
    simpl. by rewrite app_nil_r.
  - specialize (Hlt 0%nat ltac:(lia)) as Hlt0. rewrite N.add_0_r in Hlt0.
    destruct (N.ltb_spec (current + 2 ^ i) initial); [|lia].
    unfold size_t_inc. rewrite N.mod_small by lia.
    rewrite (IH fuel (i + 1) (tmp ++ [current + 2 ^ i])); try lia.
    + rewrite fmap_seq_shift, <- app_assoc. simpl. rewrite N.add_0_r. do 3 f_equal.
      apply list_fmap_ext. intros _ j _. do 2 f_equal. lia.
    + intros j Hj. specialize (Hlt (S j) ltac:(lia)).
      replace (i + 1 + N.of_nat j) with (i + N.of_nat (S j)) by lia. done.
    + replace (i + 1 + N.of_nat n) with (i + N.of_nat (S n)) by lia. done.
Qed.

Lemma multilevel_loop_spec current initial n :
  ∀ fuel i tmp,
  i + N.of_nat n < 2 ^ 64 →
  (∀ j, (j < n)%nat → current * 2 ^ (i + N.of_nat j) ≤ initial) →
  initial < current * 2 ^ (i + N.of_nat n) →
  (n < fuel)%nat →
  multilevel_loop fuel current initial i tmp
  = Some (tmp ++ ((λ j, initial / 2 ^ (i + N.of_nat j)) <$> seq 0 n)).
Proof.
  induction n as [|n IH]; intros fuel i tmp Hwrap Hle Hgt Hfuel;
    (destruct fuel as [|fuel]; [lia|]); simpl multilevel_loop;
    rewrite multilevel_cond, multilevel_level.
  - rewrite N.add_0_r in Hgt. destruct (N.leb_spec (current * 2 ^ i) initial); [lia|].
    simpl. by rewrite app_nil_r.
  - specialize (Hle 0%nat ltac:(lia)) as Hle0. rewrite N.add_0_r in Hle0.
    destruct (N.leb_spec (current * 2 ^ i) initial); [|lia].
    unfold size_t_inc. rewrite N.mod_small by lia.
    rewrite (IH fuel (i + 1) (tmp ++ [initial / 2 ^ i])); try lia.
    + rewrite fmap_seq_shift, <- app_assoc. simpl. rewrite N.add_0_r. do 3 f_equal.
      apply list_fmap_ext. intros _ j _. do 2 f_equal. lia.
    + intros j Hj. specialize (Hle (S j) ltac:(lia)).
      replace (i + 1 + N.of_nat j) with (i + N.of_nat (S j)) by lia. done.
    + replace (i + 1 + N.of_nat n) with (i + N.of_nat (S n)) by lia. done.
Qed.

Lemma constant_loop_beta_zero initial fuel :
  ∀ level tmp, level < initial → level < 2 ^ 64 →
  constant_loop fuel initial 0 level tmp = None.
Proof.
  induction fuel as [|fuel IH]; intros level tmp Hlt Hsmall; simpl; [done|].
  destruct (N.ltb_spec level initial); [|lia].
  rewrite size_t_add_small by lia. rewrite N.add_0_r. by apply IH.
Qed.

(** X14. With a positive [beta], [ConstantFlowExecution::initialize] ends and
    appends the level [initialNumNodes] followed by the levels
    [currentNumNodes + 1 + j * beta] below it, the greatest first.  The sum
    [currentNumNodes + 1] is one of [HypernodeID]s and is taken below 2^32,
    where it does not wrap. *)
Theorem constant_levels (hg : Hypergraph.t) (beta : N) (levels : list N) :
  let current := Hypergraph.currentNumNodes hg in
  let initial := Hypergraph.initialNumNodes hg in
  0 < beta → current + 1 < 2 ^ 32 → initial + beta ≤ 2 ^ 64 →
  let n := N.to_nat ((initial - (current + 1) + (beta - 1)) / beta) in
  ∀ fuel, (n < fuel)%nat →
    initialize ConstantFlowExecution fuel hg beta levels
    = Some (levels ++ initial
                   :: reverse ((λ j, current + 1 + N.of_nat j * beta) <$> seq 0 n)).
Proof.
  intros current initial Hbeta Hcur32 Hinit n fuel Hfuel. unfold initialize.
  assert (Hcur : current + 1 < 2 ^ 64)
    by (eapply N.lt_trans; [exact Hcur32|by vm_compute]).
  fold current initial. rewrite HypernodeID_add_small by done.
  set (d := initial - (current + 1)) in *. set (q := (d + (beta - 1)) / beta) in *.
  assert (Hq1 : beta * q ≤ d + (beta - 1)) by (apply N.Div0.mul_div_le; lia).
  assert (Hq2 : d + (beta - 1) < beta * N.succ q) by (apply N.mul_succ_div_gt; lia).
  assert (Hn : N.of_nat n = q) by (unfold n; lia).
  assert (Hb : ∃ b, beta = b + 1 ∧ beta - 1 = b) by (exists (beta - 1); lia).
  destruct Hb as (b & Hb & Hb'). rewrite Hb' in Hq1, Hq2. clear Hb'.
  assert (Hd : (d = 0 ∧ initial ≤ current + 1) ∨ initial = current + 1 + d)
    by (unfold d; lia).
  clearbody d q current initial. subst beta.
  assert (H64 : 2 ^ 64 = 18446744073709551616) by done. rewrite H64 in *. clear H64.
  rewrite N.mul_succ_r in Hq2.
  assert (Hq0 : d = 0 → q = 0).
  { intros ->. destruct (N.eq_dec q 0) as [|Hq]; [done|].
    assert ((b + 1) * 1 ≤ (b + 1) * q) by (apply N.mul_le_mono_l; lia). lia. }
  rewrite (constant_loop_spec initial (b + 1) n fuel (current + 1) []); [| | | |done].
  - simpl. rewrite reverse_app. done.
  - rewrite Hn, (N.mul_comm q). destruct Hd as [[Hd _]| ->]; [rewrite (Hq0 Hd)|]; lia.
  - intros j Hj.
    assert ((b + 1) * N.succ (N.of_nat j) ≤ (b + 1) * q) by (apply N.mul_le_mono_l; lia).
    rewrite N.mul_succ_r in *. rewrite (N.mul_comm (N.of_nat j)). lia.
  - rewrite Hn, (N.mul_comm q). lia.
Qed.

(** X15. With [beta = 0] and more than one uncontraction to come,
    [ConstantFlowExecution::initialize] does not end: the level of its loop
    never moves. *)
Theorem constant_beta_zero (hg : Hypergraph.t) (levels : list N) (fuel : nat) :
  Hypergraph.currentNumNodes hg + 1 < Hypergraph.initialNumNodes hg →
  Hypergraph.initialNumNodes hg ≤ 2 ^ 64 →
  initialize ConstantFlowExecution fuel hg 0 levels = None.
Proof.
  intros Hlt Hsmall. unfold initialize.
  pose proof (HypernodeID_add_bound (Hypergraph.currentNumNodes hg) 1) as [Hle H64].
  by rewrite constant_loop_beta_zero by lia.
Qed.

(** X16. [ExponentialFlowExecution::initialize] appends the level
    [initialNumNodes] followed by the levels [currentNumNodes + 2^j] below
    it, the greatest first. *)
Theorem exponential_levels (hg : Hypergraph.t) (beta : N) (levels : list N) :
  let current := Hypergraph.currentNumNodes hg in
  let initial := Hypergraph.initialNumNodes hg in
  initial < 2 ^ 32 →
  let n := N.to_nat (N.log2_up (initial - current)) in
  ∀ fuel, (n < fuel)%nat →
    initialize ExponentialFlowExecution fuel hg beta levels
    = Some (levels ++ initial
                   :: reverse ((λ j, current + 2 ^ N.of_nat j) <$> seq 0 n)).
Proof.
  intros current initial Hinit n fuel Hfuel. unfold initialize. fold current initial.
  set (a := initial - current) in *.
  assert (Hn : N.of_nat n = N.log2_up a) by (unfold n; lia).
  assert (Hup : a ≤ 2 ^ N.log2_up a).
  { destruct (N.le_gt_cases a 1) as [Hle|Hgt].
    - assert (0 < 2 ^ N.log2_up a) by (apply N.neq_0_lt_0, N.pow_nonzero; lia). lia.
    - by apply N.log2_up_spec. }
  assert (Hlow : ∀ j, j < N.log2_up a → 2 ^ j < a).
  { intros j Hj. destruct (N.le_gt_cases a 1) as [Hle|Hgt].
    - assert (N.log2_up a = 0); [|lia].
      destruct (N.eq_dec a 0) as [->|]; [done|]. by replace a with 1 by lia.
    - destruct (N.log2_up_spec a Hgt) as [Hlt _].
      eapply N.le_lt_trans; [|exact Hlt]. apply N.pow_le_mono_r; lia. }
  assert (Hbound : N.log2_up a ≤ 32).
  { destruct (N.eq_dec a 0) as [->|Hne]; [done|].
    apply N.log2_up_le_pow2; [lia|]. unfold a. lia. }
  rewrite (exponential_loop_spec current initial n fuel 0 []); [| | | |done].
  - simpl. rewrite reverse_app. simpl. do 4 f_equal.
  - lia.
  - intros j Hj. rewrite N.add_0_l. specialize (Hlow (N.of_nat j) ltac:(lia)).
    unfold a in *. lia.
  - rewrite N.add_0_l, Hn. unfold a in *. lia.
Qed.

(** X17. With a hypernode in the hypergraph, [MultilevelFlowExecution::initialize]
    appends the levels [initialNumNodes / 2^j] that are not below
    [currentNumNodes], the greatest first. *)
Theorem multilevel_levels (hg : Hypergraph.t) (beta : N) (levels : list N) :
  let current := Hypergraph.currentNumNodes hg in
  let initial := Hypergraph.initialNumNodes hg in
  0 < current → initial < 2 ^ 32 →
  let n := if current <=? initial then S (N.to_nat (N.log2 (initial / current)))
           else 0%nat in
  ∀ fuel, (n < fuel)%nat →
    initialize MultilevelFlowExecution fuel hg beta levels
    = Some (levels ++ ((λ j, initial / 2 ^ N.of_nat j) <$> seq 0 n)).
Proof.
  intros current initial Hcur Hinit n fuel Hfuel. unfold initialize. fold current initial.
  rewrite (multilevel_loop_spec current initial n fuel 0 []); [done| | | |done].
  - unfold n. destruct (current <=? initial); [|lia].
    assert (N.log2 (initial / current) ≤ N.log2 initial).
    { apply N.log2_le_mono. apply N.Div0.div_le_upper_bound. nia. }
    assert (N.log2 initial < 32).
    { destruct (N.eq_dec initial 0) as [->|]; [done|]. apply N.log2_lt_pow2; lia. }
    lia.
  - intros j Hj. rewrite N.add_0_l. unfold n in Hj.
    destruct (N.leb_spec current initial) as [Hle|]; [|lia].
    set (a := initial / current) in *.
    assert (Ha : 0 < a) by (apply N.div_str_pos; lia).
    destruct (N.log2_spec a Ha) as [Hlow _].
    assert (2 ^ N.of_nat j ≤ 2 ^ N.log2 a) by (apply N.pow_le_mono_r; lia).
    assert (current * a ≤ initial) by (apply N.Div0.mul_div_le).
    nia.
  - rewrite N.add_0_l. unfold n. destruct (N.leb_spec current initial) as [Hle|Hgt].
    + set (a := initial / current) in *.
      assert (Ha : 0 < a) by (apply N.div_str_pos; lia).
      destruct (N.log2_spec a Ha) as [_ Hhigh].
      assert (initial < current * N.succ a) by (apply N.mul_succ_div_gt; lia).
      replace (N.of_nat (S (N.to_nat (N.log2 a)))) with (N.succ (N.log2 a)) by lia.
      nia.
    + simpl. lia.
Qed.

(** *** [executeFlow] on the levels of [initialize] *)

Lemma constant_loop_inv initial beta fuel :
  ∀ level tmp r, constant_loop fuel initial beta level tmp = Some r →
  ∃ added, r = tmp ++ added ∧ Forall (λ l, l < initial) added ∧
    head (added ++ [initial]) = Some (if level <? initial then level else initial).
Proof.
  induction fuel as [|fuel IH]; intros level tmp r; simpl; [done|].
  destruct (level <? initial) eqn:Hlt.
  - intros (added & -> & Hall & _)%IH. exists (level :: added).
    rewrite <- app_assoc. split; [done|]. split; [|done].
    constructor; [by apply N.ltb_lt|done].
  - intros [= <-]. exists []. by rewrite app_nil_r.
Qed.

Lemma exponential_loop_inv current initial fuel :
  ∀ i tmp r, exponential_loop fuel current initial i tmp = Some r →
  ∃ added, r = tmp ++ added ∧ Forall (λ l, l < initial) added ∧
    head (added ++ [initial])
    = Some (if current + 2 ^ i <? initial then current + 2 ^ i else initial).
Proof.
  induction fuel as [|fuel IH]; intros i tmp r; simpl; [done|].
  rewrite exponential_cond, exponential_level.
  destruct (current + 2 ^ i <? initial) eqn:Hlt.
  - intros (added & -> & Hall & _)%IH. exists (current + 2 ^ i :: added).
    rewrite <- app_assoc. split; [done|]. split; [|done].
    constructor; [by apply N.ltb_lt|done].
  - intros [= <-]. exists []. by rewrite app_nil_r.
Qed.

Lemma multilevel_loop_inv current initial fuel :
  ∀ i tmp r, multilevel_loop fuel current initial i tmp = Some r →
  ∃ added, r = tmp ++ added ∧ Forall (λ l, l ≤ initial) added ∧
    (current * 2 ^ i ≤ initial → added ≠ []).
Proof.
  induction fuel as [|fuel IH]; intros i tmp r; simpl; [done|].
  rewrite multilevel_cond, multilevel_level.
  destruct (N.leb_spec (current * 2 ^ i) initial) as [Hle|Hgt].
  - intros (added & -> & Hall & _)%IH. exists (initial / 2 ^ i :: added).
    rewrite <- app_assoc. split; [done|]. split; [|done].
    constructor; [|done]. apply N.Div0.div_le_upper_bound.
    assert (0 < 2 ^ i) by (apply N.neq_0_lt_0, N.pow_nonzero; lia). nia.
  - intros [= <-]. exists []. rewrite app_nil_r. split; [done|]. split; [done|]. lia.
Qed.

Lemma initialize_inv p fuel hg beta levels L :
  initialize p fuel hg beta levels = Some L →
  ∃ added, L = levels ++ added ∧
    Forall (λ l, l ≤ Hypergraph.initialNumNodes hg) added ∧
    (Hypergraph.currentNumNodes hg ≤ Hypergraph.initialNumNodes hg → added ≠ []).
Proof.
  unfold initialize. destruct p.
  - intros (tmp & (added & -> & Hall & _)%constant_loop_inv & [= <-])%bind_Some.
    eexists. split; [done|]. split.
    + apply Forall_reverse, Forall_app. split; [|by repeat constructor].
      eapply Forall_impl; [exact Hall|]. simpl. intros; lia.
    + intros _ Hnil%(f_equal length). rewrite length_reverse, length_app in Hnil.
      simpl in Hnil. lia.
  - intros (tmp & (added & -> & Hall & Hne)%multilevel_loop_inv & [= <-])%bind_Some.
    exists added. split; [done|]. split; [done|]. intros Hle. apply Hne.
    rewrite N.pow_0_r. lia.
  - intros (tmp & (added & -> & Hall & _)%exponential_loop_inv & [= <-])%bind_Some.
    eexists. split; [done|]. split.
    + apply Forall_reverse, Forall_app. split; [|by repeat constructor].
      eapply Forall_impl; [exact Hall|]. simpl. intros; lia.
    + intros _ Hnil%(f_equal length). rewrite length_reverse, length_app in Hnil.
      simpl in Hnil. lia.
Qed.

Lemma executeFlow_last hg levels level :
  last levels = Some level → Vec.size levels < 2 ^ 64 →
  executeFlow hg levels
  = Some (if level <=? Hypergraph.currentNumNodes hg then (true, removelast levels)
          else (false, levels)).
Proof.
  intros Hlast Hlen. unfold executeFlow. unfold Vec.size in *.
  assert (length levels ≠ 0)%nat by (by destruct levels).
  destruct (N.eqb_spec (N.of_nat (length levels)) 0); [lia|].
  rewrite KWayPriorityQueue.size_t_dec_pos by lia.
  rewrite Vec.get_lookup. replace (N.to_nat (N.of_nat (length levels) - 1))
    with (pred (length levels)) by lia.
  rewrite <- last_lookup, Hlast. simpl. by destruct (level <=? _).
Qed.

(** X18. [initialize] leaves at least one level and no level above
    [initialNumNodes]: on the finest level [executeFlow] answers [true] and
    takes the last level away, until the levels are used up. *)
Theorem finest_level_executes p fuel hg beta levels L hg' (m : nat) :
  Forall (λ l, l ≤ Hypergraph.initialNumNodes hg) levels →
  Hypergraph.currentNumNodes hg ≤ Hypergraph.initialNumNodes hg →
  initialize p fuel hg beta levels = Some L →
  Hypergraph.currentNumNodes hg' = Hypergraph.initialNumNodes hg →
  Vec.size L < 2 ^ 64 →
  L ≠ [] ∧
  ((0 < m ≤ length L)%nat →
   executeFlow hg' (take m L) = Some (true, take (m - 1) L)).
Proof.
  intros Hold Hle Hinit Hcur Hlen.
  destruct (initialize_inv p fuel hg beta levels L Hinit) as (added & -> & Hall & Hne).
  split.
  { intros [_ Hnil]%app_eq_nil. by apply Hne. }
  intros Hm.
  assert (HL : Forall (λ l, l ≤ Hypergraph.initialNumNodes hg) (levels ++ added))
    by (by apply Forall_app).
  set (L := levels ++ added) in *.
  destruct (last (take m L)) as [level|] eqn:Hlast.
  2: { apply last_None in Hlast. apply (f_equal length) in Hlast.
       rewrite length_take in Hlast. simpl in Hlast. lia. }
  rewrite (executeFlow_last hg' (take m L) level Hlast)
    by (unfold Vec.size in *; rewrite length_take; lia).
  assert (Hin : level ∈ L).
  { apply last_Some in Hlast as [l' Hl']. rewrite <- (take_drop m L), Hl'.
    rewrite !elem_of_app. left. right. by left. }
  rewrite Forall_forall in HL. specialize (HL level Hin).
  rewrite Hcur. destruct (N.leb_spec level (Hypergraph.initialNumNodes hg)); [|lia].
  do 2 f_equal. apply last_Some in Hlast as [l' Hl']. rewrite Hl', removelast_last.
  assert (length l' = (m - 1)%nat).
  { apply (f_equal length) in Hl'. rewrite length_take, length_app in Hl'.
    simpl in Hl'. lia. }
  rewrite <- (take_app_length l' [level]), <- Hl', take_take. f_equal. lia.
Qed.

(** X19. The constant and the exponential policy do not execute the flow on the
    level on which they are initialized, when uncontractions are still to
    come: the smallest level they add is [currentNumNodes + 1].  The
    numbers of hypernodes are [HypernodeID]s, below 2^32. *)
Theorem coarsest_level_is_skipped p fuel hg beta levels L :
  p ≠ MultilevelFlowExecution →
  Hypergraph.currentNumNodes hg < Hypergraph.initialNumNodes hg →
  Hypergraph.initialNumNodes hg < 2 ^ 32 →
  initialize p fuel hg beta levels = Some L →
  Vec.size L < 2 ^ 64 →
  executeFlow hg L = Some (false, L).
Proof.
  intros Hp Hlt Hsmall Hinit Hlen.
  set (current := Hypergraph.currentNumNodes hg) in *.
  set (initial := Hypergraph.initialNumNodes hg) in *.
  assert (Hlast : ∃ level, last L = Some level ∧ current < level).
  { unfold initialize in Hinit. fold current initial in Hinit. destruct p; [|done|].
    - apply bind_Some in Hinit as (tmp & (added & -> & _ & Hhd)%constant_loop_inv & [= <-]).
      rewrite HypernodeID_add_small in Hhd by lia. simpl in Hhd.
      eexists. rewrite last_app, last_reverse, Hhd. split; [done|].
      destruct (N.ltb_spec (current + 1) initial); lia.
    - apply bind_Some in Hinit as (tmp & (added & -> & _ & Hhd)%exponential_loop_inv & [= <-]).
      simpl in Hhd. eexists. rewrite last_app, last_reverse, Hhd. split; [done|].
      rewrite N.pow_0_r. destruct (N.ltb_spec (current + 1) initial); lia. }
  destruct Hlast as (level & Hlast & Hgt).
  rewrite (executeFlow_last hg L level Hlast Hlen). fold current.
  by destruct (N.leb_spec level current); [lia|].
Qed.

Lemma constant_levels_witness :
  initialize ConstantFlowExecution 10 (with_num_nodes 10 20) 3 [] = Some [20; 17; 14; 11].
Proof.
  rewrite (constant_levels (with_num_nodes 10 20) 3 []);
    [vm_compute; reflexivity
    |first [simpl; lia | vm_compute; reflexivity | vm_compute; lia] ..].
Defined.

Lemma constant_beta_zero_witness :
  initialize ConstantFlowExecution 1000 (with_num_nodes 10 20) 0 [] = None.
Proof. apply constant_beta_zero; simpl; lia. Defined.

Lemma exponential_levels_witness :
  initialize ExponentialFlowExecution 10 (with_num_nodes 10 20) 0 []
  = Some [20; 18; 14; 12; 11].
Proof.
  rewrite (exponential_levels (with_num_nodes 10 20) 0 []);
    [vm_compute; reflexivity
    |first [simpl; lia | vm_compute; reflexivity | vm_compute; lia] ..].
Defined.

Lemma multilevel_levels_witness :
  initialize MultilevelFlowExecution 10 (with_num_nodes 10 100) 0 []
  = Some [100; 50; 25; 12].
Proof.
  rewrite (multilevel_levels (with_num_nodes 10 100) 0 []);
    [vm_compute; reflexivity
    |first [simpl; lia | vm_compute; reflexivity | vm_compute; lia] ..].
Defined.

Lemma finest_level_executes_witness :
  executeFlow (with_num_nodes 100 100) [100; 50; 25; 12] = Some (true, [100; 50; 25]) ∧
  executeFlow (with_num_nodes 100 100) [100] = Some (true, []).
Proof.
  destruct (finest_level_executes MultilevelFlowExecution 10 (with_num_nodes 10 100) 0 []
              [100; 50; 25; 12] (with_num_nodes 100 100) 4) as [_ H4];
    [constructor|simpl; lia|vm_compute; reflexivity|reflexivity|vm_compute; reflexivity|].
  destruct (finest_level_executes MultilevelFlowExecution 10 (with_num_nodes 10 100) 0 []
              [100; 50; 25; 12] (with_num_nodes 100 100) 1) as [_ H1];
    [constructor|simpl; lia|vm_compute; reflexivity|reflexivity|vm_compute; reflexivity|].
  split; [apply H4|apply H1]; simpl; lia.
Defined.

Lemma coarsest_level_is_skipped_witness :
  executeFlow (with_num_nodes 10 20) [20; 17; 14; 11] = Some (false, [20; 17; 14; 11]).
Proof.
  apply (coarsest_level_is_skipped ConstantFlowExecution 10 (with_num_nodes 10 20) 3 []).
  - done.
  - simpl; lia.
  - vm_compute; reflexivity.
  - vm_compute; reflexivity.
  - vm_compute; reflexivity.
Defined.

End FlowExecutionPolicy.
